(** * Routing and batching control plane of the distributed inference engine

    A shallow embedding of [consistent_hash.py] (the hash ring),
    [batch_processor.py] (the batch coalescer) and the forwarding part of
    [gateway.py] (the router), with the properties of the specification
    stated and settled over these definitions.

    Conventions of the embedding.
    - A Python [str] is the Rocq [string] of its UTF-8 bytes, so
      [key.encode('utf-8')] is the identity on the model.
    - Python [int] is [Z]; a loop count [range(n)] runs [Z.to_nat n] times.
    - Python [float] (clock readings, the running mean) is modelled by exact
      rationals [Q]; no property below depends on rounding.
    - [dict] is [gmap], [set] is [gset], [queue.Queue] is a FIFO list. *)

From Stdlib Require Import ZArith QArith Qminmax Lia Lqa Ascii String.
From stdpp Require Import base decidable option list sorting gmap strings pretty finite.

Local Open Scope Z_scope.

(** ** MD5 ([hashlib.md5]), RFC 1321, on 32-bit words held in [Z] *)
Module MD5.

(** The low 32 bits. *)
Definition w32 (x : Z) : Z := Z.land x 0xffffffff.

Definition add32 (x y : Z) : Z := w32 (x + y).

Definition not32 (x : Z) : Z := Z.lxor x 0xffffffff.

Definition rotl32 (x c : Z) : Z :=
  w32 (Z.lor (Z.shiftl x c) (Z.shiftr x (32 - c))).

(** [K[i] = floor(2^32 * abs(sin(i + 1)))]. *)
Definition K : list Z :=
[ 0xd76aa478; 0xe8c7b756; 0x242070db; 0xc1bdceee; 0xf57c0faf; 0x4787c62a; 0xa8304613; 0xfd469501;
  0x698098d8; 0x8b44f7af; 0xffff5bb1; 0x895cd7be; 0x6b901122; 0xfd987193; 0xa679438e; 0x49b40821;
  0xf61e2562; 0xc040b340; 0x265e5a51; 0xe9b6c7aa; 0xd62f105d; 0x02441453; 0xd8a1e681; 0xe7d3fbc8;
  0x21e1cde6; 0xc33707d6; 0xf4d50d87; 0x455a14ed; 0xa9e3e905; 0xfcefa3f8; 0x676f02d9; 0x8d2a4c8a;
  0xfffa3942; 0x8771f681; 0x6d9d6122; 0xfde5380c; 0xa4beea44; 0x4bdecfa9; 0xf6bb4b60; 0xbebfbc70;
  0x289b7ec6; 0xeaa127fa; 0xd4ef3085; 0x04881d05; 0xd9d4d039; 0xe6db99e5; 0x1fa27cf8; 0xc4ac5665;
  0xf4292244; 0x432aff97; 0xab9423a7; 0xfc93a039; 0x655b59c3; 0x8f0ccc92; 0xffeff47d; 0x85845dd1;
  0x6fa87e4f; 0xfe2ce6e0; 0xa3014314; 0x4e0811a1; 0xf7537e82; 0xbd3af235; 0x2ad7d2bb; 0xeb86d391 ].

(** Per-round left-rotation amounts. *)
Definition shifts : list Z :=
[ 7; 12; 17; 22; 7; 12; 17; 22; 7; 12; 17; 22; 7; 12; 17; 22;
  5;  9; 14; 20; 5;  9; 14; 20; 5;  9; 14; 20; 5;  9; 14; 20;
  4; 11; 16; 23; 4; 11; 16; 23; 4; 11; 16; 23; 4; 11; 16; 23;
  6; 10; 15; 21; 6; 10; 15; 21; 6; 10; 15; 21; 6; 10; 15; 21 ].

Record state := State { sa : Z; sb : Z; sc : Z; sd : Z }.

Definition init : state :=
  State 0x67452301 0xefcdab89 0x98badcfe 0x10325476.

(** The non-linear function and message-word index of round [i]. *)
Definition round_fg (i : Z) (b c d : Z) : Z * Z :=
  if i <? 16 then (Z.lor (Z.land b c) (Z.land (not32 b) d), i)
  else if i <? 32 then (Z.lor (Z.land d b) (Z.land (not32 d) c), (5 * i + 1) mod 16)
  else if i <? 48 then (Z.lxor (Z.lxor b c) d, (3 * i + 5) mod 16)
  else (Z.lxor c (Z.lor b (not32 d)), (7 * i) mod 16).

Definition round (M : list Z) (st : state) (i : nat) : state :=
  let '(State a b c d) := st in
  let '(f, g) := round_fg (Z.of_nat i) b c d in
  let f' := add32 (add32 (add32 f a) (K !!! i)) (M !!! Z.to_nat g) in
  State d (add32 b (rotl32 f' (shifts !!! i))) b c.

(** Four bytes, least significant first, to a word and back. *)
Definition word_of_le (bs : list Z) : Z :=
  foldr (λ b acc, b + 256 * acc) 0 bs.

Definition le_of_word (n : nat) (x : Z) : list Z :=
  (λ k : nat, Z.land (Z.shiftr x (8 * Z.of_nat k)) 0xff) <$> seq 0 n.

Fixpoint words (n : nat) (bs : list Z) : list Z :=
  match n with
  | O => []
  | S n' => word_of_le (take 4 bs) :: words n' (drop 4 bs)
  end.

Definition compress (st : state) (block : list Z) : state :=
  let M := words 16 block in
  let st' := foldl (round M) st (seq 0 64) in
  State (add32 (sa st) (sa st')) (add32 (sb st) (sb st'))
        (add32 (sc st) (sc st')) (add32 (sd st) (sd st')).

(** The message followed by 0x80, zeros up to 56 mod 64, and the bit length
    on 8 bytes. *)
Definition pad (msg : list Z) : list Z :=
  let len := Z.of_nat (length msg) in
  let zeros := Z.to_nat ((55 - len) mod 64) in
  msg ++ [0x80] ++ replicate zeros 0 ++ le_of_word 8 ((8 * len) mod 2 ^ 64).

Fixpoint blocks (n : nat) (st : state) (bs : list Z) : state :=
  match n with
  | O => st
  | S n' => blocks n' (compress st (take 64 bs)) (drop 64 bs)
  end.

Definition bytes_of_string (s : string) : list Z :=
  (λ a, Z.of_nat (nat_of_ascii a)) <$> list_ascii_of_string s.

(** [hashlib.md5(b).digest()] as 16 bytes. *)
Definition digest (msg : list Z) : list Z :=
  let padded := pad msg in
  let st := blocks (length padded / 64)%nat init padded in
  le_of_word 4 (sa st) ++ le_of_word 4 (sb st)
    ++ le_of_word 4 (sc st) ++ le_of_word 4 (sd st).

(** [int(hexdigest, 16)]: the digest read as a big-endian number. *)
Definition int_of_be (bs : list Z) : Z :=
  foldl (λ acc b, 256 * acc + b) 0 bs.

Definition md5_int (s : string) : Z := int_of_be (digest (bytes_of_string s)).

End MD5.

(** ** Python values shared by the three components *)

(** The exceptions the modelled code raises or catches. [KeyError] carries
    [repr(key)]; [TimeoutError] is what a socket raises when its timeout
    expires; [URLError] is [urllib.error.URLError] and [HTTPError] its
    subclass, raised by [urlopen] for a response whose status is an error. *)
Inductive exn :=
  | IndexError
  | KeyError (key : string)
  | TimeoutError (msg : string)
  | URLError (reason : string)
  | HTTPError (code : Z) (msg : string)
  | OtherError (msg : string)
  | Exception (msg : string).

(** The outcome of a call: a returned value or a raised exception. *)
Inductive result (A : Type) :=
  | Return (a : A)
  | Raise (e : exn).
Arguments Return {A} a.
Arguments Raise {A} e.

(** [str(e)]. *)
Definition str_of_exn (e : exn) : string :=
  match e with
  | IndexError => "list index out of range"
  | KeyError key => key
  | TimeoutError msg | OtherError msg | Exception msg => msg
  | URLError reason => "<urlopen error " +:+ reason +:+ ">"
  | HTTPError code msg => "HTTP Error " +:+ pretty code +:+ ": " +:+ msg
  end.

(** [isinstance(e, urllib.error.URLError)]: what [except
    urllib.error.URLError] catches. *)
Definition is_URLError (e : exn) : bool :=
  match e with
  | URLError _ | HTTPError _ _ => true
  | _ => false
  end.

(** ** consistent_hash.py *)
Module ConsistentHash.

Record t := Ring {
  virtual_nodes : Z;
  ring : gmap Z string;        (* hash -> node *)
  sorted_keys : list Z;
  nodes : gset string
}.

(** [int(hashlib.md5(key.encode('utf-8')).hexdigest(), 16)] *)
Definition _hash (key : string) : Z := MD5.md5_int key.

(** [f"{node}#{i}"] *)
Definition virtual_key (node : string) (i : nat) : string :=
  node +:+ "#" +:+ pretty i.

(** The hashes written for [node] by the loop [for i in range(virtual_nodes)]. *)
Definition vhashes (V : Z) (node : string) : list Z :=
  (λ i, _hash (virtual_key node i)) <$> seq 0 (Z.to_nat V).

(** [sorted(ring.keys())] *)
Definition sorted_of (r : gmap Z string) : list Z :=
  merge_sort Z.le (map_to_list r).*1.

Definition add_node (c : t) (node : string) : t :=
  if decide (node ∈ nodes c) then c
  else
    let ring' := foldl (λ r h, <[h := node]> r) (ring c) (vhashes (virtual_nodes c) node) in
    Ring (virtual_nodes c) ring' (sorted_of ring') ({[node]} ∪ nodes c).

Definition remove_node (c : t) (node : string) : t :=
  if decide (node ∈ nodes c) then
    let ring' := foldl (λ r h, delete h r) (ring c) (vhashes (virtual_nodes c) node) in
    Ring (virtual_nodes c) ring' (sorted_of ring') (nodes c ∖ {[node]})
  else c.

(** [ConsistentHash(nodes, virtual_nodes)] *)
Definition new (nodes0 : list string) (V : Z) : t :=
  foldl add_node (Ring V ∅ [] ∅) nodes0.

(** [bisect.bisect_right(a, x)]: the binary search of the standard library,
    [fuel] bounding the iterations of its [while lo < hi] loop. *)
Fixpoint bisect_loop (fuel : nat) (a : list Z) (x : Z) (lo hi : nat) : nat :=
  match fuel with
  | O => lo
  | S fuel' =>
      if decide (lo < hi)%nat then
        let mid := ((lo + hi) `div` 2)%nat in
        if decide (x < a !!! mid) then bisect_loop fuel' a x lo mid
        else bisect_loop fuel' a x (mid + 1)%nat hi
      else lo
  end.

Definition bisect_right (a : list Z) (x : Z) : nat :=
  bisect_loop (length a) a x 0%nat (length a).

Definition get_node (c : t) (key : string) : result (option string) :=
  if decide (ring c = ∅) then Return None
  else
    let hash_value := _hash key in
    let index := bisect_right (sorted_keys c) hash_value in
    let index := if decide (index = length (sorted_keys c)) then 0%nat else index in
    match sorted_keys c !! index with
    | None => Raise IndexError
    | Some h =>
        match ring c !! h with
        | None => Raise (KeyError (pretty h))
        | Some node => Return (Some node)
        end
    end.

(** [list(self.nodes)]: the members in the iteration order of the set, which
    Python leaves unspecified: [list_of_set] stands for it. *)
Definition get_nodes (list_of_set : gset string → list string) (c : t) : list string :=
  list_of_set (nodes c).

(** Membership operations, to speak of sequences of them. *)
Inductive op := Add (node : string) | Remove (node : string).

Definition apply_op (c : t) (o : op) : t :=
  match o with
  | Add node => add_node c node
  | Remove node => remove_node c node
  end.

Definition run (ops : list op) (c : t) : t := foldl apply_op c ops.

(** The endpoints named by the [Add]s of a sequence. *)
Definition added (ops : list op) : list string :=
  omap (λ o, match o with Add n => Some n | Remove _ => None end) ops.

(** All ring positions of the endpoints [E]. *)
Definition ring_hashes (V : Z) (E : list string) : list Z :=
  E ≫= vhashes V.

End ConsistentHash.

(** ** batch_processor.py *)
Module BatchProcessor.

Record BatchMetrics := Metrics {
  total_requests : Z;
  total_batches : Z;
  avg_batch_size : Q;
  timeout_batches : Z;
  full_batches : Z
}.

(** Where a dispatch thread stands in [_processing_loop]: at the test of
    [while self.running], blocked in [request_queue.get(timeout=...)] with
    the timeout it passed ([None] would be a wait without deadline), or
    past the loop. *)
Inductive pc_t :=
  | AtLoopTest
  | InGet (timeout : option Q)
  | Finished.

Section Coalescer.

(** Requests and results are opaque Python objects. *)
Context {Any : Type}.

(** What [_process_batch] puts on a result queue: a result, or the
    dictionary [{"error": str(e)}]. *)
Inductive slot_value :=
  | Value (a : Any)
  | ErrorDict (msg : string).

(** The locals of one run of [_processing_loop]. *)
Record thread := Thread {
  batch : list Any;
  result_queues : list nat;
  last_batch_time : Q;
  pc : pc_t
}.

(** One call of [process_fn] (or of the default), kept for the statements:
    the batch, its result queues, the [timeout] flag and the outcome. *)
Record dispatch := Dispatch {
  d_batch : list Any;
  d_queues : list nat;
  d_timeout : bool;
  d_outcome : result (list Any)
}.

(** The processor and what surrounds it: result queues are named by the
    order of their creation in [process]; [puts] lists every
    [result_queue.put] in the order made. A put on a queue of capacity one
    blocks only when the queue already holds a value; every put is listed as
    made, and the bookkeeping below shows that no queue receives two. *)
Record state := St {
  running : bool;
  request_queue : list (Any * nat);
  metrics : BatchMetrics;
  threads : list thread;
  next_queue : nat;
  puts : list (nat * slot_value);
  dispatched : list dispatch
}.

(** The attributes fixed by [__init__]; [timeout_ms] holds seconds, as
    [self.timeout_ms] does after the division by 1000.0. *)
Variable max_batch_size : Z.
Variable timeout_ms : Q.
Variable process_fn : option (list Any → result (list Any)).

Definition init : state :=
  St false [] (Metrics 0 0 0 0 0) [] 0%nat [] [].

Definition _process_batch (s : state) (batch : list Any)
    (result_queues : list nat) (timeout : bool) : state :=
  match batch with
  | [] => s
  | _ :: _ =>
      let outcome :=
        match process_fn with
        | Some f => f batch
        | None => Return batch
        end in
      let log := dispatched s ++ [Dispatch batch result_queues timeout outcome] in
      match outcome with
      | Return results =>
          let puts' := puts s ++ zip_with (λ r q, (q, Value r)) results result_queues in
          let m := metrics s in
          let total := total_batches m + 1 in
          let batch_size := Z.of_nat (length batch) in
          let prev_total := (avg_batch_size m * inject_Z (total - 1))%Q in
          let avg := ((prev_total + inject_Z batch_size) / inject_Z total)%Q in
          let m' :=
            if timeout
            then Metrics (total_requests m) total avg (timeout_batches m + 1) (full_batches m)
            else Metrics (total_requests m) total avg (timeout_batches m) (full_batches m + 1) in
          St (running s) (request_queue s) m' (threads s) (next_queue s) puts' log
      | Raise e =>
          let puts' := puts s ++ ((λ q, (q, ErrorDict (str_of_exn e))) <$> result_queues) in
          St (running s) (request_queue s) (metrics s) (threads s) (next_queue s) puts' log
      end
  end.

Definition get_metrics (s : state) : BatchMetrics :=
  Metrics (total_requests (metrics s)) (total_batches (metrics s))
          (avg_batch_size (metrics s)) (timeout_batches (metrics s))
          (full_batches (metrics s)).

Definition set_thread (s : state) (tid : nat) (t : thread) : state :=
  St (running s) (request_queue s) (metrics s) (<[tid := t]> (threads s))
     (next_queue s) (puts s) (dispatched s).

(** [start()]; [now] is the clock read by the new thread before its loop. *)
Definition start (s : state) (now : Q) : state :=
  if running s then s
  else St true (request_queue s) (metrics s)
          (threads s ++ [Thread [] [] now AtLoopTest])
          (next_queue s) (puts s) (dispatched s).

(** [stop()]: the flag; the bounded [join] changes nothing. *)
Definition stop (s : state) : state :=
  St false (request_queue s) (metrics s) (threads s)
     (next_queue s) (puts s) (dispatched s).

(** [process(request)] up to its wait: a fresh result queue, the pair
    enqueued, [total_requests] incremented. *)
Definition process (s : state) (request : Any) : state :=
  let m := metrics s in
  St (running s) (request_queue s ++ [(request, next_queue s)])
     (Metrics (total_requests m + 1) (total_batches m) (avg_batch_size m)
              (timeout_batches m) (full_batches m))
     (threads s) (S (next_queue s)) (puts s) (dispatched s).

(** The values put on result queue [q], oldest first. *)
Definition writes (s : state) (q : nat) : list slot_value :=
  (filter (λ p, p.1 = q) (puts s)).*2.

(** The end of [process]: [result_queue.get(timeout=10.0)] in the state
    reached when the caller's ten seconds are over. *)
Definition process_result (s : state) (q : nat) : result slot_value :=
  match writes s q with
  | v :: _ => Return v
  | [] => Raise (TimeoutError "Request processing timeout")
  end.

(** The test of [while self.running] and, when it holds, the lines up to
    the call of [get]; [now] is the reading of [perf_counter]. *)
Definition loop_test (s : state) (tid : nat) (now : Q) : state :=
  match threads s !! tid with
  | Some (Thread b rq last AtLoopTest) =>
      if running s then
        let elapsed := (now - last)%Q in
        let timeout_remaining := Qmax 0 (timeout_ms - elapsed) in
        set_thread s tid (Thread b rq last (InGet (Some timeout_remaining)))
      else set_thread s tid (Thread b rq last Finished)
  | _ => s
  end.

(** [get] returns the oldest pair of the request queue; [now] is the
    clock read after a full batch was processed. *)
Definition get_item (s : state) (tid : nat) (now : Q) : state :=
  match threads s !! tid, request_queue s with
  | Some (Thread b rq last (InGet _)), (request, result_queue) :: rest =>
      let s := St (running s) rest (metrics s) (threads s)
                  (next_queue s) (puts s) (dispatched s) in
      let b := b ++ [request] in
      let rq := rq ++ [result_queue] in
      if decide (max_batch_size ≤ Z.of_nat (length b)) then
        let s := _process_batch s b rq false in
        set_thread s tid (Thread [] [] now AtLoopTest)
      else set_thread s tid (Thread b rq last AtLoopTest)
  | _, _ => s
  end.

(** [get] raises [Empty]: nothing arrived within the timeout; [now] is
    the clock read at the end of the handler. *)
Definition get_empty (s : state) (tid : nat) (now : Q) : state :=
  match threads s !! tid, request_queue s with
  | Some (Thread b rq last (InGet (Some _))), [] =>
      match b with
      | _ :: _ =>
          let s := _process_batch s b rq true in
          set_thread s tid (Thread [] [] now AtLoopTest)
      | [] => set_thread s tid (Thread b rq now AtLoopTest)
      end
  | _, _ => s
  end.

(** What can happen next: a call of the public interface, or one move of
    dispatch thread [tid]. A label that is not enabled leaves the state
    as it is. *)
Inductive label :=
  | Start (now : Q)
  | Stop
  | Process (request : Any)
  | LoopTest (tid : nat) (now : Q)
  | GetItem (tid : nat) (now : Q)
  | GetEmpty (tid : nat) (now : Q).

Definition step (s : state) (l : label) : state :=
  match l with
  | Start now => start s now
  | Stop => stop s
  | Process request => process s request
  | LoopTest tid now => loop_test s tid now
  | GetItem tid now => get_item s tid now
  | GetEmpty tid now => get_empty s tid now
  end.

Definition run (ls : list label) (s : state) : state := foldl step s ls.

(** The result queues a state still owes an answer: those waiting in the
    request queue and those in the batches of the dispatch threads. *)
Definition pending (s : state) : list nat :=
  (request_queue s).*2 ++ (threads s ≫= result_queues).

End Coalescer.

Arguments slot_value : clear implicits.
Arguments thread : clear implicits.
Arguments dispatch : clear implicits.
Arguments state : clear implicits.
Arguments label : clear implicits.

(** [BatchProcessor(max_batch_size, timeout_ms, process_fn)]: the timeout is
    converted to seconds. *)
Definition new_timeout (timeout_ms_arg : Z) : Q := (inject_Z timeout_ms_arg / 1000)%Q.

End BatchProcessor.

(** ** gateway.py *)
Module Gateway.

Section Router.

(** The JSON payloads, opaque to the router, and the state of the network
    the forwards act on. *)
Context {Payload Response World : Type}.

(** [request_data]: the field the router reads, and the rest. *)
Record request := Request {
  request_id : option string;
  payload : Payload
}.

Record t := Gateway {
  workers : list string;
  hash_ring : ConsistentHash.t;
  request_count : Z
}.

(** One exchange [urlopen(Request(url, ...), timeout=10)] followed by
    [json.loads(response.read())]: the parsed body, or the exception
    raised on the way. *)
Variable urlopen : string → request → World → result Response * World.

(** The order in which [list(self.nodes)] enumerates a set. *)
Variable list_of_set : gset string → list string.

(** [Gateway(workers)], the health probes left out: they only print. *)
Definition new (workers0 : list string) : t :=
  Gateway workers0 (ConsistentHash.new workers0 150) 0.

(** What a call of [route_request] did: its outcome, the nodes it
    forwarded to with what each forward gave, oldest first, and the
    network and gateway afterwards. *)
Record routed := Routed {
  outcome : result Response;
  attempts : list (string * result Response);
  world : World;
  gateway : t
}.

(** The loop [for node in nodes: if node != target_node: try ... except:
    continue], from the nodes still to visit. *)
Fixpoint retry (todo : list string) (target_node : string) (req : request)
    (w : World) (log : list (string * result Response))
    : option Response * list (string * result Response) * World :=
  match todo with
  | [] => (None, log, w)
  | node :: rest =>
      if decide (node ≠ target_node) then
        let '(r, w') := urlopen (node +:+ "/infer") req w in
        match r with
        | Return result => (Some result, log ++ [(node, r)], w')
        | Raise _ => retry rest target_node req w' (log ++ [(node, r)])
        end
      else retry rest target_node req w log
  end.

Definition route_request (g : t) (request_data : request) (w : World) : routed :=
  let count := request_count g + 1 in
  let g := Gateway (workers g) (hash_ring g) count in
  let rid := default ("req_" +:+ pretty count) (request_id request_data) in
  match ConsistentHash.get_node (hash_ring g) rid with
  | Raise e => Routed (Raise e) [] w g
  | Return None | Return (Some EmptyString) =>
      Routed (Raise (Exception "No workers available")) [] w g
  | Return (Some target_node) =>
      let '(r, w1) := urlopen (target_node +:+ "/infer") request_data w in
      let log := [(target_node, r)] in
      match r with
      | Return result => Routed (Return result) log w1 g
      | Raise e =>
          if is_URLError e then
            let nodes := ConsistentHash.get_nodes list_of_set (hash_ring g) in
            match retry nodes target_node request_data w1 log with
            | (Some result, log', w2) => Routed (Return result) log' w2 g
            | (None, log', w2) =>
                Routed (Raise (Exception ("All workers failed: " +:+ str_of_exn e)))
                  log' w2 g
            end
          else Routed (Raise e) log w1 g
      end
  end.

(** [get_stats()] *)
Definition get_stats (g : t) : Z * nat * list string :=
  (request_count g, length (workers g), workers g).

End Router.

Arguments request : clear implicits.
Arguments routed : clear implicits.

End Gateway.

(** ** Vocabulary of the statements *)

(** [key] is the ring position that serves hash [h]: the smallest position
    strictly above [h], or the smallest position of all when none is above. *)
Definition serves (r : gmap Z string) (h key : Z) : Prop :=
  is_Some (r !! key) ∧
  ((h < key ∧ ∀ y, is_Some (r !! y) → h < y → key ≤ y) ∨
   ((∀ y, is_Some (r !! y) → y ≤ h) ∧ ∀ y, is_Some (r !! y) → key ≤ y)).

(** A list of integers in strictly increasing order. *)
Definition strictly_increasing (l : list Z) : Prop := StronglySorted Z.lt l.

(** The ring before any endpoint is added. *)
Definition empty_ring (V : Z) : ConsistentHash.t := ConsistentHash.Ring V ∅ [] ∅.

(** The sorted index is the sorted list of the dictionary's keys. *)
Definition consistent (c : ConsistentHash.t) : Prop :=
  ConsistentHash.sorted_keys c = ConsistentHash.sorted_of (ConsistentHash.ring c).

(** Every ring position belongs to a member and is one of its virtual nodes. *)
Definition owned (c : ConsistentHash.t) : Prop :=
  ∀ h n, ConsistentHash.ring c !! h = Some n →
    n ∈ ConsistentHash.nodes c
    ∧ h ∈ ConsistentHash.vhashes (ConsistentHash.virtual_nodes c) n.

(** The ring holds exactly the virtual nodes of its members, each owned by
    its endpoint. *)
Definition exact (c : ConsistentHash.t) : Prop :=
  ∀ h n, ConsistentHash.ring c !! h = Some n ↔
    n ∈ ConsistentHash.nodes c
    ∧ h ∈ ConsistentHash.vhashes (ConsistentHash.virtual_nodes c) n.

(** No two virtual nodes of the endpoints [U] have the same hash. *)
Definition collision_free (V : Z) (U : list string) : Prop :=
  NoDup (ConsistentHash.ring_hashes V U).

(** No two different endpoints of [U] have a virtual node with the same
    hash. *)
Definition no_shared_position (V : Z) (U : list string) : Prop :=
  ∀ n1 n2 h, n1 ∈ U → n2 ∈ U →
    h ∈ ConsistentHash.vhashes V n1 → h ∈ ConsistentHash.vhashes V n2 → n1 = n2.

(** The facts kept by every membership operation on a ring whose endpoints
    come from a universe [U]: the ring is exact, its members are in [U], and
    it has as many positions as its members have virtual nodes. *)
Definition tidy (U : list string) (c : ConsistentHash.t) : Prop :=
  exact c ∧ (∀ n, n ∈ ConsistentHash.nodes c → n ∈ U)
  ∧ size (ConsistentHash.ring c)
    = (Z.to_nat (ConsistentHash.virtual_nodes c) * size (ConsistentHash.nodes c))%nat.

(** The forwards listed in [log], made one after the other from the network
    state [w], gave the listed results and left the network in [w']. *)
Fixpoint forwards {Payload Response World : Type}
    (urlopen : string → Gateway.request Payload → World → result Response * World)
    (req : Gateway.request Payload) (w : World)
    (log : list (string * result Response)) (w' : World) : Prop :=
  match log with
  | [] => w' = w
  | (node, r) :: rest =>
      ∃ w1, urlopen (node +:+ "/infer") req w = (r, w1)
            ∧ forwards urlopen req w1 rest w'
  end.

(** A forward that raised. *)
Definition failed {Response : Type} (a : string * result Response) : Prop :=
  ∃ e, a.2 = Raise e.


(** A network of three workers in which B refuses connections and A answers
    with a body that is not JSON. *)
Definition demo_urlopen (url : string) (req : Gateway.request unit) (w : unit)
    : result string * unit :=
  if decide (url = "B/infer") then (Raise (URLError "[Errno 111] Connection refused"), w)
  else if decide (url = "A/infer") then (Raise (OtherError "Expecting value"), w)
  else (Return url, w).

(** *** The coalescer *)
Section CoalescerVocabulary.
Import BatchProcessor.
Context {Any : Type}.
Variable max_batch_size : Z.
Variable process_fn : option (list Any → result (list Any)).

(** What [_process_batch] computes for a batch. *)
Definition compute (b : list Any) : result (list Any) :=
  match process_fn with
  | Some f => f b
  | None => Return b
  end.

(** The values put on queue [q] among the puts [l]. *)
Definition puts_for (q : nat) (l : list (nat * slot_value Any)) : list (slot_value Any) :=
  (filter (λ p, p.1 = q) l).*2.

(** The requests handed to [process], oldest first: the [q]-th of them
    waits on result queue [q]. *)
Definition submitted (ls : list (label Any)) : list Any :=
  omap (λ l, match l with Process request => Some request | _ => None end) ls.

(** Requests and result queues go in pairs: the [i]-th queue is the one
    created for the [i]-th request. *)
Definition paired (sub : list Any) (b : list Any) (rq : list nat) : Prop :=
  Forall2 (λ r q, sub !! q = Some r) b rq.

(** A processed batch: its queues are those of its requests, each was
    written as the outcome demands, and none is awaited any more. *)
Definition delivered (sub : list Any) (s : state Any) (d : dispatch Any) : Prop :=
  d_batch d ≠ []
  ∧ d_outcome d = compute (d_batch d)
  ∧ paired sub (d_batch d) (d_queues d)
  ∧ NoDup (d_queues d)
  ∧ (∀ q, q ∈ d_queues d → q ∉ pending s)
  ∧ match d_outcome d with
    | Return R =>
        length R = length (d_batch d) →
        Forall2 (λ v q, writes s q = [Value v]) R (d_queues d)
    | Raise e =>
        Forall (λ q, writes s q = [ErrorDict (str_of_exn e)]) (d_queues d)
    end.

(** The bookkeeping of result queues in a state reached after the
    submissions [sub]. *)
Definition slots_inv (sub : list Any) (s : state Any) : Prop :=
  next_queue s = length sub
  ∧ Forall (λ p, sub !! p.2 = Some p.1) (request_queue s)
  ∧ Forall (λ t, paired sub (batch t) (result_queues t)) (threads s)
  ∧ NoDup (pending s)
  ∧ (∀ q, q ∈ pending s → writes s q = [])
  ∧ (∀ p, p ∈ puts s → (p.1 < next_queue s)%nat)
  ∧ Forall (delivered sub s) (dispatched s).

(** No batch at rest has reached the bound, and no processed batch was
    empty or above it. *)
Definition size_inv (s : state Any) : Prop :=
  Forall (λ t, Z.of_nat (length (batch t)) < max_batch_size) (threads s)
  ∧ Forall (λ d, 1 ≤ Z.of_nat (length (d_batch d)) ≤ max_batch_size
                 ∧ (d_timeout d = false →
                    Z.of_nat (length (d_batch d)) = max_batch_size))
      (dispatched s).

(** The processed batches whose computation returned, split by trigger. *)
Definition succeeded (d : dispatch Any) : bool :=
  match d_outcome d with Return _ => true | Raise _ => false end.

Definition count_batches (P : dispatch Any → bool) (s : state Any) : Z :=
  Z.of_nat (length (filter (λ d, P d = true) (dispatched s))).

(** The counters count the batches that were computed. *)
Definition metrics_inv (s : state Any) : Prop :=
  total_batches (metrics s) = count_batches succeeded s
  ∧ timeout_batches (metrics s)
    = count_batches (λ d, succeeded d && d_timeout d) s
  ∧ full_batches (metrics s)
    = count_batches (λ d, succeeded d && negb (d_timeout d)) s.

(** The processor is stopped and its dispatch threads are past their loop. *)
Definition halted (s : state Any) : Prop :=
  running s = false ∧ Forall (λ t, pc t = Finished) (threads s).

(** Every wait of a dispatch thread was given a timeout, computed at some
    reading [now] of the clock from the thread's [last_batch_time]. *)
Definition deadline_inv (timeout_ms : Q) (s : state Any) : Prop :=
  Forall (λ t, ∀ timeout, pc t = InGet timeout →
               ∃ now, timeout = Some (Qmax 0 (timeout_ms - (now - last_batch_time t))))
    (threads s).

Definition is_start (l : label Any) : bool :=
  match l with Start _ => true | _ => false end.

(** A move of a dispatch thread, as opposed to a call of the interface. *)
Definition is_thread_move (l : label Any) : bool :=
  match l with
  | LoopTest _ _ | GetItem _ _ | GetEmpty _ _ => true
  | _ => false
  end.

(** In state [s] the move [l] of the loop hands the batch [b], with the
    result queues [rq], to [_process_batch]: the request taken by [get]
    fills the batch (line 69, with [timeout=False]), or [get] raises
    [Empty] while the batch is not empty (line 76, with [timeout=True]). *)
Definition handed (s : state Any) (l : label Any)
    (b : list Any) (rq : list nat) (timeout : bool) : Prop :=
  match l with
  | GetItem tid _ =>
      ∃ t request result_queue rest wait,
        threads s !! tid = Some t ∧ pc t = InGet wait
        ∧ request_queue s = (request, result_queue) :: rest
        ∧ b = batch t ++ [request] ∧ rq = result_queues t ++ [result_queue]
        ∧ max_batch_size ≤ Z.of_nat (length b) ∧ timeout = false
  | GetEmpty tid _ =>
      ∃ t wait,
        threads s !! tid = Some t ∧ pc t = InGet (Some wait)
        ∧ request_queue s = []
        ∧ b = batch t ∧ rq = result_queues t ∧ b ≠ [] ∧ timeout = true
  | _ => False
  end.

(** The two halves of an iteration of the loop, for the proofs: taking the
    oldest pair of the request queue into the batch of thread [tid], and
    processing the batch of thread [tid] and starting a new one. *)
Definition take_item (s : state Any) (tid : nat) (t : thread Any)
    (request : Any) (result_queue : nat) (rest : list (Any * nat)) : state Any :=
  set_thread (St (running s) rest (metrics s) (threads s)
                 (next_queue s) (puts s) (dispatched s))
    tid (Thread (batch t ++ [request]) (result_queues t ++ [result_queue])
           (last_batch_time t) AtLoopTest).

Definition flush (s : state Any) (tid : nat) (t : thread Any)
    (timeout : bool) (now : Q) : state Any :=
  set_thread (_process_batch process_fn s (batch t) (result_queues t) timeout)
    tid (Thread [] [] now AtLoopTest).

End CoalescerVocabulary.

(** A computation that raises for every batch. *)
Definition demo_failing_fn (b : list string) : result (list string) :=
  Raise (OtherError "model not loaded").

(** The computation of the module's self-test: [f"result_{req}"] for every
    request of the batch. *)
Definition demo_process_fn (b : list string) : result (list string) :=
  Return ((λ req, "result_" +:+ req) <$> b).

(** Exceptions and outcomes can be compared. *)
#[global] Instance exn_eq_dec : EqDecision exn.
Proof. solve_decision. Defined.

#[global] Instance result_eq_dec {A : Type} `{EqDecision A} : EqDecision (result A).
Proof. solve_decision. Defined.

(** [a / b] on numbers: [ZeroDivisionError] when [b] is zero. *)
Definition truediv (a b : Q) : result Q :=
  if Qeq_bool b 0 then Raise (OtherError "division by zero") else Return (a / b)%Q.

(** [repr(s)] of a string: single quotes, or double quotes when [s] has a
    single quote and no double quote; the quote character and the backslash
    are escaped, so are tab, newline, carriage return and the other control
    characters. Bytes above 127 stand for the UTF-8 encoding of characters
    that are printed as they are. *)
Definition hex_digit (n : nat) : ascii :=
  nth n (list_ascii_of_string "0123456789abcdef") "0"%char.

Definition repr_char (quote : ascii) (c : ascii) : string :=
  let n := nat_of_ascii c in
  if bool_decide (c = quote) || bool_decide (c = "\"%char) then String "\" (String c "")
  else if bool_decide (n = 9%nat) then "\t"
  else if bool_decide (n = 10%nat) then "\n"
  else if bool_decide (n = 13%nat) then "\r"
  else if bool_decide (n < 32)%nat || bool_decide (n = 127%nat) then
    String "\" (String "x" (String (hex_digit (n / 16)) (String (hex_digit (n mod 16)) "")))
  else String c "".

Definition repr (s : string) : string :=
  let cs := list_ascii_of_string s in
  let squote := "'"%char in
  let dquote := ascii_of_nat 34 in
  let quote :=
    if bool_decide (squote ∈ cs) && negb (bool_decide (dquote ∈ cs)) then dquote else squote in
  String quote (foldr (λ c acc, repr_char quote c +:+ acc) (String quote "") cs).

(** ** consistent_hash.py: the statistics *)
Module RingStats.

Import ConsistentHash.

(** One turn of the loop of [get_distribution]: [if node:] skips [None]
    and the empty string; [distribution[node] += 1] raises [KeyError] for
    a node that is not a key. *)
Definition count_key (c : t) (acc : result (gmap string Z)) (key : string)
    : result (gmap string Z) :=
  match acc with
  | Raise e => Raise e
  | Return distribution =>
      match get_node c key with
      | Raise e => Raise e
      | Return None | Return (Some EmptyString) => Return distribution
      | Return (Some node) =>
          match distribution !! node with
          | Some n => Return (<[node := n + 1]> distribution)
          | None => Raise (KeyError (repr node))
          end
      end
  end.

Definition get_distribution (c : t) (keys : list string) : result (gmap string Z) :=
  foldl (count_key c) (Return (gset_to_gmap 0 (nodes c))) keys.

(** [[f"key_{i}" for i in range(num_keys)]] *)
Definition probe_keys (num_keys : Z) : list string :=
  (λ i : nat, "key_" +:+ pretty i) <$> seq 0 (Z.to_nat num_keys).

(** [sum(counts)] *)
Definition sum_counts (counts : list Z) : Z := foldr Z.add 0 counts.

(** [get_load_balance_variance(num_keys)]; [sqrt] is [x ** 0.5]. *)
Definition get_load_balance_variance (sqrt : Q → Q) (c : t) (num_keys : Z) : result Q :=
  if decide (nodes c = ∅) then Return 0%Q
  else
    match get_distribution c (probe_keys num_keys) with
    | Raise e => Raise e
    | Return distribution =>
        let counts := (map_to_list distribution).*2 in
        match counts with
        | [] => Return 0%Q
        | _ :: _ =>
            let len := inject_Z (Z.of_nat (length counts)) in
            match truediv (inject_Z (sum_counts counts)) len with
            | Raise e => Raise e
            | Return mean =>
                let squares := (λ x, (inject_Z x - mean) ^ 2)%Q <$> counts in
                match truediv (foldr Qplus 0%Q squares) len with
                | Raise e => Raise e
                | Return variance =>
                    let std_dev := sqrt variance in
                    if Qlt_le_dec 0 mean then
                      match truediv std_dev mean with
                      | Raise e => Raise e
                      | Return ratio => Return (ratio * 100)%Q
                      end
                    else Return 0%Q
                end
            end
        end
    end.

End RingStats.

(** The keys of [keys] that [get_node] sends to [n]. *)
Definition routed_to (c : ConsistentHash.t) (n : string) (keys : list string)
    : list string :=
  filter (λ key, ConsistentHash.get_node c key = Return (Some n)) keys.

(** The lookups that [get_distribution] counts: a result that the test
    [if node:] lets through. *)
Definition is_counted (r : result (option string)) : bool :=
  match r with
  | Return (Some (String _ _)) => true
  | _ => false
  end.

Definition counted (c : ConsistentHash.t) (keys : list string) : list string :=
  filter (λ key, is_counted (ConsistentHash.get_node c key) = true) keys.

(** *** More vocabulary for the coalescer *)
Section CoalescerMoreVocabulary.
Import BatchProcessor.
Context {Any : Type}.
Variable max_batch_size : Z.
Variable timeout_ms : Q.
Variable process_fn : option (list Any → result (list Any)).

(** The puts made for one processed batch: the loop over
    [zip(results, result_queues)], or the loop of the handler. *)
Definition puts_of (d : dispatch Any) : list (nat * slot_value Any) :=
  match d_outcome d with
  | Return results => zip_with (λ r q, (q, Value r)) results (d_queues d)
  | Raise e => (λ q, (q, ErrorDict (str_of_exn e))) <$> d_queues d
  end.

Definition is_stop (l : label Any) : bool :=
  match l with Stop => true | _ => false end.

(** Callers come one at a time: every [process] of the run [ls] from [s]
    is called when no earlier request awaits its answer. *)
Fixpoint sequential_from (s : state Any) (ls : list (label Any)) : bool :=
  match ls with
  | [] => true
  | l :: ls' =>
      match l with
      | Process _ => bool_decide (pending s = [])
      | _ => true
      end
      && sequential_from (step max_batch_size timeout_ms process_fn s l) ls'
  end.

(** Every result queue created so far is either awaited or among the
    queues of exactly one processed batch; the puts are those of the
    processed batches; [total_requests] counts the queues. *)
Definition accounted (s : state Any) : Prop :=
  (dispatched s ≫= d_queues) ++ pending s ≡ₚ seq 0 (next_queue s)
  ∧ puts s = dispatched s ≫= puts_of
  ∧ total_requests (metrics s) = Z.of_nat (next_queue s).

(** At most one dispatch thread exists, and none while the processor is
    not running; the result queues, read through the processed batches,
    the batch being filled and the request queue, are in the order of their
    creation. *)
Definition arrival_order (s : state Any) : Prop :=
  (running s = false → threads s = [])
  ∧ (length (threads s) ≤ 1)%nat
  ∧ (dispatched s ≫= d_queues) ++ (threads s ≫= result_queues) ++ (request_queue s).*2
    = seq 0 (next_queue s).

(** At most one request awaits its answer, and every processed batch held
    one request. *)
Definition one_at_a_time (s : state Any) : Prop :=
  (length (pending s) ≤ 1)%nat
  ∧ Forall (λ t, length (batch t) = length (result_queues t)) (threads s)
  ∧ Forall (λ d, length (d_batch d) = 1%nat
                 ∧ (2 ≤ max_batch_size → d_timeout d = true)) (dispatched s).



End CoalescerMoreVocabulary.

(** A computation that loses the result of the last request of its batch. *)
Definition demo_short_fn (b : list string) : result (list string) :=
  Return (take (length b - 1) b).

(** * Properties *)

(** ** The model of MD5 against [hashlib] on sample inputs *)

Example md5_empty : MD5.md5_int "" = 281949768489412648962353822266799178366.
Proof. vm_compute. reflexivity. Qed.

Example md5_A0 : MD5.md5_int "A#0" = 330307766145524440537865738102367803242.
Proof. vm_compute. reflexivity. Qed.

Example md5_req_0 : MD5.md5_int "req_0" = 260473032332988015310932065019165372851.
Proof. vm_compute. reflexivity. Qed.

Example md5_vnode : MD5.md5_int "localhost:8001#149" = 118803808321457854448877903440073798730.
Proof. vm_compute. reflexivity. Qed.

Example md5_two_blocks :
  MD5.md5_int (String.concat "" (replicate 56 "x")) = 136300121664425810192795845712325488971.
Proof. vm_compute. reflexivity. Qed.

Example md5_three_blocks :
  MD5.md5_int (String.concat "" (replicate 130 "y")) = 322457768863257085332264110765526918226.
Proof. vm_compute. reflexivity. Qed.

(** ** The digest is a 128-bit number *)
Section MD5Facts.
Import MD5.

Lemma int_of_be_bound (bs : list Z) (acc : Z) :
  Forall (λ b, 0 ≤ b < 256) bs → 0 ≤ acc →
  0 ≤ foldl (λ a b, 256 * a + b) acc bs
    < (acc + 1) * 256 ^ Z.of_nat (length bs).
Proof.
  intros Hbs. revert acc.
  induction Hbs as [|b bs Hb _ IH]; intros acc Hacc; simpl foldl.
  - simpl length. change (256 ^ Z.of_nat 0) with 1. lia.
  - specialize (IH (256 * acc + b) ltac:(lia)).
    rewrite length_cons, Nat2Z.inj_succ, Z.pow_succ_r by lia.
    split; [lia|]. eapply Z.lt_le_trans; [apply IH|].
    assert (0 < 256 ^ Z.of_nat (length bs)) by (apply Z.pow_pos_nonneg; lia).
    nia.
Qed.

Lemma le_of_word_bytes (n : nat) (x : Z) :
  Forall (λ b, 0 ≤ b < 256) (le_of_word n x).
Proof.
  unfold le_of_word. apply Forall_fmap, Forall_forall. intros k _. simpl.
  change 255 with (Z.ones 8). rewrite Z.land_ones by lia.
  apply Z.mod_pos_bound. lia.
Qed.

Lemma length_le_of_word (n : nat) (x : Z) : length (le_of_word n x) = n.
Proof. unfold le_of_word. by rewrite length_fmap, length_seq. Qed.

Lemma md5_int_range (s : string) : 0 ≤ md5_int s < 2 ^ 128.
Proof.
  unfold md5_int, digest, int_of_be.
  set (st := blocks _ _ _). clearbody st.
  pose proof (int_of_be_bound
    (le_of_word 4 (sa st) ++ le_of_word 4 (sb st)
       ++ le_of_word 4 (sc st) ++ le_of_word 4 (sd st)) 0) as H.
  rewrite !length_app, !length_le_of_word in H.
  apply H; [|lia].
  repeat apply Forall_app_2; apply le_of_word_bytes.
Qed.
End MD5Facts.

(** ** The hash ring *)
Section RingFacts.
Import ConsistentHash.

Lemma StronglySorted_lookup {A} (R : relation A) (l : list A) (i j : nat) (x y : A) :
  StronglySorted R l → (i < j)%nat → l !! i = Some x → l !! j = Some y → R x y.
Proof.
  intros Hl. revert i j. induction Hl as [|z l Hl IH Hz]; intros i j Hij Hi Hj.
  - by rewrite lookup_nil in Hi.
  - destruct j as [|j]; [lia|]. simpl in Hj. destruct i as [|i]; simpl in Hi.
    + injection Hi as ->. rewrite Forall_forall in Hz.
      apply Hz. by eapply list_elem_of_lookup_2.
    + eapply IH; [|done..]. lia.
Qed.

(** *** [sorted(ring.keys())] *)

Lemma elem_of_sorted_of (r : gmap Z string) (x : Z) :
  x ∈ sorted_of r ↔ is_Some (r !! x).
Proof.
  unfold sorted_of. rewrite merge_sort_Permutation, list_elem_of_fmap. split.
  - intros [[k v] [-> Hkv]]. apply elem_of_map_to_list in Hkv. by exists v.
  - intros [v Hv]. exists (x, v). split; [done|]. by apply elem_of_map_to_list.
Qed.

Lemma NoDup_sorted_of (r : gmap Z string) : NoDup (sorted_of r).
Proof.
  unfold sorted_of. rewrite merge_sort_Permutation. apply NoDup_fst_map_to_list.
Qed.

Lemma length_sorted_of (r : gmap Z string) : length (sorted_of r) = size r.
Proof.
  unfold sorted_of. by rewrite merge_sort_Permutation, length_fmap, length_map_to_list.
Qed.

Lemma sorted_of_le (r : gmap Z string) : StronglySorted Z.le (sorted_of r).
Proof. apply StronglySorted_merge_sort; apply _. Qed.

Lemma sorted_of_strict (r : gmap Z string) : strictly_increasing (sorted_of r).
Proof.
  unfold strictly_increasing.
  pose proof (sorted_of_le r) as Hs. pose proof (NoDup_sorted_of r) as Hn.
  induction Hs as [|x l Hs IH Hx]; [constructor|].
  apply NoDup_cons in Hn as [Hxl Hn]. constructor; [by apply IH|].
  rewrite Forall_forall in Hx |- *. intros y Hy.
  specialize (Hx y Hy). assert (x ≠ y) by (by intros ->). lia.
Qed.

Lemma sorted_of_empty : sorted_of ∅ = [].
Proof.
  apply Permutation_nil_r. unfold sorted_of.
  by rewrite merge_sort_Permutation, map_to_list_empty.
Qed.

Lemma sorted_of_nil_iff (r : gmap Z string) : sorted_of r = [] ↔ r = ∅.
Proof.
  rewrite <-map_size_empty_iff, <-length_sorted_of. by destruct (sorted_of r).
Qed.

(** *** [bisect_right] *)

Lemma bisect_loop_spec (a : list Z) (x : Z) :
  StronglySorted Z.le a →
  ∀ (fuel lo hi : nat),
    (hi - lo ≤ fuel)%nat → (lo ≤ hi ≤ length a)%nat →
    (∀ j y, (j < lo)%nat → a !! j = Some y → y ≤ x) →
    (∀ j y, (hi ≤ j)%nat → a !! j = Some y → x < y) →
    let r := bisect_loop fuel a x lo hi in
    (lo ≤ r ≤ hi)%nat ∧
    (∀ j y, (j < r)%nat → a !! j = Some y → y ≤ x) ∧
    (∀ j y, (r ≤ j)%nat → a !! j = Some y → x < y).
Proof.
  intros Ha. induction fuel as [|fuel IH]; intros lo hi Hfuel Hb Hlo Hhi;
    cbn [bisect_loop].
  - assert (lo = hi) as -> by lia. auto with lia.
  - destruct (decide (lo < hi)%nat) as [Hlt|Hge];
      [|assert (lo = hi) as -> by lia; auto with lia].
    set (mid := ((lo + hi) `div` 2)%nat).
    assert (lo ≤ mid < hi)%nat as Hmid.
    { subst mid. pose proof (Nat.div_mod_eq (lo + hi) 2).
      pose proof (Nat.mod_upper_bound (lo + hi) 2). lia. }
    destruct (lookup_lt_is_Some_2 a mid) as [ym Hym]; [lia|].
    rewrite (list_lookup_total_correct _ _ _ Hym).
    destruct (decide (x < ym)) as [Hx|Hx].
    + destruct (IH lo mid) as (?&?&?); [lia|lia|done| |split; [lia|done]].
      intros j y Hj Hy. destruct (decide (j = mid)) as [->|Hne].
      * congruence.
      * assert (ym ≤ y); [|lia].
        eapply (StronglySorted_lookup Z.le a mid j); [done|lia|done..].
    + destruct (IH (mid + 1)%nat hi) as (?&?&?); [lia|lia| |done|split; [lia|done]].
      intros j y Hj Hy. destruct (decide (j = mid)) as [->|Hne].
      * assert (y = ym) by congruence. lia.
      * assert (y ≤ ym); [|lia].
        eapply (StronglySorted_lookup Z.le a j mid); [done|lia|done..].
Qed.

Lemma bisect_right_spec (a : list Z) (x : Z) :
  StronglySorted Z.le a →
  (bisect_right a x ≤ length a)%nat ∧
  (∀ j y, (j < bisect_right a x)%nat → a !! j = Some y → y ≤ x) ∧
  (∀ j y, (bisect_right a x ≤ j)%nat → a !! j = Some y → x < y).
Proof.
  intros Ha. unfold bisect_right.
  destruct (bisect_loop_spec a x Ha (length a) 0%nat (length a)) as (?&?&?);
    [lia|lia|lia| |auto with lia].
  intros j y Hj Hy. apply lookup_lt_Some in Hy. lia.
Qed.

(** *** The ring and its index agree in every reachable state *)

Lemma new_run (E : list string) (V : Z) : new E V = run (Add <$> E) (empty_ring V).
Proof.
  unfold new, run, empty_ring. generalize (Ring V ∅ [] ∅).
  induction E as [|e E IH]; intros c; simpl; [done|apply IH].
Qed.

Lemma consistent_apply_op (c : t) (o : op) : consistent c → consistent (apply_op c o).
Proof.
  intros Hc. destruct o as [n|n]; simpl; unfold add_node, remove_node;
    case_decide; done.
Qed.

Lemma consistent_run (ops : list op) (c : t) : consistent c → consistent (run ops c).
Proof.
  revert c. induction ops as [|o ops IH]; intros c Hc; simpl; [done|].
  apply IH, consistent_apply_op, Hc.
Qed.

Lemma consistent_empty (V : Z) : consistent (empty_ring V).
Proof. unfold consistent. simpl. by rewrite sorted_of_empty. Qed.

Lemma virtual_nodes_apply_op (c : t) (o : op) :
  virtual_nodes (apply_op c o) = virtual_nodes c.
Proof. destruct o; simpl; unfold add_node, remove_node; by case_decide. Qed.

Lemma virtual_nodes_run (ops : list op) (c : t) :
  virtual_nodes (run ops c) = virtual_nodes c.
Proof.
  revert c. induction ops as [|o ops IH]; intros c; [done|].
  change (run (o :: ops) c) with (run ops (apply_op c o)).
  by rewrite IH, virtual_nodes_apply_op.
Qed.

(** *** What the two loops over the virtual nodes do to the dictionary *)

Lemma lookup_foldl_insert (r : gmap Z string) (hs : list Z) (n : string) (h : Z) :
  foldl (λ r h, <[h := n]> r) r hs !! h = if decide (h ∈ hs) then Some n else r !! h.
Proof.
  revert r. induction hs as [|x hs IH]; intros r; cbn [foldl].
  - case_decide as Hin; [by apply not_elem_of_nil in Hin|done].
  - rewrite IH. destruct (decide (h ∈ hs)) as [Hin|Hnin].
    + rewrite decide_True; [done|by right].
    + destruct (decide (x = h)) as [->|Hne].
      * rewrite lookup_insert_eq. rewrite decide_True; [done|by left].
      * rewrite lookup_insert_ne by done. rewrite decide_False; [done|].
        intros [?|?]%elem_of_cons; congruence.
Qed.

Lemma lookup_foldl_delete (r : gmap Z string) (hs : list Z) (h : Z) :
  foldl (λ r h, delete h r) r hs !! h = if decide (h ∈ hs) then None else r !! h.
Proof.
  revert r. induction hs as [|x hs IH]; intros r; cbn [foldl].
  - case_decide as Hin; [by apply not_elem_of_nil in Hin|done].
  - rewrite IH. destruct (decide (h ∈ hs)) as [Hin|Hnin].
    + rewrite decide_True; [done|by right].
    + destruct (decide (x = h)) as [->|Hne].
      * rewrite lookup_delete_eq. rewrite decide_True; [done|by left].
      * rewrite lookup_delete_ne by done. rewrite decide_False; [done|].
        intros [?|?]%elem_of_cons; congruence.
Qed.

Lemma owned_apply_op (c : t) (o : op) : owned c → owned (apply_op c o).
Proof.
  intros Hc. destruct o as [n|n]; simpl; unfold add_node, remove_node;
    case_decide as Hn; try done; intros h m; simpl; intros Hh.
  - rewrite lookup_foldl_insert in Hh. case_decide as Hin.
    + injection Hh as <-. split; [|done].
      apply elem_of_union_l. by apply elem_of_singleton.
    + destruct (Hc h m Hh). split; [|done]. by apply elem_of_union_r.
  - rewrite lookup_foldl_delete in Hh. case_decide as Hin; [done|].
    destruct (Hc h m Hh) as [Hm Hhm]. split; [|done].
    apply elem_of_difference. split; [done|].
    rewrite elem_of_singleton. intros ->. done.
Qed.

Lemma owned_run (ops : list op) (c : t) : owned c → owned (run ops c).
Proof.
  revert c. induction ops as [|o ops IH]; intros c Hc; simpl; [done|].
  apply IH, owned_apply_op, Hc.
Qed.

Lemma owned_empty (V : Z) : owned (empty_ring V).
Proof. intros h n. simpl. by rewrite lookup_empty. Qed.

Lemma ring_empty_of_no_nodes (c : t) : owned c → nodes c = ∅ → ring c = ∅.
Proof.
  intros Hc Hn. apply map_eq. intros h. rewrite lookup_empty.
  destruct (ring c !! h) as [n|] eqn:Hh; [|done].
  destruct (Hc h n Hh) as [Hin _]. rewrite Hn in Hin. set_solver.
Qed.

(** *** [get_node] *)

Lemma serves_unique (r : gmap Z string) (h k1 k2 : Z) :
  serves r h k1 → serves r h k2 → k1 = k2.
Proof.
  intros [H1 [[Ha Hb]|[Ha Hb]]] [H2 [[Hc Hd]|[Hc Hd]]].
  - specialize (Hb k2 H2 Hc). specialize (Hd k1 H1 Ha). lia.
  - specialize (Hc k1 H1). lia.
  - specialize (Ha k2 H2). lia.
  - specialize (Hb k2 H2). specialize (Hd k1 H1). lia.
Qed.

Lemma get_node_empty (c : t) (key : string) :
  ring c = ∅ → get_node c key = Return None.
Proof. intros Hr. unfold get_node. by rewrite decide_True. Qed.

Lemma get_node_spec (c : t) (key : string) :
  consistent c → ring c ≠ ∅ →
  ∃ pos e, get_node c key = Return (Some e)
           ∧ ring c !! pos = Some e ∧ serves (ring c) (_hash key) pos.
Proof.
  intros Hc Hne. unfold get_node. rewrite decide_False by done.
  generalize (_hash key). intros h. rewrite Hc.
  pose proof (sorted_of_le (ring c)) as Hs.
  destruct (bisect_right_spec (sorted_of (ring c)) h Hs) as (Hle & Hlow & Hhigh).
  set (a := sorted_of (ring c)) in *. set (i := bisect_right a h) in *.
  assert (0 < length a)%nat as Hlen.
  { destruct a eqn:Ha; [|simpl; lia].
    by apply sorted_of_nil_iff in Ha. }
  assert (∀ y, is_Some (ring c !! y) → ∃ j, a !! j = Some y) as Hidx.
  { intros y Hy. apply elem_of_sorted_of in Hy.
    by apply list_elem_of_lookup_1 in Hy. }
  case_decide as Hi.
  - destruct (lookup_lt_is_Some_2 a 0) as [pos Hpos]; [done|].
    rewrite Hpos.
    assert (is_Some (ring c !! pos)) as [e He].
    { apply elem_of_sorted_of. by eapply list_elem_of_lookup_2. }
    rewrite He. exists pos, e. split_and!; [done..|].
    split; [by exists e|]. right. split.
    + intros y Hy. destruct (Hidx y Hy) as [j Hj].
      apply (Hlow j); [|done]. apply lookup_lt_Some in Hj. lia.
    + intros y Hy. destruct (Hidx y Hy) as [j Hj].
      destruct j as [|j]; [assert (y = pos) by congruence; lia|].
      eapply (StronglySorted_lookup Z.le a 0 (S j)); [done|lia|done..].
  - destruct (lookup_lt_is_Some_2 a i) as [pos Hpos]; [lia|].
    rewrite Hpos.
    assert (is_Some (ring c !! pos)) as [e He].
    { apply elem_of_sorted_of. by eapply list_elem_of_lookup_2. }
    rewrite He. exists pos, e. split_and!; [done..|].
    split; [by exists e|]. left. split; [by apply (Hhigh i)|].
    intros y Hy Hhy. destruct (Hidx y Hy) as [j Hj].
    destruct (decide (j < i)%nat) as [Hji|Hji].
    { specialize (Hlow j y Hji Hj). lia. }
    destruct (decide (j = i)) as [->|Hneq].
    { assert (y = pos) by congruence. lia. }
    eapply (StronglySorted_lookup Z.le a i j); [done|lia|done..].
Qed.

Lemma reachable_consistent (V : Z) (ops : list op) : consistent (run ops (empty_ring V)).
Proof. apply consistent_run, consistent_empty. Qed.

Lemma reachable_owned (V : Z) (ops : list op) : owned (run ops (empty_ring V)).
Proof. apply owned_run, owned_empty. Qed.

(** After [add_node c e] with [e] not yet a member, a position of the ring
    either is one of the new endpoint's and maps to it, or is an old
    position with its old owner. *)
Lemma add_node_lookup (c : t) (e : string) (h : Z) :
  e ∉ nodes c →
  ring (add_node c e) !! h
  = if decide (h ∈ vhashes (virtual_nodes c) e) then Some e else ring c !! h.
Proof.
  intros He. unfold add_node. rewrite decide_False by done. simpl.
  apply lookup_foldl_insert.
Qed.

Lemma add_node_serves (c : t) (e : string) (h pos : Z) (n : string) :
  e ∉ nodes c →
  serves (ring (add_node c e)) h pos →
  ring (add_node c e) !! pos = Some n → n ≠ e →
  serves (ring c) h pos ∧ ring c !! pos = Some n.
Proof.
  intros He [_ Hs] Hpos Hne.
  assert (∀ y, is_Some (ring c !! y) → is_Some (ring (add_node c e) !! y)) as Hmono.
  { intros y Hy. rewrite add_node_lookup by done. by case_decide. }
  rewrite add_node_lookup in Hpos by done.
  case_decide; [congruence|].
  split; [|done]. split; [by exists n|].
  destruct Hs as [[Ha Hb]|[Ha Hb]]; [left|right]; naive_solver.
Qed.

(** C4. Adding an endpoint [e] to a ring reached by any sequence of
    membership operations relocates keys only onto [e]: when the lookup of
    a key changes, the new result is [e], and [e] was not a member
    before; hence no key moves between two endpoints that were members
    before and after. *)
Theorem add_node_relocates_only_to_new (V : Z) (ops : list op) (e key : string) :
  let c := run ops (empty_ring V) in
  get_node (add_node c e) key ≠ get_node c key →
  get_node (add_node c e) key = Return (Some e) ∧ e ∉ nodes c.
Proof.
  intros c Hdiff.
  assert (e ∉ nodes c) as He.
  { intros Hin. apply Hdiff. unfold add_node. by rewrite decide_True. }
  split; [|done].
  pose proof (reachable_consistent V ops) as Hc. fold c in Hc.
  assert (consistent (add_node c e)) as Hc'
    by apply (consistent_apply_op c (Add e) Hc).
  destruct (decide (ring (add_node c e) = ∅)) as [Hempty'|Hne'].
  { exfalso. apply Hdiff. rewrite !get_node_empty; [done| |done].
    apply map_eq. intros h. rewrite lookup_empty.
    destruct (ring c !! h) as [n|] eqn:Hh; [|done].
    assert (is_Some (ring (add_node c e) !! h)) as [m Hm].
    { rewrite add_node_lookup by done. case_decide; [done|by rewrite Hh]. }
    by rewrite Hempty', lookup_empty in Hm. }
  destruct (get_node_spec (add_node c e) key Hc' Hne') as (pos & n & Hget & Hpos & Hs).
  destruct (decide (n = e)) as [->|Hn]; [done|].
  exfalso. apply Hdiff.
  destruct (add_node_serves c e _ pos n He Hs Hpos Hn) as [Hs0 Hpos0].
  assert (ring c ≠ ∅) as Hne by (intros Hr; by rewrite Hr, lookup_empty in Hpos0).
  destruct (get_node_spec c key Hc Hne) as (pos0 & n0 & Hget0 & Hpos1 & Hs1).
  rewrite Hget, Hget0.
  assert (pos0 = pos) as -> by (by eapply serves_unique).
  congruence.
Qed.

(** Endpoints A and B with three virtual nodes each; adding C moves the
    key req_0 from A to C. *)
Lemma add_node_relocates_only_to_new_witness :
  get_node (add_node (run [Add "A"; Add "B"] (empty_ring 3)) "C") "req_0"
  = Return (Some "C")
  ∧ "C" ∉ nodes (run [Add "A"; Add "B"] (empty_ring 3)).
Proof.
  apply (add_node_relocates_only_to_new 3 [Add "A"; Add "B"] "C" "req_0").
  vm_compute. discriminate.
Defined.

(** ** Rings without hash collisions *)
Lemma collision_free_NoDup (V : Z) (U : list string) (n : string) :
  collision_free V U → n ∈ U → NoDup (vhashes V n).
Proof.
  unfold collision_free, ring_hashes. induction U as [|u U IH]; intros Hnd Hn.
  - by apply not_elem_of_nil in Hn.
  - rewrite bind_cons in Hnd. apply NoDup_app in Hnd as (Hu & _ & HU).
    apply elem_of_cons in Hn as [->|Hn]; [done|by apply IH].
Qed.

Lemma collision_free_owner (V : Z) (U : list string) (n1 n2 : string) (h : Z) :
  collision_free V U → n1 ∈ U → n2 ∈ U →
  h ∈ vhashes V n1 → h ∈ vhashes V n2 → n1 = n2.
Proof.
  unfold collision_free, ring_hashes. induction U as [|u U IH]; intros Hnd H1 H2 Hh1 Hh2.
  - by apply not_elem_of_nil in H1.
  - rewrite bind_cons in Hnd. apply NoDup_app in Hnd as (_ & Hdisj & HU).
    apply elem_of_cons in H1 as [->|H1]; apply elem_of_cons in H2 as [->|H2].
    + done.
    + exfalso. apply (Hdisj h Hh1). apply list_elem_of_bind. by exists n2.
    + exfalso. apply (Hdisj h Hh2). apply list_elem_of_bind. by exists n1.
    + by apply IH.
Qed.

Lemma length_vhashes (V : Z) (n : string) : length (vhashes V n) = Z.to_nat V.
Proof. unfold vhashes. by rewrite length_fmap, length_seq. Qed.

Lemma size_foldl_insert_fresh (r : gmap Z string) (hs : list Z) (n : string) :
  NoDup hs → (∀ h, h ∈ hs → r !! h = None) →
  size (foldl (λ r h, <[h := n]> r) r hs) = (size r + length hs)%nat.
Proof.
  intros Hnd. revert r. induction Hnd as [|x hs Hx Hnd IH]; intros r Hfresh; cbn [foldl].
  - simpl. lia.
  - rewrite IH.
    + rewrite map_size_insert_None by (apply Hfresh; left). simpl. lia.
    + intros h Hh. rewrite lookup_insert_ne by (by intros ->).
      apply Hfresh. by right.
Qed.

Lemma size_foldl_delete_present (r : gmap Z string) (hs : list Z) :
  NoDup hs → (∀ h, h ∈ hs → is_Some (r !! h)) →
  (size (foldl (λ r h, delete h r) r hs) + length hs)%nat = size r.
Proof.
  intros Hnd. revert r. induction Hnd as [|x hs Hx Hnd IH]; intros r Hpres; cbn [foldl].
  - simpl. lia.
  - assert (is_Some (r !! x)) as Hsome by (apply Hpres; left).
    pose proof (map_size_delete_Some x r Hsome) as Hdel.
    pose proof (map_size_ne_0_lookup_2 r x Hsome) as Hpos.
    simpl. rewrite <-(IH (delete x r)) in Hdel; [lia|].
    intros h Hh. rewrite lookup_delete_ne by (by intros ->).
    apply Hpres. by right.
Qed.

Lemma tidy_add (U : list string) (c : t) (e : string) :
  collision_free (virtual_nodes c) U → e ∈ U → tidy U c → tidy U (add_node c e).
Proof.
  intros HU He (Hex & Hsub & Hsize). unfold tidy, exact in *.
  destruct (decide (e ∈ nodes c)) as [Hin|Hnin].
  { unfold add_node. by rewrite decide_True. }
  assert (virtual_nodes (add_node c e) = virtual_nodes c) as HV
    by apply (virtual_nodes_apply_op c (Add e)).
  assert (nodes (add_node c e) = {[e]} ∪ nodes c) as Hnodes.
  { unfold add_node. by rewrite decide_False. }
  split_and!.
  - intros h n. rewrite add_node_lookup, HV, Hnodes by done.
    rewrite elem_of_union, elem_of_singleton. case_decide as Hh.
    + split.
      * intros [= <-]. by split; [left|].
      * intros [[->|Hn] Hhn]; [done|].
        f_equal. symmetry.
        by apply (collision_free_owner (virtual_nodes c) U n e h); auto.
    + rewrite Hex. split.
      * intros [? ?]. by split; [right|].
      * intros [[->|Hn] Hhn]; [done|by split].
  - intros n. rewrite Hnodes, elem_of_union, elem_of_singleton.
    intros [->|Hn]; auto.
  - rewrite HV, Hnodes.
    rewrite size_union, size_singleton by
      (apply disjoint_singleton_l; done).
    unfold add_node. rewrite decide_False by done. simpl.
    rewrite size_foldl_insert_fresh, length_vhashes, Hsize; [lia| |].
    + by apply (collision_free_NoDup _ U).
    + intros h Hh. destruct (ring c !! h) as [n|] eqn:Hn; [|done].
      apply Hex in Hn as [Hn Hhn].
      assert (n = e) as -> by
        (by apply (collision_free_owner (virtual_nodes c) U n e h); auto).
      done.
Qed.

Lemma tidy_remove (U : list string) (c : t) (e : string) :
  collision_free (virtual_nodes c) U → tidy U c → tidy U (remove_node c e).
Proof.
  intros HU (Hex & Hsub & Hsize). unfold tidy, exact in *.
  destruct (decide (e ∈ nodes c)) as [Hin|Hnin]; cycle 1.
  { unfold remove_node. by rewrite decide_False. }
  assert (virtual_nodes (remove_node c e) = virtual_nodes c) as HV
    by apply (virtual_nodes_apply_op c (Remove e)).
  assert (nodes (remove_node c e) = nodes c ∖ {[e]}) as Hnodes.
  { unfold remove_node. by rewrite decide_True. }
  assert (∀ h, ring (remove_node c e) !! h
      = if decide (h ∈ vhashes (virtual_nodes c) e) then None else ring c !! h) as Hlook.
  { intros h. unfold remove_node. rewrite decide_True by done. simpl.
    apply lookup_foldl_delete. }
  split_and!.
  - intros h n. rewrite Hlook, HV, Hnodes.
    rewrite elem_of_difference, elem_of_singleton. case_decide as Hh.
    + split; [done|]. intros [[Hn Hne] Hhn]. destruct Hne.
      by apply (collision_free_owner (virtual_nodes c) U n e h); auto.
    + rewrite Hex. split.
      * intros [Hn Hhn]. split_and!; [done| |done]. by intros ->.
      * intros [[Hn _] Hhn]. by split.
  - intros n. rewrite Hnodes, elem_of_difference. intros [Hn _]. auto.
  - rewrite HV, Hnodes.
    assert (size (nodes c) = S (size (nodes c ∖ {[e]}))) as Hsz.
    { rewrite size_difference by (by apply singleton_subseteq_l).
      rewrite size_singleton.
      assert (size (nodes c) ≠ 0)%nat; [|lia].
      apply size_non_empty_iff. intros Hempty.
      apply (not_elem_of_empty (C:=gset string) e). by rewrite <-Hempty. }
    unfold remove_node. rewrite decide_True by done. simpl.
    pose proof (size_foldl_delete_present (ring c) (vhashes (virtual_nodes c) e)) as Hd.
    rewrite length_vhashes in Hd. rewrite Hsz in Hsize.
    rewrite <-Hd in Hsize; [lia| |].
    + by apply (collision_free_NoDup _ U), Hsub.
    + intros h Hh. exists e. by apply Hex.
Qed.

Lemma tidy_empty (U : list string) (V : Z) : tidy U (empty_ring V).
Proof.
  unfold tidy, exact, empty_ring. cbn [ring nodes virtual_nodes]. split_and!.
  - intros h n. rewrite lookup_empty. split; [done|].
    intros [Hn _]. by apply not_elem_of_empty in Hn.
  - intros n Hn. by apply not_elem_of_empty in Hn.
  - rewrite map_size_empty, size_empty. lia.
Qed.

Lemma tidy_run (U : list string) (V : Z) (ops : list op) :
  collision_free V U → (∀ n, n ∈ added ops → n ∈ U) →
  tidy U (run ops (empty_ring V)).
Proof.
  intros HU. induction ops as [|o ops IH] using rev_ind; intros Hadd.
  - apply tidy_empty.
  - unfold run. rewrite foldl_app. simpl. fold (run ops (empty_ring V)).
    assert (tidy U (run ops (empty_ring V))) as Ht.
    { apply IH. intros n Hn. apply Hadd. unfold added.
      rewrite omap_app. apply elem_of_app. by left. }
    assert (virtual_nodes (run ops (empty_ring V)) = V) as HV
      by apply virtual_nodes_run.
    destruct o as [n|n]; simpl.
    + apply tidy_add; [by rewrite HV| |done].
      apply Hadd. unfold added. rewrite omap_app. apply elem_of_app. right.
      simpl. by left.
    + apply tidy_remove; [by rewrite HV|done].
Qed.

(** ** Insertion order, ring size and hash collisions *)
Lemma bounded_function_collides (N : Z) (f : nat → Z) :
  (∀ i, 0 ≤ f i < N) → ∃ i1 i2 : nat, i1 ≠ i2 ∧ f i1 = f i2.
Proof.
  intros Hf.
  destruct (nat_pigeonhole (λ m, Z.to_nat (f m)) (S (Z.to_nat N)) (Z.to_nat N))
    as (i1 & i2 & Hlt & Heq).
  - apply Nat.lt_succ_diag_r.
  - intros i _. specialize (Hf i). apply Z2Nat.inj_lt; lia.
  - exists i1, i2. split; [lia|].
    pose proof (Hf i1). pose proof (Hf i2). apply Z2Nat.inj; lia.
Qed.

(** MD5 maps infinitely many virtual-node names into 128 bits, so two
    different endpoints have a colliding first virtual node. *)
Lemma vnode_collision_exists :
  ∃ n1 n2 : string,
    n1 ≠ n2 ∧ _hash (virtual_key n1 0) = _hash (virtual_key n2 0).
Proof.
  destruct (bounded_function_collides (2 ^ 128)
              (λ m, MD5.md5_int (virtual_key (pretty m) 0)))
    as (i1 & i2 & Hne & Heq).
  - intros i. apply md5_int_range.
  - exists (pretty i1), (pretty i2). split; [|exact Heq].
    intros Hp. by apply (inj pretty) in Hp.
Qed.

Lemma vhashes_one (n : string) : vhashes 1 n = [_hash (virtual_key n 0)].
Proof. reflexivity. Qed.

Lemma get_node_sole_owner (c : t) (key e : string) :
  consistent c → ring c ≠ ∅ → (∀ h n, ring c !! h = Some n → n = e) →
  get_node c key = Return (Some e).
Proof.
  intros Hc Hne Hall.
  destruct (get_node_spec c key Hc Hne) as (pos & n & -> & Hpos & _).
  by rewrite (Hall pos n Hpos).
Qed.

(** The ring of two endpoints whose single virtual nodes collide: the
    endpoint added last owns the only position. *)
Lemma collided_pair (n1 n2 : string) :
  n1 ≠ n2 → _hash (virtual_key n1 0) = _hash (virtual_key n2 0) →
  let c := run [Add n1; Add n2] (empty_ring 1) in
  ring c = {[ _hash (virtual_key n2 0) := n2 ]} ∧ nodes c = {[n2]} ∪ ({[n1]} ∪ ∅).
Proof.
  intros Hne Hh. unfold run. cbn [foldl apply_op].
  assert (add_node (empty_ring 1) n1
          = Ring 1 {[ _hash (virtual_key n1 0) := n1 ]}
                   (sorted_of {[ _hash (virtual_key n1 0) := n1 ]}) ({[n1]} ∪ ∅)) as ->.
  { unfold add_node, empty_ring. cbn [nodes ring virtual_nodes].
    rewrite decide_False by apply not_elem_of_empty.
    rewrite vhashes_one. cbn [foldl]. by rewrite insert_empty. }
  unfold add_node. cbn [nodes ring virtual_nodes].
  rewrite decide_False.
  - rewrite vhashes_one. cbn [foldl ring nodes]. split; [|done].
    rewrite Hh. by rewrite insert_singleton_eq.
  - rewrite elem_of_union, elem_of_singleton. intros [?|Hin]; [done|].
    by apply not_elem_of_empty in Hin.
Qed.

Lemma collided_pair_lookup (n1 n2 key : string) :
  n1 ≠ n2 → _hash (virtual_key n1 0) = _hash (virtual_key n2 0) →
  get_node (new [n1; n2] 1) key = Return (Some n2).
Proof.
  intros Hne Hh. rewrite new_run. change (Add <$> [n1; n2]) with [Add n1; Add n2].
  destruct (collided_pair n1 n2 Hne Hh) as [Hring _].
  apply get_node_sole_owner.
  - apply reachable_consistent.
  - rewrite Hring. apply insert_non_empty.
  - intros h n. rewrite Hring. intros Hl.
    apply lookup_singleton_Some in Hl as [_ ->]. done.
Qed.

Lemma nodes_run_adds (l : list string) (c : t) :
  nodes (run (Add <$> l) c) = list_to_set l ∪ nodes c.
Proof.
  revert c. induction l as [|x l IH]; intros c.
  - simpl. by rewrite (left_id_L ∅ (∪)).
  - change (run (Add <$> x :: l) c) with (run (Add <$> l) (add_node c x)).
    rewrite IH. unfold add_node. case_decide as Hx; simpl.
    + apply set_eq. intros y. rewrite !elem_of_union, elem_of_singleton.
      split; [tauto|]. intros [[->|?]|?]; auto.
    + apply set_eq. intros y. rewrite !elem_of_union. tauto.
Qed.

Lemma added_adds (l : list string) : added (Add <$> l) = l.
Proof.
  induction l as [|x l IH]; [done|].
  change (added (Add <$> x :: l)) with (x :: added (Add <$> l)). by rewrite IH.
Qed.

Lemma exact_ring_eq (c1 c2 : t) :
  exact c1 → exact c2 → nodes c1 = nodes c2 → virtual_nodes c1 = virtual_nodes c2 →
  ring c1 = ring c2.
Proof.
  unfold exact. intros H1 H2 Hn HV. apply map_eq. intros h.
  destruct (ring c1 !! h) as [n|] eqn:E1.
  - symmetry. apply H2. rewrite <-Hn, <-HV. by apply H1.
  - destruct (ring c2 !! h) as [n|] eqn:E2; [|done].
    apply H2 in E2. rewrite <-Hn, <-HV in E2. apply H1 in E2. congruence.
Qed.

Lemma ring_eq (c1 c2 : t) :
  virtual_nodes c1 = virtual_nodes c2 → ring c1 = ring c2 →
  sorted_keys c1 = sorted_keys c2 → nodes c1 = nodes c2 → c1 = c2.
Proof. destruct c1, c2. simpl. by intros -> -> -> ->. Qed.

(** C2, as stated, fails: with one virtual node per endpoint and two
    endpoints whose virtual nodes have the same MD5 hash, the endpoint
    added last owns the only ring position, so the two insertion orders
    give different lookups for every key. *)
Lemma insertion_order_matters_on_collision :
  ¬ (∀ (V : Z) (l1 l2 : list string) (key : string),
       NoDup l1 → l1 ≡ₚ l2 →
       get_node (new l1 V) key = get_node (new l2 V) key).
Proof.
  intros Hclaim.
  destruct vnode_collision_exists as (n1 & n2 & Hne & Hh).
  assert (NoDup [n1; n2]) as Hnd.
  { apply NoDup_cons. split; [|apply NoDup_singleton].
    by intros ->%list_elem_of_singleton. }
  specialize (Hclaim 1 [n1; n2] [n2; n1] "req_0" Hnd (perm_swap n2 n1 [])).
  rewrite (collided_pair_lookup n1 n2) in Hclaim by done.
  rewrite (collided_pair_lookup n2 n1) in Hclaim by done.
  congruence.
Qed.

Lemma exact_add (U : list string) (c : t) (e : string) :
  no_shared_position (virtual_nodes c) U → e ∈ U →
  exact c → (∀ n, n ∈ nodes c → n ∈ U) →
  exact (add_node c e) ∧ (∀ n, n ∈ nodes (add_node c e) → n ∈ U).
Proof.
  intros HU He Hex Hsub. unfold exact in *.
  destruct (decide (e ∈ nodes c)) as [Hin|Hnin].
  { unfold add_node. by rewrite decide_True. }
  assert (virtual_nodes (add_node c e) = virtual_nodes c) as HV
    by apply (virtual_nodes_apply_op c (Add e)).
  assert (nodes (add_node c e) = {[e]} ∪ nodes c) as Hnodes.
  { unfold add_node. by rewrite decide_False. }
  split.
  - intros h n. rewrite add_node_lookup, HV, Hnodes by done.
    rewrite elem_of_union, elem_of_singleton. case_decide as Hh.
    + split.
      * intros [= <-]. by split; [left|].
      * intros [[->|Hn] Hhn]; [done|].
        f_equal. by apply (HU e n h); auto.
    + rewrite Hex. split.
      * intros [? ?]. by split; [right|].
      * intros [[->|Hn] Hhn]; [done|by split].
  - intros n. rewrite Hnodes, elem_of_union, elem_of_singleton.
    intros [->|Hn]; auto.
Qed.

Lemma exact_adds (U : list string) (V : Z) (l : list string) :
  no_shared_position V U → (∀ n, n ∈ l → n ∈ U) →
  exact (run (Add <$> l) (empty_ring V)).
Proof.
  intros HU Hl.
  assert (exact (run (Add <$> l) (empty_ring V))
          ∧ ∀ n, n ∈ nodes (run (Add <$> l) (empty_ring V)) → n ∈ U) as [? _]; [|done].
  induction l as [|e l IH] using rev_ind.
  - split; [by destruct (tidy_empty U V)|]. intros n Hn. by apply not_elem_of_empty in Hn.
  - rewrite fmap_app. unfold run. rewrite foldl_app. cbn [fmap list_fmap foldl apply_op].
    fold (run (Add <$> l) (empty_ring V)).
    destruct IH as [Hex Hsub]; [intros n Hn; apply Hl, elem_of_app; by left|].
    apply exact_add; [|apply Hl, elem_of_app; right; by left|done|done].
    by rewrite virtual_nodes_run.
Qed.

Lemma collision_free_no_shared_position (V : Z) (U : list string) :
  collision_free V U → no_shared_position V U.
Proof. intros Hfree n1 n2 h. by apply collision_free_owner. Qed.

(** C2, amended. When no two different endpoints have a virtual node with
    the same hash, the ring, and with it the endpoint returned for every
    key, depends only on the set of endpoints and on [V]: two lists with
    the same members give the same ring. An endpoint whose own virtual
    nodes collide, or a name listed twice, does no harm. *)
Theorem lookup_independent_of_insertion_order
    (V : Z) (l1 l2 : list string) (key : string) :
  (∀ e, e ∈ l1 ↔ e ∈ l2) → no_shared_position V l1 →
  new l1 V = new l2 V ∧ get_node (new l1 V) key = get_node (new l2 V) key.
Proof.
  intros Hsame Hfree.
  assert (new l1 V = new l2 V) as Heq; [|by rewrite Heq].
  rewrite !new_run.
  pose proof (exact_adds l1 V l1 Hfree (λ n Hn, Hn)) as Hex1.
  pose proof (exact_adds l1 V l2 Hfree (λ n Hn, proj2 (Hsame n) Hn)) as Hex2.
  assert (nodes (run (Add <$> l1) (empty_ring V))
          = nodes (run (Add <$> l2) (empty_ring V))) as Hnodes.
  { rewrite !nodes_run_adds. f_equal. apply set_eq. intros x.
    rewrite !elem_of_list_to_set. apply Hsame. }
  assert (ring (run (Add <$> l1) (empty_ring V))
          = ring (run (Add <$> l2) (empty_ring V))) as Hring.
  { apply exact_ring_eq; [done..|]. by rewrite !virtual_nodes_run. }
  apply ring_eq; [by rewrite !virtual_nodes_run|done| |done].
  rewrite (reachable_consistent V (Add <$> l1)),
          (reachable_consistent V (Add <$> l2)).
  by rewrite Hring.
Qed.

(** Scenario S1: endpoints A, B, C with 150 virtual nodes each, added in
    opposite orders, the second list naming A twice. *)
Lemma lookup_independent_of_insertion_order_witness :
  new ["A"; "B"; "C"] 150 = new ["C"; "B"; "A"; "A"] 150
  ∧ get_node (new ["A"; "B"; "C"] 150) "req_0"
    = get_node (new ["C"; "B"; "A"; "A"] 150) "req_0".
Proof.
  apply (lookup_independent_of_insertion_order 150 ["A"; "B"; "C"] ["C"; "B"; "A"; "A"]
           "req_0").
  - intros e. rewrite !elem_of_cons, !elem_of_nil. tauto.
  - apply collision_free_no_shared_position.
    apply (bool_decide_unpack _). vm_compute. exact I.
Defined.

(** *** C9 *)

Lemma get_node_Some_member (c : t) (key e : string) :
  owned c → get_node c key = Return (Some e) → e ∈ nodes c.
Proof.
  intros Ho. unfold get_node. case_decide; [done|].
  destruct (sorted_keys c !! _) as [h|]; [|done].
  destruct (ring c !! h) as [n|] eqn:Hh; [|done].
  intros [= <-]. by apply (Ho h n).
Qed.

(** C9, as stated, fails, in two ways. With [virtual_nodes = 0] a ring
    with a member has no position and its lookup returns [None]. And
    with colliding virtual nodes the index is shorter than
    [V * |endpoints|]. *)
Lemma ring_invariant_fails :
  (let c := run [Add "A"] (empty_ring 0) in
   nodes c ≠ ∅ ∧ get_node c "req_0" = Return None)
  ∧ ¬ (∀ (V : Z) (ops : list op),
         1 ≤ V →
         Z.of_nat (length (sorted_keys (run ops (empty_ring V))))
         = V * Z.of_nat (size (nodes (run ops (empty_ring V))))).
Proof.
  split.
  - split; [|vm_compute; reflexivity].
    apply (bool_decide_unpack _). vm_compute. exact I.
  - intros Hclaim.
    destruct vnode_collision_exists as (n1 & n2 & Hne & Hh).
    specialize (Hclaim 1 [Add n1; Add n2] ltac:(lia)).
    rewrite (reachable_consistent 1 [Add n1; Add n2]), length_sorted_of in Hclaim.
    destruct (collided_pair n1 n2 Hne Hh) as [Hring Hnodes].
    rewrite Hring, Hnodes, map_size_singleton in Hclaim.
    rewrite (right_id_L ∅ (∪)) in Hclaim.
    rewrite size_union, !size_singleton in Hclaim; [lia|].
    apply disjoint_singleton_l. rewrite elem_of_singleton. congruence.
Qed.

(** C9, amended. For a replication factor [V ≥ 1] and endpoints taken
    from a universe [U] without colliding virtual nodes, after every
    sequence of [add_node] and [remove_node] the index has [V] entries per
    member, is strictly increasing, and the lookup of any key returns an
    endpoint exactly when there is a member; both operations are
    idempotent. *)
Theorem ring_invariants (V : Z) (U : list string) (ops : list op) :
  1 ≤ V → collision_free V U → (∀ n, n ∈ added ops → n ∈ U) →
  let c := run ops (empty_ring V) in
  Z.of_nat (length (sorted_keys c)) = V * Z.of_nat (size (nodes c))
  ∧ strictly_increasing (sorted_keys c)
  ∧ (∀ key, (∃ e, get_node c key = Return (Some e)) ↔ nodes c ≠ ∅)
  ∧ (∀ e, add_node (add_node c e) e = add_node c e)
  ∧ (∀ e, remove_node (remove_node c e) e = remove_node c e).
Proof.
  intros HV Hfree Hadd c.
  pose proof (reachable_consistent V ops) as Hc. fold c in Hc.
  pose proof (reachable_owned V ops) as Ho. fold c in Ho.
  destruct (tidy_run U V ops Hfree Hadd) as (Hex & _ & Hsize). fold c in Hex, Hsize.
  assert (virtual_nodes c = V) as HVc by apply virtual_nodes_run.
  split_and!.
  - rewrite Hc, length_sorted_of, Hsize, HVc. lia.
  - rewrite Hc. apply sorted_of_strict.
  - intros key. split.
    + intros [e He] Hempty.
      apply (get_node_Some_member c key e Ho) in He.
      rewrite Hempty in He. by apply not_elem_of_empty in He.
    + intros Hne.
      assert (∃ n, n ∈ nodes c) as [n Hn].
      { apply size_pos_elem_of.
        assert (size (nodes c) ≠ 0)%nat; [|lia].
        apply size_non_empty_iff. intros Heq. apply Hne. by apply leibniz_equiv. }
      assert (ring c ≠ ∅) as Hring.
      { intros Hempty.
        assert (ring c !! _hash (virtual_key n 0) = Some n) as Hl.
        { apply Hex. split; [done|]. rewrite HVc. unfold vhashes.
          apply list_elem_of_fmap. exists 0%nat. split; [done|].
          apply elem_of_seq. lia. }
        by rewrite Hempty, lookup_empty in Hl. }
      destruct (get_node_spec c key Hc Hring) as (pos & e & He & _).
      by exists e.
  - intros e. unfold add_node at 1. rewrite decide_True; [done|].
    unfold add_node. case_decide; [done|]. simpl.
    apply elem_of_union_l. by apply elem_of_singleton.
  - intros e. unfold remove_node at 1. rewrite decide_False; [done|].
    unfold remove_node. case_decide; [|done]. simpl.
    rewrite elem_of_difference, elem_of_singleton. tauto.
Qed.

Lemma ring_invariants_witness :
  let c := run [Add "A"; Add "B"; Remove "A"; Add "C"; Add "A"; Add "C"] (empty_ring 3) in
  Z.of_nat (length (sorted_keys c)) = 3 * Z.of_nat (size (nodes c))
  ∧ strictly_increasing (sorted_keys c)
  ∧ (∀ key, (∃ e, get_node c key = Return (Some e)) ↔ nodes c ≠ ∅)
  ∧ (∀ e, add_node (add_node c e) e = add_node c e)
  ∧ (∀ e, remove_node (remove_node c e) e = remove_node c e).
Proof.
  apply (ring_invariants 3 ["A"; "B"; "C"]
           [Add "A"; Add "B"; Remove "A"; Add "C"; Add "A"; Add "C"]).
  - lia.
  - apply (bool_decide_unpack _). vm_compute. exact I.
  - intros n. cbn. rewrite !elem_of_cons, !elem_of_nil. tauto.
Defined.

End RingFacts.

(** ** The router *)
Section RouterFacts.
Import Gateway.
Context {Payload Response World : Type}.
Variable urlopen : string → request Payload → World → result Response * World.
Variable list_of_set : gset string → list string.

Lemma retry_spec (todo : list string) (target : string) (req : request Payload)
    (w : World) (log : list (string * result Response)) :
  ∃ new res w',
    retry urlopen todo target req w log = (res, log ++ new, w')
    ∧ forwards urlopen req w new w'
    ∧ new.*1 `prefix_of` filter (λ n, n ≠ target) todo
    ∧ match res with
      | Some resp =>
          ∃ pre node, new = pre ++ [(node, Return resp)] ∧ Forall failed pre
      | None => Forall failed new ∧ new.*1 = filter (λ n, n ≠ target) todo
      end.
Proof.
  revert w log. induction todo as [|node todo IH]; intros w log; cbn [retry].
  - exists [], None, w. rewrite app_nil_r. by split_and!.
  - rewrite filter_cons. case_decide as Hnode.
    + destruct (urlopen (node +:+ "/infer") req w) as [r w1] eqn:Hopen.
      destruct r as [resp|e].
      * exists [(node, Return resp)], (Some resp), w1. split_and!; [done| | |].
        -- simpl. by exists w1.
        -- simpl. by apply (prefix_cons node []), prefix_nil.
        -- exists [], node. by split.
      * destruct (IH w1 (log ++ [(node, Raise e)])) as (new & res & w' & Hr & Hf & Hp & Hres).
        exists ((node, Raise e) :: new), res, w'. split_and!.
        -- rewrite Hr. by rewrite <-app_assoc.
        -- simpl. by exists w1.
        -- rewrite fmap_cons. by apply prefix_cons.
        -- destruct res as [resp|].
           ++ destruct Hres as (pre & n & -> & Hpre).
              exists ((node, Raise e) :: pre), n. split; [done|].
              constructor; [by exists e|done].
           ++ destruct Hres as [Hall Heq]. split.
              ** constructor; [by exists e|done].
              ** rewrite fmap_cons. cbn [fst]. by rewrite Heq.
    + apply IH.
Qed.

Lemma length_filter_ne (l : list string) (x : string) :
  NoDup l → x ∈ l → NoDup (x :: filter (λ n, n ≠ x) l).
Proof.
  intros Hl Hx. constructor.
  - rewrite list_elem_of_filter. tauto.
  - by apply NoDup_filter.
Qed.

Lemma nodes_new (ws : list string) (V : Z) (n : string) :
  n ∈ ConsistentHash.nodes (ConsistentHash.new ws V) ↔ n ∈ ws.
Proof.
  rewrite new_run, nodes_run_adds. cbn [ConsistentHash.nodes empty_ring].
  rewrite elem_of_union, elem_of_list_to_set.
  split; [intros [?|Hn]; [done|by apply not_elem_of_empty in Hn]|by left].
Qed.

(** What [route_request] does. A gateway built over the workers [ws] whose
    ring chose the endpoint [primary] for the request forwards to [primary]
    first. When that forward raises [URLError] or its subclass [HTTPError],
    the other members are tried in the order of [list(self.nodes)], each at
    most once and never [primary] again, so at most [|ws| - 1] further
    forwards are made; the first response obtained is returned, and when
    every member failed the exception raised carries [str(e)] of the
    primary's exception. Any other exception of the first forward is raised
    as it is, with no further forward. The attempts listed are the forwards
    really made. *)
Theorem route_request_failover
    (ws : list string) (count : Z) (req : request Payload) (w : World)
    (primary : string) :
  (∀ X, list_of_set X ≡ₚ elements X) →
  let g := Gateway ws (ConsistentHash.new ws 150) count in
  let rid := default ("req_" +:+ pretty (count + 1)) (request_id req) in
  ConsistentHash.get_node (hash_ring g) rid = Return (Some primary) →
  primary ≠ "" →
  let r := route_request urlopen list_of_set g req w in
  ∃ r0 retried,
    attempts r = (primary, r0) :: retried
    ∧ forwards urlopen req w (attempts r) (world r)
    ∧ NoDup (attempts r).*1
    ∧ (∀ n, n ∈ (attempts r).*1 → n ∈ ws)
    ∧ (length retried ≤ length ws - 1)%nat
    ∧ match r0 with
      | Return resp => retried = [] ∧ outcome r = Return resp
      | Raise e =>
          if is_URLError e then
            (∃ pre node resp,
               retried = pre ++ [(node, Return resp)] ∧ Forall failed pre
               ∧ outcome r = Return resp)
            ∨ (Forall failed retried
               ∧ (∀ n, n ∈ ws → n ∈ (attempts r).*1)
               ∧ outcome r = Raise (Exception ("All workers failed: " +:+ str_of_exn e)))
          else retried = [] ∧ outcome r = Raise e
      end.
Proof.
  intros Hperm g rid Hget Hprimary r.
  assert (primary ∈ ws) as Hin.
  { apply (nodes_new ws 150). apply (get_node_Some_member _ rid); [|done].
    cbn [hash_ring g]. rewrite new_run. apply reachable_owned. }
  assert (1 ≤ length ws)%nat as Hlen.
  { destruct ws; [by apply not_elem_of_nil in Hin|simpl; lia]. }
  subst r. unfold route_request. cbn [request_count hash_ring workers g] in *.
  fold rid. rewrite Hget.
  destruct primary as [|a primary']; [done|]. set (primary := String a primary') in *.
  destruct (urlopen (primary +:+ "/infer") req w) as [r0 w1] eqn:Hopen.
  assert (forwards urlopen req w [(primary, r0)] w1) as Hfirst.
  { simpl. by exists w1. }
  assert (∀ n, n ∈ [(primary, r0)].*1 → n ∈ ws) as Hsub1.
  { intros n. simpl. rewrite list_elem_of_singleton. by intros ->. }
  destruct r0 as [resp|e].
  { exists (Return resp), []. cbn [attempts world outcome].
    split_and!; try done; [apply NoDup_singleton|simpl; lia]. }
  destruct (is_URLError e) eqn:Hcaught; cycle 1.
  { exists (Raise e), []. cbn [attempts world outcome]. rewrite Hcaught.
    split_and!; try done; [apply NoDup_singleton|simpl; lia]. }
  unfold ConsistentHash.get_nodes.
  set (todo := list_of_set (ConsistentHash.nodes (ConsistentHash.new ws 150))).
  assert (NoDup todo) as Hnd.
  { subst todo. rewrite Hperm. apply NoDup_elements. }
  assert (∀ n, n ∈ todo ↔ n ∈ ws) as Htodo.
  { intros n. subst todo. rewrite Hperm, elem_of_elements. apply nodes_new. }
  destruct (retry_spec todo primary req w1 [(primary, Raise e)])
    as (new & res & w2 & Hretry & Hfw & Hpre & Hres).
  rewrite Hretry.
  assert (NoDup (primary :: new.*1)) as Hnd'.
  { destruct Hpre as [k Hk].
    pose proof (length_filter_ne todo primary Hnd (proj2 (Htodo primary) Hin)) as Hf.
    rewrite Hk, app_comm_cons in Hf. by apply NoDup_app in Hf as [? _]. }
  assert (∀ n, n ∈ primary :: new.*1 → n ∈ ws) as Hsub.
  { intros n [->|Hn]%elem_of_cons; [done|].
    destruct Hpre as [k Hk]. apply Htodo.
    assert (n ∈ filter (λ n, n ≠ primary) todo) as Hnf
      by (rewrite Hk; apply elem_of_app; by left).
    apply list_elem_of_filter in Hnf. tauto. }
  assert (length new ≤ length ws - 1)%nat as Hbound.
  { pose proof (submseteq_length _ _ (NoDup_submseteq _ _ Hnd' Hsub)) as Hle.
    simpl in Hle. rewrite length_fmap in Hle. lia. }
  assert (forwards urlopen req w ((primary, Raise e) :: new) w2) as Hall.
  { simpl. by exists w1. }
  exists (Raise e), new.
  destruct res as [resp|]; cbn [attempts world outcome]; rewrite Hcaught;
    (split_and!; [done|done|done|done|done|]).
  - left. destruct Hres as (pre & node & -> & Hfail). by exists pre, node, resp.
  - right. destruct Hres as [Hfail Heq]. split_and!; [done| |done].
    intros n Hn.
    change (n ∈ primary :: new.*1). apply elem_of_cons.
    destruct (decide (n = primary)) as [->|Hne]; [by left|right].
    rewrite Heq. apply list_elem_of_filter. split; [done|by apply Htodo].
Qed.

(** C5. In a ring reached by any sequence of membership operations,
    [get_node] returns the owner of the position serving [_hash key]: the
    smallest position strictly above the hash, or the smallest position of
    all when none is above. A ring without members has no position; on a
    ring without positions [get_node] returns [None] and [route_request]
    raises "No workers available" without forwarding anything. *)
Theorem get_node_serving_position (V : Z) (ops : list ConsistentHash.op) (key : string) :
  let c := ConsistentHash.run ops (empty_ring V) in
  (ConsistentHash.ring c ≠ ∅ →
     ∃ pos e, ConsistentHash.get_node c key = Return (Some e)
              ∧ ConsistentHash.ring c !! pos = Some e
              ∧ serves (ConsistentHash.ring c) (ConsistentHash._hash key) pos)
  ∧ (ConsistentHash.nodes c = ∅ → ConsistentHash.ring c = ∅)
  ∧ (ConsistentHash.ring c = ∅ →
       ConsistentHash.get_node c key = Return None
       ∧ ∀ (ws : list string) (count : Z) (req : request Payload) (w : World),
           let r := route_request urlopen list_of_set (Gateway ws c count) req w in
           outcome r = Raise (Exception "No workers available")
           ∧ attempts r = [] ∧ world r = w).
Proof.
  intros c. split_and!.
  - intros Hne. apply get_node_spec; [apply reachable_consistent|done].
  - apply ring_empty_of_no_nodes, reachable_owned.
  - intros Hempty. split; [by apply get_node_empty|].
    intros ws count req w. unfold route_request. cbn [request_count hash_ring workers].
    by rewrite get_node_empty.
Qed.

End RouterFacts.

Lemma route_request_failover_witness :
  let r := Gateway.route_request demo_urlopen elements
             (Gateway.Gateway ["A"; "B"; "C"] (ConsistentHash.new ["A"; "B"; "C"] 150) 0)
             (Gateway.Request (Some "req_0") ()) () in
  ∃ r0 retried,
    Gateway.attempts r = ("B", r0) :: retried
    ∧ forwards demo_urlopen (Gateway.Request (Some "req_0") ()) ()
        (Gateway.attempts r) (Gateway.world r)
    ∧ NoDup (Gateway.attempts r).*1
    ∧ (∀ n, n ∈ (Gateway.attempts r).*1 → n ∈ ["A"; "B"; "C"])
    ∧ (length retried ≤ length ["A"; "B"; "C"] - 1)%nat
    ∧ match r0 with
      | Return resp => retried = [] ∧ Gateway.outcome r = Return resp
      | Raise e =>
          if is_URLError e then
            (∃ pre node resp,
               retried = pre ++ [(node, Return resp)] ∧ Forall failed pre
               ∧ Gateway.outcome r = Return resp)
            ∨ (Forall failed retried
               ∧ (∀ n, n ∈ ["A"; "B"; "C"] → n ∈ (Gateway.attempts r).*1)
               ∧ Gateway.outcome r
                 = Raise (Exception ("All workers failed: " +:+ str_of_exn e)))
          else retried = [] ∧ Gateway.outcome r = Raise e
      end.
Proof.
  apply (route_request_failover demo_urlopen elements ["A"; "B"; "C"] 0
           (Gateway.Request (Some "req_0") ()) () "B").
  - intros X. reflexivity.
  - vm_compute. reflexivity.
  - discriminate.
Defined.


Lemma get_node_serving_position_witness :
  (let c := ConsistentHash.run [ConsistentHash.Add "A"; ConsistentHash.Add "B"] (empty_ring 3) in
   ∃ pos e, ConsistentHash.get_node c "req_0" = Return (Some e)
            ∧ ConsistentHash.ring c !! pos = Some e
            ∧ serves (ConsistentHash.ring c) (ConsistentHash._hash "req_0") pos)
  ∧ (let c := ConsistentHash.run [ConsistentHash.Add "A"; ConsistentHash.Remove "A"] (empty_ring 3) in
     ConsistentHash.ring c = ∅
     ∧ ConsistentHash.get_node c "req_0" = Return None
     ∧ Gateway.outcome (Gateway.route_request demo_urlopen elements
                          (Gateway.Gateway ["A"] c 0) (Gateway.Request None ()) ())
       = Raise (Exception "No workers available")).
Proof.
  split.
  - apply (get_node_serving_position demo_urlopen elements 3
             [ConsistentHash.Add "A"; ConsistentHash.Add "B"] "req_0").
    apply (bool_decide_unpack _). vm_compute. exact I.
  - destruct (get_node_serving_position demo_urlopen elements 3
                [ConsistentHash.Add "A"; ConsistentHash.Remove "A"] "req_0")
      as (_ & Hnodes & Hring).
    assert (ConsistentHash.ring
              (ConsistentHash.run [ConsistentHash.Add "A"; ConsistentHash.Remove "A"]
                 (empty_ring 3)) = ∅) as Hempty.
    { apply Hnodes. vm_compute. reflexivity. }
    destruct (Hring Hempty) as [Hget Hroute].
    split_and!; [done|done|]. apply (Hroute ["A"] 0 (Gateway.Request None ()) ()).
Defined.

(** ** The batch coalescer *)
Section CoalescerFacts.
Import BatchProcessor.
Context {Any : Type}.
Variable max_batch_size : Z.
Variable timeout_ms : Q.
Variable process_fn : option (list Any → result (list Any)).

Local Abbreviation state := (state Any).
Local Abbreviation thread := (thread Any).
Local Abbreviation label := (label Any).
Local Abbreviation step := (step max_batch_size timeout_ms process_fn).
Local Abbreviation run := (run max_batch_size timeout_ms process_fn).
Local Abbreviation _process_batch := (_process_batch process_fn).
Local Abbreviation compute := (compute process_fn).
Local Abbreviation flush := (flush process_fn).
Local Abbreviation loop_test := (loop_test timeout_ms).
Local Abbreviation get_item := (get_item max_batch_size process_fn).
Local Abbreviation get_empty := (get_empty process_fn).

(** *** Lists of threads *)

Lemma bind_insert_Permutation {A B} (f : A → list B) (l : list A) (i : nat) (x x' : A) :
  l !! i = Some x →
  l ≫= f ≡ₚ f x ++ (delete i l ≫= f)
  ∧ <[i := x']> l ≫= f ≡ₚ f x' ++ (delete i l ≫= f).
Proof.
  intros Hi. pose proof (lookup_lt_Some _ _ _ Hi) as Hlt.
  rewrite delete_take_drop, insert_take_drop by done.
  rewrite <-(take_drop_middle l i x Hi) at 1.
  rewrite !bind_app, !bind_cons. split; solve_Permutation.
Qed.

Lemma pending_thread (s : state) (tid : nat) (t : thread) :
  threads s !! tid = Some t →
  pending s ≡ₚ result_queues t
               ++ (request_queue s).*2 ++ (delete tid (threads s) ≫= result_queues).
Proof.
  intros Ht. unfold pending.
  destruct (bind_insert_Permutation result_queues (threads s) tid t t Ht) as [-> _].
  solve_Permutation.
Qed.

Lemma pending_set_thread (s : state) (tid : nat) (t t' : thread) :
  threads s !! tid = Some t →
  pending (set_thread s tid t')
  ≡ₚ result_queues t'
     ++ (request_queue s).*2 ++ (delete tid (threads s) ≫= result_queues).
Proof.
  intros Ht. unfold pending, set_thread. cbn [request_queue threads].
  destruct (bind_insert_Permutation result_queues (threads s) tid t t' Ht) as [_ ->].
  solve_Permutation.
Qed.

(** *** Puts on result queues *)

Lemma puts_for_app (q : nat) (l1 l2 : list (nat * slot_value Any)) :
  puts_for q (l1 ++ l2) = puts_for q l1 ++ puts_for q l2.
Proof. unfold puts_for. by rewrite filter_app, fmap_app. Qed.

Lemma puts_for_none (q : nat) (l : list (nat * slot_value Any)) :
  (∀ p, p ∈ l → p.1 ≠ q) → puts_for q l = [].
Proof.
  intros Hl. unfold puts_for. induction l as [|p l IH]; [done|].
  rewrite filter_cons. rewrite decide_False by (apply Hl; left).
  apply IH. intros p' Hp'. apply Hl. by right.
Qed.

Lemma elem_of_zip_results (rs : list Any) (qs : list nat) (p : nat * slot_value Any) :
  p ∈ zip_with (λ r q, (q, Value r)) rs qs → p.1 ∈ qs.
Proof.
  revert qs. induction rs as [|r rs IH]; intros [|q qs]; simpl; try by intros ?%not_elem_of_nil.
  intros [->|Hp]%elem_of_cons; [by left|right; by apply IH].
Qed.

Lemma elem_of_error_puts (msg : string) (qs : list nat) (p : nat * slot_value Any) :
  p ∈ (λ q, (q, ErrorDict msg)) <$> qs → p.1 ∈ qs.
Proof. intros (q & -> & Hq)%list_elem_of_fmap. done. Qed.

Lemma puts_for_zip_results (rs : list Any) (qs : list nat) :
  NoDup qs → length rs = length qs →
  Forall2 (λ v q, puts_for q (zip_with (λ r q, (q, Value r)) rs qs) = [Value v]) rs qs.
Proof.
  intros Hnd. revert rs. induction Hnd as [|q qs Hq Hnd IH]; intros [|r rs] Hlen;
    try done.
  simpl in Hlen. constructor.
  - simpl. unfold puts_for. rewrite filter_cons, decide_True by done.
    simpl. f_equal. apply puts_for_none.
    intros p Hp%elem_of_zip_results Heq. by rewrite Heq in Hp.
  - eapply Forall2_impl; [apply IH; lia|]. simpl. intros v q' Hq'.
    destruct (decide (q' = q)) as [->|Hne].
    + exfalso. apply Hq.
      assert (puts_for q (zip_with (λ r q0, (q0, Value r)) rs qs) ≠ []) as Hne'
        by (by rewrite Hq').
      destruct (decide (q ∈ qs)) as [|Hnin]; [done|]. exfalso. apply Hne'.
      apply puts_for_none. intros p Hp%elem_of_zip_results Heq. by rewrite Heq in Hp.
    + unfold puts_for in *. rewrite filter_cons, decide_False by (simpl; congruence).
      done.
Qed.

Lemma puts_for_error_puts (msg : string) (qs : list nat) :
  NoDup qs →
  Forall (λ q, puts_for q ((λ q, (q, ErrorDict msg)) <$> qs) = [ErrorDict (Any:=Any) msg]) qs.
Proof.
  intros Hnd. induction Hnd as [|q qs Hq Hnd IH]; constructor.
  - rewrite fmap_cons. unfold puts_for. rewrite filter_cons, decide_True by done.
    simpl. f_equal. apply puts_for_none.
    intros p Hp%elem_of_error_puts Heq. by rewrite Heq in Hp.
  - rewrite Forall_forall in IH |- *. intros q' Hq'.
    rewrite fmap_cons. unfold puts_for in *.
    rewrite filter_cons, decide_False; [by apply IH|].
    simpl. intros ->. done.
Qed.

(** *** What [_process_batch] changes *)

Lemma process_batch_fields (s : state) (b : list Any) (rq : list nat) (flag : bool) :
  b ≠ [] →
  let s' := _process_batch s b rq flag in
  running s' = running s ∧ request_queue s' = request_queue s
  ∧ threads s' = threads s ∧ next_queue s' = next_queue s
  ∧ dispatched s' = dispatched s ++ [Dispatch b rq flag (compute b)]
  ∧ puts s' = puts s ++
      match compute b with
      | Return R => zip_with (λ r q, (q, Value r)) R rq
      | Raise e => (λ q, (q, ErrorDict (str_of_exn e))) <$> rq
      end.
Proof.
  intros Hb. destruct b as [|r b]; [done|]. unfold _process_batch, compute.
  destruct (match process_fn with Some f => f (r :: b) | None => Return (r :: b) end);
    by destruct flag.
Qed.

Lemma writes_puts_for (s : state) (q : nat) : writes s q = puts_for q (puts s).
Proof. reflexivity. Qed.

(** *** The bookkeeping of result queues is kept by every step *)

Lemma pending_lt (sub : list Any) (s : state) (q : nat) :
  slots_inv process_fn sub s → q ∈ pending s → is_Some (sub !! q).
Proof.
  intros (_ & Hq & Ht & _) Hin. unfold pending in Hin.
  apply elem_of_app in Hin as [Hin|Hin].
  - apply list_elem_of_fmap in Hin as ([r q'] & -> & Hp).
    rewrite Forall_forall in Hq. specialize (Hq _ Hp). by eexists.
  - apply list_elem_of_bind in Hin as (t & Hqt & Htin).
    rewrite Forall_forall in Ht. specialize (Ht _ Htin).
    apply list_elem_of_lookup_1 in Hqt as [i Hi].
    destruct (Forall2_lookup_r _ _ _ _ _ Ht Hi) as (r & _ & Hr). by eexists.
Qed.

Lemma paired_mono (sub sub' : list Any) (b : list Any) (rq : list nat) :
  (∀ q r, sub !! q = Some r → sub' !! q = Some r) →
  paired sub b rq → paired sub' b rq.
Proof.
  intros Hsub Hp. eapply Forall2_impl; [exact Hp|]. simpl. auto.
Qed.

Lemma delivered_mono (sub sub' : list Any) (s s' : state) (d : dispatch Any) :
  (∀ q r, sub !! q = Some r → sub' !! q = Some r) →
  (∀ q, q ∈ pending s' → q ∈ pending s ∨ sub !! q = None) →
  (∀ q, q ∈ d_queues d → writes s' q = writes s q) →
  delivered process_fn sub s d → delivered process_fn sub' s' d.
Proof.
  intros Hsub Hpend Hw (Hne & Hout & Hpair & Hnd & Hnot & Hval).
  split_and!; [done|done|by eapply paired_mono|done| |].
  - intros q Hq Hq'. destruct (Hpend q Hq') as [Hp|Hnone]; [by apply (Hnot q)|].
    apply list_elem_of_lookup_1 in Hq as [i Hi].
    destruct (Forall2_lookup_r _ _ _ _ _ Hpair Hi) as (r & _ & Hr). congruence.
  - destruct (d_outcome d) as [R|e].
    + intros Hlen. specialize (Hval Hlen).
      apply Forall2_same_length_lookup. split; [by eapply Forall2_length|].
      intros i v q Hv Hq. rewrite Hw by (by eapply list_elem_of_lookup_2).
      by apply (Forall2_lookup_lr _ _ _ _ _ _ Hval Hv Hq).
    + rewrite Forall_forall in Hval |- *. intros q Hq. rewrite Hw by done. auto.
Qed.

Lemma slots_inv_stop (sub : list Any) (s : state) :
  slots_inv process_fn sub s → slots_inv process_fn sub (stop s).
Proof.
  intros (H1 & H2 & H3 & H4 & H5 & H6 & H7). by split_and!.
Qed.

Lemma slots_inv_start (sub : list Any) (s : state) (now : Q) :
  slots_inv process_fn sub s → slots_inv process_fn sub (start s now).
Proof.
  intros Hs. unfold start. destruct (running s); [done|].
  destruct Hs as (H1 & H2 & H3 & H4 & H5 & H6 & H7).
  assert (pending (St true (request_queue s) (metrics s)
            (threads s ++ [Thread [] [] now AtLoopTest])
            (next_queue s) (puts s) (dispatched s)) = pending s) as Hp.
  { unfold pending. cbn [request_queue threads].
    rewrite bind_app. simpl. by rewrite app_nil_r. }
  split_and!.
  - done.
  - done.
  - cbn [threads]. apply Forall_app. split; [done|].
    constructor; [|constructor]. constructor.
  - by rewrite Hp.
  - intros q. rewrite Hp. apply H5.
  - done.
  - eapply Forall_impl; [done|]. intros d. apply delivered_mono; auto.
    intros q. rewrite Hp. auto.
Qed.

Lemma slots_inv_process (sub : list Any) (s : state) (request : Any) :
  slots_inv process_fn sub s → slots_inv process_fn (sub ++ [request]) (process s request).
Proof.
  intros Hs.
  assert (∀ q, q ∈ pending s → is_Some (sub !! q)) as Hlt
    by (intros q; by apply pending_lt).
  destruct Hs as (H1 & H2 & H3 & H4 & H5 & H6 & H7).
  assert (∀ q r, sub !! q = Some r → (sub ++ [request]) !! q = Some r) as Hsub.
  { intros q r Hq. by apply lookup_app_l_Some. }
  assert (pending (process s request) ≡ₚ next_queue s :: pending s) as Hp.
  { unfold pending, process. cbn [request_queue threads].
    rewrite fmap_app. simpl. solve_Permutation. }
  assert (next_queue s ∉ pending s) as Hfresh.
  { intros [r Hr]%Hlt. apply lookup_lt_Some in Hr. lia. }
  split_and!.
  - cbn. rewrite length_app. simpl. lia.
  - cbn [process request_queue]. apply Forall_app. split.
    + eapply Forall_impl; [done|]. intros [r q]; simpl. apply Hsub.
    + repeat constructor. simpl. rewrite H1.
      by rewrite lookup_app_r, Nat.sub_diag by lia.
  - cbn [process threads]. eapply Forall_impl; [done|]. intros t.
    by apply paired_mono.
  - rewrite Hp. by constructor.
  - intros q. rewrite Hp. intros [->|Hq]%elem_of_cons.
    + rewrite writes_puts_for. apply puts_for_none. cbn [process puts].
      intros p Hp' Heq. specialize (H6 p Hp'). lia.
    + by apply H5.
  - cbn [process puts next_queue]. intros p Hp'. specialize (H6 p Hp'). lia.
  - cbn [process dispatched]. eapply Forall_impl; [done|]. intros d.
    apply delivered_mono; [done| |done].
    intros q. rewrite Hp. intros [->|Hq]%elem_of_cons; [right|by left].
    apply lookup_ge_None. lia.
Qed.

Lemma slots_inv_retag (sub : list Any) (s : state) (tid : nat) (t : thread)
    (last' : Q) (pc' : pc_t) :
  threads s !! tid = Some t → slots_inv process_fn sub s →
  slots_inv process_fn sub
    (set_thread s tid (Thread (batch t) (result_queues t) last' pc')).
Proof.
  intros Ht (H1 & H2 & H3 & H4 & H5 & H6 & H7).
  set (t' := Thread (batch t) (result_queues t) last' pc').
  assert (pending (set_thread s tid t') ≡ₚ pending s) as Hp.
  { by rewrite (pending_set_thread s tid t t'), (pending_thread s tid t). }
  split_and!.
  - done.
  - done.
  - cbn [set_thread threads]. apply Forall_insert; [done|].
    by apply (Forall_lookup_1 _ _ _ _ H3 Ht).
  - by rewrite Hp.
  - intros q. rewrite Hp. apply H5.
  - done.
  - eapply Forall_impl; [done|]. intros d. apply delivered_mono; auto.
    intros q. rewrite Hp. auto.
Qed.

Lemma slots_inv_take_item (sub : list Any) (s : state) (tid : nat) (t : thread)
    (r : Any) (q : nat) (rest : list (Any * nat)) :
  threads s !! tid = Some t → request_queue s = (r, q) :: rest →
  slots_inv process_fn sub s → slots_inv process_fn sub (take_item s tid t r q rest).
Proof.
  intros Ht Hq (H1 & H2 & H3 & H4 & H5 & H6 & H7).
  rewrite Hq in H2. apply Forall_cons in H2 as [Hrq H2]. simpl in Hrq.
  assert (pending (take_item s tid t r q rest) ≡ₚ pending s) as Hp.
  { unfold take_item. rewrite (pending_set_thread _ tid t) by done.
    rewrite (pending_thread s tid t), Hq by done. cbn.
    solve_Permutation. }
  split_and!.
  - done.
  - done.
  - cbn [take_item set_thread threads]. apply Forall_insert; [done|].
    cbn [batch result_queues]. apply Forall2_app.
    + by apply (Forall_lookup_1 _ _ _ _ H3 Ht).
    + by repeat constructor.
  - by rewrite Hp.
  - intros q'. rewrite Hp. apply H5.
  - done.
  - eapply Forall_impl; [done|]. intros d. apply delivered_mono; auto.
    intros q'. rewrite Hp. auto.
Qed.

Lemma slots_inv_flush (sub : list Any) (s : state) (tid : nat) (t : thread)
    (flag : bool) (now : Q) :
  threads s !! tid = Some t → batch t ≠ [] →
  slots_inv process_fn sub s → slots_inv process_fn sub (flush s tid t flag now).
Proof.
  intros Ht Hb Hs.
  assert (∀ q, q ∈ pending s → is_Some (sub !! q)) as Hlt
    by (intros q; by apply pending_lt).
  destruct Hs as (H1 & H2 & H3 & H4 & H5 & H6 & H7).
  destruct (process_batch_fields s (batch t) (result_queues t) flag Hb)
    as (Hrun & Hqueue & Hthreads & Hnext & Hdisp & Hputs).
  set (s1 := _process_batch s (batch t) (result_queues t) flag) in *.
  set (new := match compute (batch t) with
              | Return R => zip_with (λ r q, (q, Value r)) R (result_queues t)
              | Raise e => (λ q, (q, ErrorDict (str_of_exn e))) <$> result_queues t
              end) in *.
  assert (∀ p, p ∈ new → p.1 ∈ result_queues t) as Hnew.
  { intros p. subst new. destruct (compute (batch t)).
    - apply elem_of_zip_results.
    - apply elem_of_error_puts. }
  set (others := (request_queue s).*2 ++ (delete tid (threads s) ≫= result_queues)).
  assert (pending s ≡ₚ result_queues t ++ others) as Hps
    by (by apply pending_thread).
  assert (pending (flush s tid t flag now) ≡ₚ others) as Hp.
  { unfold flush. fold s1. rewrite (pending_set_thread s1 tid t) by (by rewrite Hthreads).
    by rewrite Hqueue, Hthreads. }
  rewrite Hps in H4. apply NoDup_app in H4 as (Hndq & Hdisj & Hndo).
  assert (∀ q, writes (flush s tid t flag now) q = writes s q ++ puts_for q new) as Hw.
  { intros q. unfold flush. fold s1. rewrite !writes_puts_for.
    cbn [set_thread puts]. by rewrite Hputs, puts_for_app. }
  assert (∀ q, q ∉ result_queues t → puts_for q new = []) as Hnone.
  { intros q Hq. apply puts_for_none. intros p Hp' Heq. apply Hq.
    rewrite <-Heq. by apply Hnew. }
  assert (paired sub (batch t) (result_queues t)) as Hpair
    by (by apply (Forall_lookup_1 _ _ _ _ H3 Ht)).
  split_and!.
  - unfold flush. fold s1. cbn [set_thread next_queue]. congruence.
  - unfold flush. fold s1. cbn [set_thread request_queue]. by rewrite Hqueue.
  - unfold flush. fold s1. cbn [set_thread threads]. rewrite Hthreads.
    apply Forall_insert; [done|]. constructor.
  - by rewrite Hp.
  - intros q. rewrite Hp. intros Hq. rewrite Hw, H5, Hnone; [done| |].
    + intros Hin. by apply (Hdisj q).
    + rewrite Hps. apply elem_of_app. by right.
  - unfold flush. fold s1. cbn [set_thread puts next_queue]. rewrite Hputs, Hnext.
    intros p [Hp'|Hp']%elem_of_app; [by apply H6|].
    apply Hnew in Hp'.
    destruct (Hlt p.1) as [r Hr].
    { rewrite Hps. apply elem_of_app. by left. }
    apply lookup_lt_Some in Hr. lia.
  - unfold flush at 2. fold s1. cbn [set_thread dispatched]. rewrite Hdisp.
    apply Forall_app. split.
    + eapply Forall_impl; [done|]. intros d Hd. eapply delivered_mono; [done| | |done].
      * intros q. rewrite Hp. intros Hq. left. rewrite Hps. apply elem_of_app. by right.
      * intros q Hq. rewrite Hw, Hnone; [by rewrite app_nil_r|].
        intros Hin. destruct Hd as (_ & _ & _ & _ & Hnot & _).
        apply (Hnot q Hq). rewrite Hps. apply elem_of_app. by left.
    + constructor; [|constructor].
      split_and!; cbn [d_batch d_queues d_outcome]; [done|done|done|done| |].
      * intros q Hq. rewrite Hp. by apply Hdisj.
      * assert (∀ q, q ∈ result_queues t → writes s q = []) as Hempty.
        { intros q Hq. apply H5. rewrite Hps. apply elem_of_app. by left. }
        subst new. destruct (compute (batch t)) as [R|e].
        -- intros Hlen.
           assert (length R = length (result_queues t)) as Hlen'
             by (rewrite Hlen; by eapply Forall2_length).
           pose proof (puts_for_zip_results R (result_queues t) Hndq Hlen') as Hz.
           apply Forall2_same_length_lookup. split; [done|].
           intros i v q Hv Hq.
           rewrite Hw, Hempty by (by eapply list_elem_of_lookup_2).
           by apply (Forall2_lookup_lr _ _ _ _ _ _ Hz Hv Hq).
        -- pose proof (puts_for_error_puts (str_of_exn e) (result_queues t) Hndq) as Hz.
           rewrite Forall_forall in Hz |- *. intros q Hq.
           rewrite Hw, Hempty by done. by apply Hz.
Qed.

(** *** The moves of a dispatch thread, case by case *)

Lemma process_batch_set_thread (s : state) (tid : nat) (t : thread)
    (b : list Any) (rq : list nat) (flag : bool) :
  _process_batch (set_thread s tid t) b rq flag
  = set_thread (_process_batch s b rq flag) tid t.
Proof.
  destruct b as [|r b]; [done|]. unfold _process_batch.
  destruct (match process_fn with Some f => f (r :: b) | None => Return (r :: b) end);
    by destruct flag.
Qed.

Lemma set_thread_set_thread (s : state) (tid : nat) (t t' : thread) :
  set_thread (set_thread s tid t) tid t' = set_thread s tid t'.
Proof. unfold set_thread. cbn. by rewrite list_insert_insert_eq. Qed.

Lemma get_item_cases (s : state) (tid : nat) (now : Q) :
  get_item s tid now = s
  ∨ ∃ t r q rest,
      threads s !! tid = Some t ∧ request_queue s = (r, q) :: rest
      ∧ (∃ timeout, pc t = InGet timeout)
      ∧ let t' := Thread (batch t ++ [r]) (result_queues t ++ [q])
                    (last_batch_time t) AtLoopTest in
        (¬ max_batch_size ≤ Z.of_nat (length (batch t')) ∧
         get_item s tid now = take_item s tid t r q rest)
        ∨ (max_batch_size ≤ Z.of_nat (length (batch t')) ∧
           threads (take_item s tid t r q rest) !! tid = Some t' ∧
           get_item s tid now
           = flush (take_item s tid t r q rest) tid t' false now).
Proof.
  unfold get_item.
  destruct (threads s !! tid) as [[b rq last p]|] eqn:Ht; [|by left].
  destruct p as [|timeout|]; [by left| |by left].
  destruct (request_queue s) as [|[r q] rest] eqn:Hq; [by left|].
  right. exists (Thread b rq last (InGet timeout)), r, q, rest.
  split_and!; [done|done|by eexists|]. cbn [batch result_queues last_batch_time].
  case_decide as Hfull; [right|left; by split].
  split_and!; [done| |].
  - unfold take_item, set_thread. cbn [threads].
    apply list_lookup_insert_eq. by eapply lookup_lt_Some.
  - unfold flush, take_item. cbn [batch result_queues].
    by rewrite process_batch_set_thread, set_thread_set_thread.
Qed.

Lemma get_empty_cases (s : state) (tid : nat) (now : Q) :
  get_empty s tid now = s
  ∨ ∃ t, threads s !! tid = Some t ∧ request_queue s = []
         ∧ (∃ timeout, pc t = InGet (Some timeout))
         ∧ ((batch t ≠ [] ∧ get_empty s tid now = flush s tid t true now)
            ∨ (batch t = [] ∧
               get_empty s tid now
               = set_thread s tid (Thread (batch t) (result_queues t) now AtLoopTest))).
Proof.
  unfold get_empty.
  destruct (threads s !! tid) as [[b rq last p]|] eqn:Ht; [|by left].
  destruct p as [|[timeout|]|]; try by left.
  destruct (request_queue s) as [|[r q] rest] eqn:Hq; [|by left].
  right. exists (Thread b rq last (InGet (Some timeout))).
  split_and!; [done|done|by eexists|]. cbn [batch result_queues].
  destruct b as [|r b]; [right; by split|left; by split].
Qed.

Lemma loop_test_cases (s : state) (tid : nat) (now : Q) :
  loop_test s tid now = s
  ∨ ∃ t pc', threads s !! tid = Some t ∧ pc t = AtLoopTest
             ∧ loop_test s tid now
               = set_thread s tid
                   (Thread (batch t) (result_queues t) (last_batch_time t) pc').
Proof.
  unfold loop_test.
  destruct (threads s !! tid) as [[b rq last p]|] eqn:Ht; [|by left].
  destruct p; try by left.
  right. exists (Thread b rq last AtLoopTest).
  destruct (running s); eexists; by split_and!.
Qed.

Lemma slots_inv_step (sub : list Any) (s : state) (l : label) :
  slots_inv process_fn sub s →
  slots_inv process_fn (sub ++ submitted [l]) (step s l).
Proof.
  intros Hs. destruct l as [now| |request|tid now|tid now|tid now];
    cbn [step submitted omap list_omap]; rewrite ?app_nil_r.
  - by apply slots_inv_start.
  - by apply slots_inv_stop.
  - by apply slots_inv_process.
  - destruct (loop_test_cases s tid now) as [->|(t & pc' & Ht & _ & ->)]; [done|].
    by apply slots_inv_retag.
  - destruct (get_item_cases s tid now)
      as [->|(t & r & q & rest & Ht & Hq & _ & [[_ ->]|(_ & Ht' & ->)])]; [done| |].
    + by apply slots_inv_take_item.
    + apply slots_inv_flush; [done| |by apply slots_inv_take_item].
      cbn [batch]. by destruct (batch t).
  - destruct (get_empty_cases s tid now)
      as [->|(t & Ht & Hq & _ & [[Hb ->]|[Hb ->]])]; [done| |].
    + by apply slots_inv_flush.
    + by apply slots_inv_retag.
Qed.

Lemma slots_inv_init : slots_inv process_fn [] init.
Proof.
  unfold slots_inv, init. cbn. split_and!; try done; try constructor.
  all: intros x Hx; by apply not_elem_of_nil in Hx.
Qed.

Lemma run_snoc (ls : list label) (l : label) (s : state) :
  run (ls ++ [l]) s = step (run ls s) l.
Proof. unfold BatchProcessor.run. by rewrite foldl_app. Qed.

Lemma slots_inv_run (ls : list label) :
  slots_inv process_fn (submitted ls) (run ls init).
Proof.
  induction ls as [|l ls IH] using rev_ind; [apply slots_inv_init|].
  rewrite run_snoc. unfold submitted. rewrite omap_app.
  by apply slots_inv_step.
Qed.

Lemma flush_fields (s : state) (tid : nat) (t : thread) (flag : bool) (now : Q) :
  batch t ≠ [] →
  threads (flush s tid t flag now) = <[tid := Thread [] [] now AtLoopTest]> (threads s)
  ∧ dispatched (flush s tid t flag now)
    = dispatched s ++ [Dispatch (batch t) (result_queues t) flag (compute (batch t))]
  ∧ running (flush s tid t flag now) = running s.
Proof.
  intros Hb.
  destruct (process_batch_fields s (batch t) (result_queues t) flag Hb)
    as (Hrun & _ & Hthreads & _ & Hdisp & _).
  unfold flush. cbn [set_thread threads dispatched running].
  by rewrite Hthreads, Hdisp, Hrun.
Qed.

Lemma thread_move_preserves (P : state → Prop) :
  (∀ s tid t last' pc',
     threads s !! tid = Some t → P s →
     P (set_thread s tid (Thread (batch t) (result_queues t) last' pc'))) →
  (∀ s tid t r q rest,
     threads s !! tid = Some t → request_queue s = (r, q) :: rest → P s →
     P (take_item s tid t r q rest)) →
  (∀ s tid t flag now,
     threads s !! tid = Some t → batch t ≠ [] →
     (flag = false → max_batch_size ≤ Z.of_nat (length (batch t))) →
     P s → P (flush s tid t flag now)) →
  ∀ s l, is_thread_move l = true → P s → P (step s l).
Proof.
  intros Hretag Htake Hflush s l Hl Hs.
  destruct l as [now| |request|tid now|tid now|tid now]; try done; cbn [BatchProcessor.step].
  - destruct (loop_test_cases s tid now) as [->|(t & pc' & Ht & _ & ->)]; [done|].
    by apply Hretag.
  - destruct (get_item_cases s tid now)
      as [->|(t & r & q & rest & Ht & Hq & _ & [[_ ->]|(Hfull & Ht' & ->)])]; [done| |].
    + by apply Htake.
    + apply Hflush; [done| |done|by apply Htake].
      cbn [batch]. by destruct (batch t).
  - destruct (get_empty_cases s tid now)
      as [->|(t & Ht & Hq & _ & [[Hb ->]|[Hb ->]])]; [done| |].
    + by apply Hflush.
    + by apply Hretag.
Qed.

Lemma dispatched_step_prefix (s : state) (l : label) :
  dispatched s `prefix_of` dispatched (step s l).
Proof.
  destruct (is_thread_move l) eqn:Hl.
  - generalize (reflexivity (dispatched s) : dispatched s `prefix_of` dispatched s).
    generalize s at 2 4 as s'. intros s'. revert s' l Hl.
    apply (thread_move_preserves (λ s', dispatched s `prefix_of` dispatched s')).
    + done.
    + done.
    + intros s' tid t flag now Ht Hb _ Hpre.
      destruct (flush_fields s' tid t flag now Hb) as (_ & -> & _).
      by apply prefix_app_r.
  - destruct l; try done; cbn [BatchProcessor.step].
    unfold start. by destruct (running s).
Qed.

Lemma dispatched_run_prefix (s : state) (ls : list label) :
  dispatched s `prefix_of` dispatched (run ls s).
Proof.
  induction ls as [|l ls IH] using rev_ind; [done|].
  rewrite run_snoc. etrans; [apply IH|apply dispatched_step_prefix].
Qed.

Lemma run_app (ls ls' : list label) (s : state) :
  run (ls ++ ls') s = run ls' (run ls s).
Proof. unfold BatchProcessor.run. by rewrite foldl_app. Qed.

(** A batch handed to [_process_batch] is in the log from then on. *)
Lemma handed_dispatched (s : state) (l : label) (b : list Any) (rq : list nat)
    (flag : bool) (ls' : list label) :
  handed max_batch_size s l b rq flag →
  b ≠ [] ∧ Dispatch b rq flag (compute b) ∈ dispatched (run ls' (step s l)).
Proof.
  intros Hh.
  assert (b ≠ [] ∧ ∃ tid t s1 now,
            batch t = b ∧ result_queues t = rq ∧ step s l = flush s1 tid t flag now
            ∧ dispatched s1 = dispatched s) as (Hb & tid & t' & s1 & now & Hbt & Hrq & Hstep & Hd).
  { destruct l as [| | | |tid now|tid now]; try done; cbn [BatchProcessor.step].
    - destruct Hh as (t & r & q & rest & wait & Ht & Hpc & Hq & -> & -> & Hfull & ->).
      split; [by destruct (batch t)|].
      destruct (get_item_cases s tid now)
        as [Hsame|(t0 & r0 & q0 & rest0 & Ht0 & Hq0 & _ & [[Hnot _]|(_ & _ & Hflush)])].
      + exfalso. unfold get_item in Hsame. rewrite Ht, Hq in Hsame.
        destruct t as [b0 rq0 last p]. cbn in Hpc. subst p.
        cbn [batch] in Hfull. rewrite decide_True in Hsame by done.
        apply (f_equal request_queue) in Hsame. rewrite Hq in Hsame.
        cbn [set_thread request_queue] in Hsame.
        destruct (process_batch_fields
                    (St (running s) rest (metrics s) (threads s) (next_queue s)
                        (puts s) (dispatched s))
                    (b0 ++ [r]) (rq0 ++ [q]) false) as (_ & Hrq' & _);
          [by destruct b0|].
        rewrite Hrq' in Hsame. cbn in Hsame.
        apply (f_equal length) in Hsame. cbn in Hsame. lia.
      + exfalso. assert (t0 = t) as -> by congruence.
        rewrite Hq in Hq0. injection Hq0 as <- <- <-. cbn [batch] in Hnot. done.
      + assert (t0 = t) as -> by congruence.
        rewrite Hq in Hq0. injection Hq0 as <- <- <-.
        eexists tid, _, _, now. split_and!; [| |exact Hflush|]; done.
    - destruct Hh as (t & wait & Ht & Hpc & Hq & -> & -> & Hne & ->).
      split; [done|].
      destruct (get_empty_cases s tid now)
        as [Hsame|(t0 & Ht0 & _ & _ & [[_ Hflush]|[Hnil _]])].
      + exfalso. unfold get_empty in Hsame. rewrite Ht, Hq in Hsame.
        destruct t as [b0 rq0 last p]. cbn in Hpc. subst p. cbn [batch] in Hne.
        destruct b0 as [|r0 b0]; [done|].
        apply (f_equal dispatched) in Hsame. cbn [set_thread dispatched] in Hsame.
        destruct (process_batch_fields s (r0 :: b0) rq0 true) as (_ & _ & _ & _ & Hd & _);
          [done|].
        rewrite Hd in Hsame. apply (f_equal length) in Hsame.
        rewrite length_app in Hsame. cbn in Hsame. lia.
      + assert (t0 = t) as -> by congruence.
        exists tid, t, s, now. by split_and!.
      + assert (t0 = t) as -> by congruence. done. }
  split; [done|].
  destruct (dispatched_run_prefix (step s l) ls') as [k ->].
  apply elem_of_app. left. rewrite Hstep.
  destruct (flush_fields s1 tid t' flag now) as (_ & -> & _); [by rewrite Hbt|].
  rewrite Hbt, Hrq. apply elem_of_app. right. by left.
Qed.

(** C1. Take any run of the processor and a move of the dispatch loop in
    it that hands a batch to [_process_batch], and so to [process_fn].
    From then on, in every continuation of the run: the batch is in the
    log; its [i]-th result queue is the queue created by [process] for its
    [i]-th request, and no queue occurs twice; if [process_fn] returned a
    list [R] as long as the batch, the only value ever put on the [i]-th
    queue is [R[i]]; if it raised [e], the only value put on each queue of
    the batch is [{"error": str(e)}]. And every batch in the log of a run
    has these properties. *)
Theorem dispatched_slots_written_once
    (ls ls' : list label) (l : label) (b : list Any) (rq : list nat) (flag : bool) :
  handed max_batch_size (run ls init) l b rq flag →
  let s := run (ls ++ l :: ls') init in
  Dispatch b rq flag (compute b) ∈ dispatched s
  ∧ length rq = length b
  ∧ (∀ i q, rq !! i = Some q → b !! i = submitted (ls ++ l :: ls') !! q)
  ∧ NoDup rq
  ∧ match compute b with
    | Return R =>
        length R = length b →
        ∀ i q, rq !! i = Some q → ∃ v, R !! i = Some v ∧ writes s q = [Value v]
    | Raise e =>
        ∀ q, q ∈ rq → writes s q = [ErrorDict (str_of_exn e)]
    end
  ∧ ∀ d, d ∈ dispatched s →
      d_outcome d = compute (d_batch d)
      ∧ length (d_queues d) = length (d_batch d)
      ∧ (∀ i q, d_queues d !! i = Some q
                → d_batch d !! i = submitted (ls ++ l :: ls') !! q)
      ∧ NoDup (d_queues d)
      ∧ match d_outcome d with
        | Return R =>
            length R = length (d_batch d) →
            ∀ i q, d_queues d !! i = Some q →
                   ∃ v, R !! i = Some v ∧ writes s q = [Value v]
        | Raise e =>
            ∀ q, q ∈ d_queues d → writes s q = [ErrorDict (str_of_exn e)]
        end.
Proof.
  intros Hh s.
  assert (Hlog : ∀ d, d ∈ dispatched s →
      d_outcome d = compute (d_batch d)
      ∧ length (d_queues d) = length (d_batch d)
      ∧ (∀ i q, d_queues d !! i = Some q
                → d_batch d !! i = submitted (ls ++ l :: ls') !! q)
      ∧ NoDup (d_queues d)
      ∧ match d_outcome d with
        | Return R =>
            length R = length (d_batch d) →
            ∀ i q, d_queues d !! i = Some q →
                   ∃ v, R !! i = Some v ∧ writes s q = [Value v]
        | Raise e =>
            ∀ q, q ∈ d_queues d → writes s q = [ErrorDict (str_of_exn e)]
        end).
  { intros d Hd.
    destruct (slots_inv_run (ls ++ l :: ls')) as (_ & _ & _ & _ & _ & _ & Hall).
    rewrite Forall_forall in Hall.
    destruct (Hall d Hd) as (_ & Hout & Hpair & Hnd & _ & Hval).
    split_and!; [done|symmetry; by eapply Forall2_length| |done|].
    - intros i q Hq.
      destruct (Forall2_lookup_r _ _ _ _ _ Hpair Hq) as (r & -> & Hr). by symmetry.
    - destruct (d_outcome d) as [R|e].
      + intros Hlen i q Hq. specialize (Hval Hlen).
        destruct (Forall2_lookup_r _ _ _ _ _ Hval Hq) as (v & Hv & Hw). by exists v.
      + intros q Hq. rewrite Forall_forall in Hval. by apply Hval. }
  assert (Hin : Dispatch b rq flag (compute b) ∈ dispatched s).
  { subst s. rewrite run_app. change (run (l :: ls') ?s0) with (run ls' (step s0 l)).
    by apply handed_dispatched. }
  destruct (Hlog _ Hin) as (_ & H2 & H3 & H4 & H5).
  cbn [d_outcome d_batch d_queues] in H2, H3, H4, H5. by split_and!.
Qed.

(** *** Sizes of batches *)

Lemma size_inv_retag (s : state) (tid : nat) (t : thread) (last' : Q) (pc' : pc_t) :
  threads s !! tid = Some t → size_inv max_batch_size s →
  size_inv max_batch_size
    (set_thread s tid (Thread (batch t) (result_queues t) last' pc')).
Proof.
  intros Ht [Hth Hd]. split; [|done]. cbn [set_thread threads].
  apply Forall_insert; [done|]. by apply (Forall_lookup_1 _ _ _ _ Hth Ht).
Qed.

Lemma size_inv_flush (s : state) (tid : nat) (t : thread) (flag : bool) (now : Q) :
  1 ≤ max_batch_size → batch t ≠ [] →
  Z.of_nat (length (batch t)) ≤ max_batch_size →
  (flag = false → Z.of_nat (length (batch t)) = max_batch_size) →
  Forall (λ t, Z.of_nat (length (batch t)) < max_batch_size)
    (<[tid := Thread [] [] now AtLoopTest]> (threads s)) →
  Forall (λ d, 1 ≤ Z.of_nat (length (d_batch d)) ≤ max_batch_size
               ∧ (d_timeout d = false →
                  Z.of_nat (length (d_batch d)) = max_batch_size))
    (dispatched s) →
  size_inv max_batch_size (flush s tid t flag now).
Proof.
  intros Hmax Hb Hle Hfull Hth Hd. unfold size_inv.
  destruct (flush_fields s tid t flag now Hb) as (-> & -> & _). split; [done|].
  apply Forall_app. split; [done|]. constructor; [|constructor].
  cbn [d_batch d_timeout]. split; [|done].
  destruct (batch t); [done|]. simpl in *. lia.
Qed.

Lemma size_inv_step (s : state) (l : label) :
  1 ≤ max_batch_size → size_inv max_batch_size s → size_inv max_batch_size (step s l).
Proof.
  intros Hmax Hs. destruct l as [now| |request|tid now|tid now|tid now]; cbn [step].
  - unfold start. destruct (running s); [done|]. destruct Hs as [Hth Hd].
    split; [|done]. cbn [threads]. apply Forall_app. split; [done|].
    constructor; [simpl; lia|constructor].
  - done.
  - done.
  - destruct (loop_test_cases s tid now) as [->|(t & pc' & Ht & _ & ->)];
      [done|]. by apply size_inv_retag.
  - destruct Hs as [Hth Hd].
    destruct (get_item_cases s tid now)
      as [->|(t & r & q & rest & Ht & Hq & _ & [[Hlt ->]|(Hfull & Ht' & ->)])];
      [done| |].
    + split; [|done].
      cbn [take_item set_thread threads]. apply Forall_insert; [done|].
      cbn [batch] in *. lia.
    + pose proof (Forall_lookup_1 _ _ _ _ Hth Ht) as Hb. simpl in Hb.
      cbn [batch] in Hfull. rewrite length_app in Hfull. simpl in Hfull.
      apply size_inv_flush; cbn [batch]; rewrite ?length_app; simpl; try lia.
      * by destruct (batch t).
      * rewrite list_insert_insert_eq. apply Forall_insert; [done|]. simpl. lia.
      * done.
  - destruct Hs as [Hth Hd].
    destruct (get_empty_cases s tid now)
      as [->|(t & Ht & Hq & _ & [[Hb ->]|[Hb ->]])]; [done| |].
    + pose proof (Forall_lookup_1 _ _ _ _ Hth Ht) as Hlt. simpl in Hlt.
      apply size_inv_flush; try done; try lia.
      apply Forall_insert; [done|]. simpl. lia.
    + by apply size_inv_retag.
Qed.

Lemma size_inv_run (ls : list label) :
  1 ≤ max_batch_size → size_inv max_batch_size (run ls init).
Proof.
  intros Hmax. induction ls as [|l ls IH] using rev_ind.
  - split; constructor.
  - rewrite run_snoc. by apply size_inv_step.
Qed.

(** C3. With [max_batch_size ≥ 1], every batch ever handed to
    [process_fn] has between one and [max_batch_size] requests, a batch
    processed because it was full has exactly [max_batch_size], and no
    dispatch thread ever rests with a batch that has reached the bound:
    the request that fills a batch triggers its processing in the same
    iteration. *)
Theorem batch_size_bound (ls : list label) :
  1 ≤ max_batch_size →
  let s := run ls init in
  (∀ d, d ∈ dispatched s →
        1 ≤ Z.of_nat (length (d_batch d)) ≤ max_batch_size
        ∧ (d_timeout d = false → Z.of_nat (length (d_batch d)) = max_batch_size))
  ∧ (∀ t, t ∈ threads s → Z.of_nat (length (batch t)) < max_batch_size).
Proof.
  intros Hmax s. destruct (size_inv_run ls Hmax) as [Hth Hd].
  split.
  - intros d Hin. by apply (proj1 (Forall_forall _ _) Hd d).
  - intros t Hin. by apply (proj1 (Forall_forall _ _) Hth t).
Qed.

Lemma process_batch_metrics (s : state) (r : Any) (b : list Any) (rq : list nat)
    (flag : bool) :
  let s1 := _process_batch s (r :: b) rq flag in
  match compute (r :: b) with
  | Return _ =>
      total_batches (metrics s1) = total_batches (metrics s) + 1
      ∧ timeout_batches (metrics s1)
        = timeout_batches (metrics s) + (if flag then 1 else 0)
      ∧ full_batches (metrics s1)
        = full_batches (metrics s) + (if flag then 0 else 1)
      ∧ total_requests (metrics s1) = total_requests (metrics s)
  | Raise _ => metrics s1 = metrics s
  end.
Proof.
  unfold _process_batch, compute.
  destruct (match process_fn with Some f => f (r :: b) | None => Return (r :: b) end);
    [|done].
  destruct flag; cbn; split_and!; lia.
Qed.

Lemma count_batches_snoc (P : dispatch Any → bool) (s s' : state) (d : dispatch Any) :
  dispatched s' = dispatched s ++ [d] →
  count_batches P s' = count_batches P s + (if P d then 1 else 0).
Proof.
  intros Hd. unfold count_batches.
  rewrite Hd, filter_app, length_app, Nat2Z.inj_add. f_equal.
  rewrite filter_cons, filter_nil.
  case_decide as HP; [by rewrite HP|]. by destruct (P d).
Qed.

Lemma metrics_inv_same (s s' : state) :
  total_batches (metrics s') = total_batches (metrics s) →
  timeout_batches (metrics s') = timeout_batches (metrics s) →
  full_batches (metrics s') = full_batches (metrics s) →
  dispatched s' = dispatched s →
  metrics_inv s → metrics_inv s'.
Proof.
  intros H1 H2 H3 Hd (Ha & Hb & Hc). unfold metrics_inv, count_batches in *.
  rewrite H1, H2, H3, Hd. done.
Qed.

Lemma metrics_inv_flush (s : state) (tid : nat) (t : thread) (flag : bool) (now : Q) :
  batch t ≠ [] → metrics_inv s → metrics_inv (flush s tid t flag now).
Proof.
  intros Hb (Ha & Hc & Hd).
  destruct (flush_fields s tid t flag now Hb) as (_ & Hdisp & _).
  destruct (batch t) as [|r b] eqn:Hbt; [done|].
  pose proof (process_batch_metrics s r b (result_queues t) flag) as Hm.
  unfold metrics_inv.
  rewrite !(count_batches_snoc _ s _ _ Hdisp).
  unfold succeeded at 2 4 6. cbn [d_outcome d_timeout].
  change (metrics (flush s tid t flag now))
    with (metrics (_process_batch s (batch t) (result_queues t) flag)).
  rewrite Hbt. destruct (compute (r :: b)).
  - destruct Hm as (-> & -> & -> & _). rewrite Ha, Hc, Hd.
    destruct flag; simpl; split_and!; lia.
  - rewrite Hm, Ha, Hc, Hd. simpl. split_and!; lia.
Qed.

Lemma metrics_inv_step (s : state) (l : label) :
  metrics_inv s → metrics_inv (step s l).
Proof.
  intros Hs. destruct l as [now| |request|tid now|tid now|tid now]; cbn [step].
  - unfold start. destruct (running s); [done|]. by eapply metrics_inv_same.
  - by eapply metrics_inv_same.
  - by eapply metrics_inv_same.
  - destruct (loop_test_cases s tid now) as [->|(t & pc' & Ht & _ & ->)];
      [done|]. by eapply metrics_inv_same.
  - destruct (get_item_cases s tid now)
      as [->|(t & r & q & rest & Ht & Hq & _ & [[Hlt ->]|(Hfull & Ht' & ->)])];
      [done| |].
    + by eapply metrics_inv_same.
    + apply metrics_inv_flush; [cbn [batch]; by destruct (batch t)|].
      by eapply metrics_inv_same.
  - destruct (get_empty_cases s tid now)
      as [->|(t & Ht & Hq & _ & [[Hb ->]|[Hb ->]])]; [done| |].
    + by apply metrics_inv_flush.
    + by eapply metrics_inv_same.
Qed.

Lemma metrics_inv_run (ls : list label) : metrics_inv (run ls init).
Proof.
  induction ls as [|l ls IH] using rev_ind; [done|].
  rewrite run_snoc. by apply metrics_inv_step.
Qed.

Lemma count_batches_split (s : state) :
  count_batches succeeded s
  = count_batches (λ d, succeeded d && negb (d_timeout d)) s
    + count_batches (λ d, succeeded d && d_timeout d) s.
Proof.
  unfold count_batches. induction (dispatched s) as [|d l IH]; [done|].
  rewrite !filter_cons.
  destruct (succeeded d), (d_timeout d); simpl; repeat case_decide; try done;
    simpl length; lia.
Qed.

(** C10. In every state of every run, the snapshot of [get_metrics] has
    [total_batches = full_batches + timeout_batches]; more precisely the
    three counters count the processed batches whose computation
    returned, all of them, those processed on a full batch and those
    processed on an expired window. A call of [_process_batch] on a
    non-empty batch whose computation returns adds one to [total_batches]
    and to exactly one of the other two; one whose computation raises
    leaves all metrics, [avg_batch_size] included, as they were. *)
Theorem metrics_total_is_full_plus_timeout (ls : list label) :
  let s := run ls init in
  total_batches (get_metrics s)
  = full_batches (get_metrics s) + timeout_batches (get_metrics s)
  ∧ metrics_inv s
  ∧ ∀ (s0 : state) (r : Any) (b : list Any) (rq : list nat) (flag : bool),
      let s1 := _process_batch s0 (r :: b) rq flag in
      match compute (r :: b) with
      | Return _ =>
          total_batches (metrics s1) = total_batches (metrics s0) + 1
          ∧ timeout_batches (metrics s1)
            = timeout_batches (metrics s0) + (if flag then 1 else 0)
          ∧ full_batches (metrics s1)
            = full_batches (metrics s0) + (if flag then 0 else 1)
      | Raise _ => metrics s1 = metrics s0
      end.
Proof.
  intros s. pose proof (metrics_inv_run ls) as Hinv. fold s in Hinv.
  split_and!; [|done|].
  - destruct Hinv as (Ha & Hb & Hc). cbn [get_metrics total_batches full_batches
      timeout_batches]. rewrite Ha, Hb, Hc. apply count_batches_split.
  - intros s0 r b rq flag.
    pose proof (process_batch_metrics s0 r b rq flag) as Hm.
    destruct (compute (r :: b)); [|done]. destruct Hm as (? & ? & ? & _). done.
Qed.

(** *** Every wait has a deadline *)

Lemma deadline_inv_step (s : state) (l : label) :
  deadline_inv timeout_ms s → deadline_inv timeout_ms (step s l).
Proof.
  unfold deadline_inv. intros Hs.
  destruct l as [now| |request|tid now|tid now|tid now]; cbn [step].
  - unfold start. destruct (running s); [done|]. cbn [threads].
    apply Forall_app. split; [done|]. by repeat constructor.
  - done.
  - done.
  - unfold BatchProcessor.loop_test.
    destruct (threads s !! tid) as [[b rq last p]|] eqn:Ht; [|done].
    destruct p; try done.
    destruct (running s); cbn [set_thread threads]; (apply Forall_insert; [done|]);
      cbn [pc last_batch_time]; intros timeout [= <-]. by exists now.
  - destruct (get_item_cases s tid now)
      as [->|(t & r & q & rest & Ht & Hq & _ & [[Hlt ->]|(Hfull & Ht' & ->)])];
      [done| |].
    + cbn [take_item set_thread threads]. by apply Forall_insert.
    + destruct (flush_fields (take_item s tid t r q rest) tid
                  (Thread (batch t ++ [r]) (result_queues t ++ [q])
                     (last_batch_time t) AtLoopTest) false now) as (-> & _).
      { cbn [batch]. by destruct (batch t). }
      apply Forall_insert; [|done].
      cbn [take_item set_thread threads]. by apply Forall_insert.
  - destruct (get_empty_cases s tid now)
      as [->|(t & Ht & Hq & _ & [[Hb ->]|[Hb ->]])]; [done| |].
    + destruct (flush_fields s tid t true now Hb) as (-> & _).
      by apply Forall_insert.
    + cbn [set_thread threads]. by apply Forall_insert.
Qed.

Lemma deadline_inv_run (ls : list label) : deadline_inv timeout_ms (run ls init).
Proof.
  induction ls as [|l ls IH] using rev_ind; [constructor|].
  rewrite run_snoc. by apply deadline_inv_step.
Qed.

(** The deadline of a wait: the reading of the clock plus the timeout
    computed from it is the end of the window that began at
    [last_batch_time], or the reading itself when the window is over. *)
Lemma wait_deadline (now last : Q) :
  let d := Qmax 0 (timeout_ms - (now - last)) in
  (0 <= d)%Q
  ∧ (now + d == Qmax now (last + timeout_ms))%Q
  ∧ ∀ now', (now + d <= now')%Q → (last + timeout_ms <= now')%Q.
Proof.
  intros d. subst d.
  destruct (Q.max_spec 0 (timeout_ms - (now - last))) as [[H1 E1]|[H1 E1]];
    destruct (Q.max_spec now (last + timeout_ms)) as [[H2 E2]|[H2 E2]];
    rewrite E1, E2; (split_and!; [lra|lra|intros now' Hn; lra]).
Qed.

(** Where [last_batch_time] changes: a thread's [last_batch_time] is left
    as it is by every step except the thread's own [get] that fills the
    batch and its own [get] that raises [Empty]; both set it to the clock
    and leave an empty batch. *)
Lemma last_batch_time_step (s : state) (l : label) (tid : nat) (t t' : thread) :
  threads s !! tid = Some t → threads (step s l) !! tid = Some t' →
  last_batch_time t' = last_batch_time t
  ∨ ∃ now, (l = GetItem tid now ∨ l = GetEmpty tid now)
           ∧ last_batch_time t' = now ∧ batch t' = [].
Proof.
  intros Ht Ht'.
  assert (Hlt : (tid < length (threads s))%nat) by (by eapply lookup_lt_Some).
  assert (Hins : ∀ tid0 t0 (x : thread),
             threads s !! tid0 = Some t0 →
             <[tid0 := x]> (threads s) !! tid = Some t' →
             (tid0 = tid ∧ t0 = t ∧ x = t') ∨ (tid0 ≠ tid ∧ t' = t)).
  { intros tid0 t0 x Ht0 Hx. destruct (decide (tid0 = tid)) as [->|Hne].
    - left. rewrite list_lookup_insert_eq in Hx by done. split_and!; congruence.
    - right. rewrite list_lookup_insert_ne in Hx by done. split; congruence. }
  destruct l as [now| |request|tid0 now|tid0 now|tid0 now]; cbn [step] in Ht'.
  - left. unfold start in Ht'. destruct (running s); [congruence|].
    cbn [threads] in Ht'. rewrite lookup_app_l in Ht' by done. congruence.
  - left. cbn in Ht'. congruence.
  - left. cbn in Ht'. congruence.
  - left. destruct (loop_test_cases s tid0 now) as [Heq|(t0 & pc' & Ht0 & _ & Heq)];
      rewrite Heq in Ht'; [congruence|].
    cbn [set_thread threads] in Ht'.
    destruct (Hins _ _ _ Ht0 Ht') as [(-> & -> & <-)|[_ ->]]; done.
  - destruct (get_item_cases s tid0 now)
      as [Heq|(t0 & r & q & rest & Ht0 & Hq & _ & [[_ Heq]|(_ & _ & Heq)])];
      rewrite Heq in Ht'; [left; congruence| |].
    + left. cbn [take_item set_thread threads] in Ht'.
      destruct (Hins _ _ _ Ht0 Ht') as [(-> & -> & <-)|[_ ->]]; done.
    + destruct (flush_fields (take_item s tid0 t0 r q rest) tid0
                  (Thread (batch t0 ++ [r]) (result_queues t0 ++ [q])
                     (last_batch_time t0) AtLoopTest) false now) as (Hth & _).
      { cbn [batch]. by destruct (batch t0). }
      rewrite Hth in Ht'. cbn [take_item set_thread threads] in Ht'.
      rewrite list_insert_insert_eq in Ht'.
      destruct (Hins _ _ _ Ht0 Ht') as [(-> & -> & <-)|[_ ->]]; [right|by left].
      exists now. split_and!; [by left|done|done].
  - destruct (get_empty_cases s tid0 now)
      as [Heq|(t0 & Ht0 & Hq & _ & [[Hb Heq]|[Hb Heq]])];
      rewrite Heq in Ht'; [left; congruence| |].
    + destruct (flush_fields s tid0 t0 true now Hb) as (Hth & _).
      rewrite Hth in Ht'.
      destruct (Hins _ _ _ Ht0 Ht') as [(-> & -> & <-)|[_ ->]]; [right|by left].
      exists now. split_and!; [by right|done|done].
    + cbn [set_thread threads] in Ht'.
      destruct (Hins _ _ _ Ht0 Ht') as [(-> & -> & <-)|[_ ->]]; [right|by left].
      exists now. split_and!; [by right|done|done].
Qed.

(** C6, amended. The batch window is anchored at [last_batch_time], which
    is the clock read when the thread started, after the last full batch
    was processed, or when the last wait expired, and not at the arrival of
    the first request of the batch:
    - in every run, a thread blocked in [get] passed a timeout, also when
      its batch is empty, and that timeout was computed from the thread's
      [last_batch_time];
    - [start()] gives the new thread the clock as [last_batch_time];
    - the timeout of a wait is [max(0, timeout_ms - (now - last_batch_time))],
      so the deadline [now + timeout] is [last_batch_time + timeout_ms], or
      [now] when that is past, and a [get] that raises [Empty] no earlier
      than its deadline raises it no earlier than
      [last_batch_time + timeout_ms];
    - a request that does not fill the batch leaves [last_batch_time] as
      it was, also when it is the first of its batch;
    - the request that fills the batch has it processed with
      [timeout=False] and sets [last_batch_time] to the clock;
    - when the wait expires, a non-empty batch is processed with
      [timeout=True], and [last_batch_time] is set to the clock whether or
      not there was a batch;
    - no other step of any thread or caller changes a thread's
      [last_batch_time]. *)
Theorem batch_window_anchor
    (s : state) (tid : nat) (b : list Any) (rq : list nat) (last : Q) :
  (∀ ls t timeout, t ∈ threads (run ls init) → pc t = InGet timeout →
     ∃ now d, timeout = Some d
              ∧ d = Qmax 0 (timeout_ms - (now - last_batch_time t))
              ∧ (0 <= d)%Q
              ∧ (now + d == Qmax now (last_batch_time t + timeout_ms))%Q)
  ∧ (∀ now, running s = false →
            threads (start s now) = threads s ++ [Thread [] [] now AtLoopTest])
  ∧ (∀ now, threads s !! tid = Some (Thread b rq last AtLoopTest) →
            running s = true →
            let d := Qmax 0 (timeout_ms - (now - last)) in
            threads (loop_test s tid now) !! tid
            = Some (Thread b rq last (InGet (Some d)))
            ∧ (0 <= d)%Q
            ∧ (now + d == Qmax now (last + timeout_ms))%Q
            ∧ ∀ now', (now + d <= now')%Q → (last + timeout_ms <= now')%Q)
  ∧ (∀ now timeout r q rest,
       threads s !! tid = Some (Thread b rq last (InGet timeout)) →
       request_queue s = (r, q) :: rest →
       if decide (max_batch_size ≤ Z.of_nat (length (b ++ [r]))) then
         threads (get_item s tid now) !! tid = Some (Thread [] [] now AtLoopTest)
         ∧ dispatched (get_item s tid now)
           = dispatched s ++ [Dispatch (b ++ [r]) (rq ++ [q]) false (compute (b ++ [r]))]
       else
         threads (get_item s tid now) !! tid
         = Some (Thread (b ++ [r]) (rq ++ [q]) last AtLoopTest)
         ∧ dispatched (get_item s tid now) = dispatched s)
  ∧ (∀ now d,
       threads s !! tid = Some (Thread b rq last (InGet (Some d))) →
       request_queue s = [] →
       match b with
       | [] =>
           threads (get_empty s tid now) !! tid = Some (Thread [] rq now AtLoopTest)
           ∧ dispatched (get_empty s tid now) = dispatched s
       | _ :: _ =>
           threads (get_empty s tid now) !! tid = Some (Thread [] [] now AtLoopTest)
           ∧ dispatched (get_empty s tid now)
             = dispatched s ++ [Dispatch b rq true (compute b)]
       end)
  ∧ (∀ l t t', threads s !! tid = Some t → threads (step s l) !! tid = Some t' →
       last_batch_time t' = last_batch_time t
       ∨ ∃ now, (l = GetItem tid now ∨ l = GetEmpty tid now)
                ∧ last_batch_time t' = now ∧ batch t' = []).
Proof.
  split_and!.
  - intros ls t timeout Ht Hpc. pose proof (deadline_inv_run ls) as Hinv.
    unfold deadline_inv in Hinv. rewrite Forall_forall in Hinv.
    destruct (Hinv t Ht timeout Hpc) as [now ->].
    destruct (wait_deadline now (last_batch_time t)) as (H0 & Hd & _).
    by exists now, (Qmax 0 (timeout_ms - (now - last_batch_time t))).
  - intros now Hrun. unfold start. by rewrite Hrun.
  - intros now Ht Hrun d. destruct (wait_deadline now last) as (H0 & Hd & Hlow).
    split_and!; [|done..].
    unfold BatchProcessor.loop_test. rewrite Ht, Hrun.
    cbn [set_thread threads]. apply list_lookup_insert_eq. by eapply lookup_lt_Some.
  - intros now timeout r q rest Ht Hq.
    pose proof (lookup_lt_Some _ _ _ Ht) as Hlt.
    unfold BatchProcessor.get_item. rewrite Ht, Hq. case_decide as Hfull.
    + assert (b ++ [r] ≠ []) as Hne by (by destruct b).
      set (s0 := St (running s) rest (metrics s) (threads s) (next_queue s)
                    (puts s) (dispatched s)).
      destruct (process_batch_fields s0 (b ++ [r]) (rq ++ [q]) false Hne)
        as (_ & _ & Hth & _ & Hd & _).
      cbn [set_thread threads dispatched]. rewrite Hth, Hd. split; [|done].
      by apply list_lookup_insert_eq.
    + cbn [set_thread threads dispatched]. split; [|done].
      by apply list_lookup_insert_eq.
  - intros now d Ht Hq.
    pose proof (lookup_lt_Some _ _ _ Ht) as Hlt.
    unfold BatchProcessor.get_empty. rewrite Ht, Hq. destruct b as [|r b].
    + cbn [set_thread threads dispatched]. split; [|done].
      by apply list_lookup_insert_eq.
    + destruct (process_batch_fields s (r :: b) rq true ltac:(done))
        as (_ & _ & Hth & _ & Hd & _).
      cbn [set_thread threads dispatched]. rewrite Hth, Hd. split; [|done].
      by apply list_lookup_insert_eq.
  - intros l t t'. apply last_batch_time_step.
Qed.

Lemma halted_thread (s : state) (tid : nat) (t : thread) :
  halted s → threads s !! tid = Some t → pc t = Finished.
Proof. intros [_ Hth] Ht. by apply (Forall_lookup_1 _ _ _ _ Hth Ht). Qed.

Lemma halted_step (s : state) (l : label) :
  halted s → is_start l = false →
  halted (step s l) ∧ puts (step s l) = puts s.
Proof.
  intros Hs Hl. destruct l as [now| |request|tid now|tid now|tid now];
    cbn [step].
  - done.
  - split; [|done]. destruct Hs. by split.
  - split; [|done]. destruct Hs. by split.
  - destruct (loop_test_cases s tid now) as [->|(t & pc' & Ht & Hpc & _)];
      [done|]. rewrite (halted_thread s tid t Hs Ht) in Hpc. done.
  - destruct (get_item_cases s tid now)
      as [->|(t & r & q & rest & Ht & _ & [timeout Hpc] & _)]; [done|].
    rewrite (halted_thread s tid t Hs Ht) in Hpc. done.
  - destruct (get_empty_cases s tid now)
      as [->|(t & Ht & _ & [timeout Hpc] & _)]; [done|].
    rewrite (halted_thread s tid t Hs Ht) in Hpc. done.
Qed.

Lemma halted_run (s : state) (ls : list label) :
  halted s → forallb (λ l, negb (is_start l)) ls = true →
  halted (run ls s) ∧ puts (run ls s) = puts s.
Proof.
  induction ls as [|l ls IH] using rev_ind; intros Hs Hls; [done|].
  rewrite forallb_app in Hls. apply andb_true_iff in Hls as [Hls Hl].
  simpl in Hl. rewrite andb_true_r in Hl. apply negb_true_iff in Hl.
  destruct (IH Hs Hls) as [Hh Hp]. rewrite run_snoc.
  destruct (halted_step (run ls s) l Hh Hl) as [Hh' Hp']. split; [done|congruence].
Qed.

(** C8, amended. [stop()] clears the flag and completes nothing. A
    dispatch thread at the test of its loop then leaves the loop with its
    batch as it is, and writes nothing. Once the processor is stopped and
    its threads are past their loops, nothing is put on any result queue as
    long as [start()] is not called: the requests still waiting in the
    request queue or in a batch are never answered and their callers get
    [TimeoutError], and so does every later caller of [process]. There is
    no shutdown error, and the stopped state is not final: [start()] sets
    the flag again. *)
Theorem stop_abandons_pending (ls ls' : list label) :
  let s := stop (run ls init) in
  running s = false ∧ puts s = puts (run ls init) ∧ pending s = pending (run ls init)
  ∧ (∀ tid now t, threads s !! tid = Some t → pc t = AtLoopTest →
       threads (loop_test s tid now) !! tid
       = Some (Thread (batch t) (result_queues t) (last_batch_time t) Finished)
       ∧ puts (loop_test s tid now) = puts s)
  ∧ (halted s → forallb (λ l, negb (is_start l)) ls' = true →
       halted (run ls' s) ∧ puts (run ls' s) = puts s
       ∧ ∀ q, q ∈ pending s ∨ (next_queue s ≤ q)%nat →
              process_result (run ls' s) q
              = Raise (TimeoutError "Request processing timeout"))
  ∧ (∀ now, running (start s now) = true).
Proof.
  intros s. split_and!; try done.
  - intros tid now [b rq last p] Ht Hpc. simpl in Hpc. subst p.
    unfold BatchProcessor.loop_test. rewrite Ht. cbn [stop running set_thread threads puts].
    split; [|done]. apply list_lookup_insert_eq. by eapply lookup_lt_Some.
  - intros Hs Hls'. destruct (halted_run s ls' Hs Hls') as [Hh Hp].
    split_and!; [done|done|]. intros q Hq.
    unfold process_result.
    assert (writes (run ls' s) q = []) as ->; [|done].
    rewrite writes_puts_for, Hp. change (puts s) with (puts (run ls init)).
    rewrite <-writes_puts_for.
    pose proof (slots_inv_run ls)
      as (_ & _ & _ & _ & Hpend & Hputs & _).
    destruct Hq as [Hq|Hq].
    + by apply Hpend.
    + rewrite writes_puts_for. apply puts_for_none.
      intros p Hp' Heq. specialize (Hputs p Hp').
      change (next_queue s) with (next_queue (run ls init)) in Hq. lia.
Qed.

End CoalescerFacts.

(** *** Concrete runs of the coalescer *)

(** Two requests fill a batch of size two and the computation raises:
    both callers find the error dictionary on their queues, and nothing
    else is ever put there. The same run with the self-test's function
    gives each caller its own result. *)
Lemma dispatched_slots_written_once_witness :
  let ls := [BatchProcessor.Start 0; BatchProcessor.Process "req_0";
             BatchProcessor.Process "req_1";
             BatchProcessor.LoopTest 0 0; BatchProcessor.GetItem 0 0;
             BatchProcessor.LoopTest 0 0] in
  let l := BatchProcessor.GetItem 0 0 in
  let ls' := [BatchProcessor.LoopTest 0 0; BatchProcessor.GetEmpty 0 1;
              BatchProcessor.Stop] in
  let failed := BatchProcessor.run 2 (BatchProcessor.new_timeout 50) (Some demo_failing_fn)
                  (ls ++ l :: ls') BatchProcessor.init in
  let s := BatchProcessor.run 2 (BatchProcessor.new_timeout 50) (Some demo_process_fn)
             (ls ++ l :: ls') BatchProcessor.init in
  (BatchProcessor.dispatched failed
   = [BatchProcessor.Dispatch ["req_0"; "req_1"] [0; 1]%nat false
        (Raise (OtherError "model not loaded"))]
   ∧ BatchProcessor.puts failed
     = [(0%nat, BatchProcessor.ErrorDict "model not loaded");
        (1%nat, BatchProcessor.ErrorDict "model not loaded")]
   ∧ BatchProcessor.process_result failed 0
     = Return (BatchProcessor.ErrorDict "model not loaded")
   ∧ BatchProcessor.process_result failed 1
     = Return (BatchProcessor.ErrorDict "model not loaded"))
  ∧ (∀ q, q ∈ [0; 1]%nat →
          BatchProcessor.writes failed q = [BatchProcessor.ErrorDict "model not loaded"])
  ∧ (BatchProcessor.puts s
     = [(0%nat, BatchProcessor.Value "result_req_0");
        (1%nat, BatchProcessor.Value "result_req_1")])
  ∧ (∀ i q, [0; 1]%nat !! i = Some q →
            ∃ v, ["result_req_0"; "result_req_1"] !! i = Some v
                 ∧ BatchProcessor.writes s q = [BatchProcessor.Value v]).
Proof.
  intros ls l ls' failed s.
  assert (Hhand : ∀ f, handed 2
            (BatchProcessor.run 2 (BatchProcessor.new_timeout 50) (Some f) ls
               BatchProcessor.init) l ["req_0"; "req_1"] [0; 1]%nat false).
  { intros f.
    exists (BatchProcessor.Thread ["req_0"] [0%nat] 0
              (BatchProcessor.InGet (Some (Qmax 0 (BatchProcessor.new_timeout 50 - (0 - 0)))))),
           "req_1", 1%nat, [], (Some (Qmax 0 (BatchProcessor.new_timeout 50 - (0 - 0)))).
    split_and!; reflexivity. }
  split; [by vm_compute|].
  split.
  - pose proof (dispatched_slots_written_once 2 (BatchProcessor.new_timeout 50)
                  (Some demo_failing_fn) ls ls' l ["req_0"; "req_1"] [0; 1]%nat false
                  (Hhand demo_failing_fn)) as (_ & _ & _ & _ & Hw & _).
    exact Hw.
  - split; [by vm_compute|].
    pose proof (dispatched_slots_written_once 2 (BatchProcessor.new_timeout 50)
                  (Some demo_process_fn) ls ls' l ["req_0"; "req_1"] [0; 1]%nat false
                  (Hhand demo_process_fn)) as (_ & _ & _ & _ & Hw & _).
    exact (Hw eq_refl).
Defined.

(** Five requests with a bound of two: two full batches and, after the
    window expired, a batch of one. *)
Lemma batch_size_bound_witness :
  let s := BatchProcessor.run 2 (BatchProcessor.new_timeout 50) (Some demo_process_fn)
             [BatchProcessor.Start 0;
              BatchProcessor.Process "req_0"; BatchProcessor.Process "req_1";
              BatchProcessor.Process "req_2"; BatchProcessor.Process "req_3";
              BatchProcessor.Process "req_4";
              BatchProcessor.LoopTest 0 0; BatchProcessor.GetItem 0 0;
              BatchProcessor.LoopTest 0 0; BatchProcessor.GetItem 0 (1 # 100);
              BatchProcessor.LoopTest 0 (1 # 100); BatchProcessor.GetItem 0 (1 # 100);
              BatchProcessor.LoopTest 0 (1 # 100); BatchProcessor.GetItem 0 (2 # 100);
              BatchProcessor.LoopTest 0 (2 # 100); BatchProcessor.GetItem 0 (2 # 100);
              BatchProcessor.LoopTest 0 (2 # 100); BatchProcessor.GetEmpty 0 (7 # 100)]
             BatchProcessor.init in
  (BatchProcessor.d_batch <$> BatchProcessor.dispatched s
   = [["req_0"; "req_1"]; ["req_2"; "req_3"]; ["req_4"]])
  ∧ (∀ d, d ∈ BatchProcessor.dispatched s →
          1 ≤ Z.of_nat (length (BatchProcessor.d_batch d)) ≤ 2
          ∧ (BatchProcessor.d_timeout d = false →
             Z.of_nat (length (BatchProcessor.d_batch d)) = 2))
  ∧ (∀ t, t ∈ BatchProcessor.threads s →
          Z.of_nat (length (BatchProcessor.batch t)) < 2).
Proof.
  split; [vm_compute; reflexivity|].
  apply (batch_size_bound 2 (BatchProcessor.new_timeout 50) (Some demo_process_fn)).
  lia.
Defined.

(** C6, as stated, fails. With [timeout_ms=50]: the thread starts at clock 0
    and waits with an empty batch under a timeout of 50 ms, not without
    deadline; a first request taken at 40 ms leaves [last_batch_time] at 0,
    so the next wait is given the remaining 10 ms; and the batch is
    processed with [timeout=True] at 50 ms, 10 ms after its first request and
    not 50 ms after it. *)
Lemma window_not_anchored_at_first_request :
  let r10 := BatchProcessor.run 10 (BatchProcessor.new_timeout 50) (Some demo_process_fn) in
  let s1 := r10 [BatchProcessor.Start 0; BatchProcessor.LoopTest 0 0] BatchProcessor.init in
  let s2 := r10 [BatchProcessor.Process "req_0"; BatchProcessor.GetItem 0 (40 # 1000);
                 BatchProcessor.LoopTest 0 (40 # 1000)] s1 in
  let s3 := r10 [BatchProcessor.GetEmpty 0 (50 # 1000)] s2 in
  (∃ t d, BatchProcessor.threads s1 !! 0%nat = Some t
          ∧ BatchProcessor.batch t = []
          ∧ BatchProcessor.pc t = BatchProcessor.InGet (Some d) ∧ (d == 50 # 1000)%Q)
  ∧ (∃ t d, BatchProcessor.threads s2 !! 0%nat = Some t
            ∧ BatchProcessor.batch t = ["req_0"]
            ∧ (BatchProcessor.last_batch_time t == 0)%Q
            ∧ ¬ (BatchProcessor.last_batch_time t == 40 # 1000)%Q
            ∧ BatchProcessor.pc t = BatchProcessor.InGet (Some d) ∧ (d == 10 # 1000)%Q)
  ∧ BatchProcessor.dispatched s3
    = [BatchProcessor.Dispatch ["req_0"] [0%nat] true (Return ["result_req_0"])].
Proof.
  split_and!.
  - eexists _, _. split_and!; [vm_compute; reflexivity|reflexivity|reflexivity|].
    vm_compute. reflexivity.
  - eexists _, _.
    split_and!; [vm_compute; reflexivity|reflexivity|reflexivity| |reflexivity|].
    + intros H. vm_compute in H. discriminate.
    + vm_compute. reflexivity.
  - vm_compute. reflexivity.
Qed.

(** The same run, through the theorem: the state after a first request
    taken at 40 ms, and the wait that follows: its timeout is 10 ms, its
    deadline the end of the window that began at 0. *)
Lemma batch_window_anchor_witness :
  let r10 := BatchProcessor.run 10 (BatchProcessor.new_timeout 50) (Some demo_process_fn) in
  let s := r10 [BatchProcessor.Start 0; BatchProcessor.LoopTest 0 0;
                BatchProcessor.Process "req_0"] BatchProcessor.init in
  let s' := BatchProcessor.get_item 10 (Some demo_process_fn) s 0 (40 # 1000) in
  let d := Qmax 0 (BatchProcessor.new_timeout 50 - ((40 # 1000) - 0)) in
  (BatchProcessor.threads s' !! 0%nat
   = Some (BatchProcessor.Thread ["req_0"] [0%nat] 0 BatchProcessor.AtLoopTest)
   ∧ BatchProcessor.dispatched s' = BatchProcessor.dispatched s)
  ∧ (BatchProcessor.threads
       (BatchProcessor.loop_test (BatchProcessor.new_timeout 50) s' 0 (40 # 1000)) !! 0%nat
     = Some (BatchProcessor.Thread ["req_0"] [0%nat] 0 (BatchProcessor.InGet (Some d)))
     ∧ (0 <= d)%Q
     ∧ ((40 # 1000) + d == Qmax (40 # 1000) (0 + BatchProcessor.new_timeout 50))%Q
     ∧ ∀ now', ((40 # 1000) + d <= now')%Q
               → (0 + BatchProcessor.new_timeout 50 <= now')%Q)
  ∧ (d == 10 # 1000)%Q.
Proof.
  intros r10 s s' d. split; [|split].
  - destruct (batch_window_anchor 10 (BatchProcessor.new_timeout 50)
                (Some demo_process_fn) s 0 [] [] 0) as (_ & _ & _ & Hitem & _).
    apply (Hitem (40 # 1000) (Some (50 # 1000)) "req_0" 0%nat []);
      vm_compute; reflexivity.
  - destruct (batch_window_anchor 10 (BatchProcessor.new_timeout 50)
                (Some demo_process_fn) s' 0 ["req_0"] [0%nat] 0) as (_ & _ & Htest & _).
    apply (Htest (40 # 1000)); vm_compute; reflexivity.
  - by vm_compute.
Defined.

(** C8, as stated, fails. After [stop()] and the exit of the dispatch
    thread, the request in the thread's batch and the request in the queue
    have nothing on their result queues, and their callers get
    [TimeoutError]. A request submitted after [stop()], while the thread is
    still inside its last [get], is taken and answered. And [start()] after
    [stop()] runs the processor again. *)
Lemma stop_completes_nothing :
  let s := BatchProcessor.run 10 (BatchProcessor.new_timeout 50) (Some demo_process_fn)
             [BatchProcessor.Start 0; BatchProcessor.Process "req_0";
              BatchProcessor.LoopTest 0 0; BatchProcessor.GetItem 0 0;
              BatchProcessor.Process "req_1"; BatchProcessor.Stop;
              BatchProcessor.LoopTest 0 (1 # 100)] BatchProcessor.init in
  let s' := BatchProcessor.run 1 (BatchProcessor.new_timeout 50) (Some demo_process_fn)
              [BatchProcessor.Start 0; BatchProcessor.LoopTest 0 0; BatchProcessor.Stop;
               BatchProcessor.Process "late"; BatchProcessor.GetItem 0 0;
               BatchProcessor.LoopTest 0 0] BatchProcessor.init in
  (BatchProcessor.running s = false
   ∧ BatchProcessor.pc <$> BatchProcessor.threads s = [BatchProcessor.Finished]
   ∧ BatchProcessor.pending s = [1; 0]%nat
   ∧ BatchProcessor.puts s = []
   ∧ BatchProcessor.process_result s 0
     = Raise (TimeoutError "Request processing timeout")
   ∧ BatchProcessor.process_result s 1
     = Raise (TimeoutError "Request processing timeout"))
  ∧ (BatchProcessor.running s' = false
     ∧ BatchProcessor.pc <$> BatchProcessor.threads s' = [BatchProcessor.Finished]
     ∧ BatchProcessor.process_result s' 0 = Return (BatchProcessor.Value "result_late"))
  ∧ BatchProcessor.running (BatchProcessor.start s 1) = true.
Proof. vm_compute. repeat split. Qed.

(** The first run above, through the theorem: stopped with both requests
    unanswered, and whatever is tried next short of [start()], the three
    callers time out. *)
Lemma stop_abandons_pending_witness :
  let ls := [BatchProcessor.Start 0; BatchProcessor.Process "req_0";
             BatchProcessor.LoopTest 0 0; BatchProcessor.GetItem 0 0;
             BatchProcessor.Process "req_1"; BatchProcessor.Stop;
             BatchProcessor.LoopTest 0 (1 # 100)] in
  let ls' := [BatchProcessor.Process "req_2"; BatchProcessor.LoopTest 0 1;
              BatchProcessor.GetItem 0 1; BatchProcessor.GetEmpty 0 1;
              BatchProcessor.Stop] in
  let r10 := BatchProcessor.run 10 (BatchProcessor.new_timeout 50) (Some demo_process_fn) in
  let s := BatchProcessor.stop (r10 ls BatchProcessor.init) in
  halted (r10 ls' s) ∧ BatchProcessor.puts (r10 ls' s) = BatchProcessor.puts s
  ∧ ∀ q, q ∈ BatchProcessor.pending s ∨ (BatchProcessor.next_queue s ≤ q)%nat →
         BatchProcessor.process_result (r10 ls' s) q
         = Raise (TimeoutError "Request processing timeout").
Proof.
  intros ls ls' r10 s.
  destruct (stop_abandons_pending 10 (BatchProcessor.new_timeout 50)
              (Some demo_process_fn) ls ls') as (_ & _ & _ & _ & Hhalt & _).
  apply Hhalt.
  - split; [reflexivity|]. vm_compute. repeat constructor.
  - reflexivity.
Defined.

(** ** Removing endpoints, and the statistics of the ring *)
Section RingMoreFacts.
Import ConsistentHash RingStats.

Lemma ring_run_snoc (ops : list op) (o : op) (c : t) :
  run (ops ++ [o]) c = apply_op (run ops c) o.
Proof. unfold run. by rewrite foldl_app. Qed.

Lemma ring_run_app (ops ops' : list op) (c : t) :
  run (ops ++ ops') c = run ops' (run ops c).
Proof. unfold run. by rewrite foldl_app. Qed.

Lemma nodes_run_subseteq (ops : list op) (c : t) (n : string) :
  n ∈ nodes (run ops c) → n ∈ nodes c ∨ n ∈ added ops.
Proof.
  revert c. induction ops as [|o ops IH]; intros c; [by left|].
  change (run (o :: ops) c) with (run ops (apply_op c o)).
  intros [Hn|Hn]%IH.
  - destruct o as [m|m]; cbn in Hn; unfold add_node, remove_node in Hn;
      case_decide; cbn in Hn; try by left.
    + apply elem_of_union in Hn as [->%elem_of_singleton|Hn]; [|by left].
      right. cbn. by left.
    + apply elem_of_difference in Hn as [Hn _]. by left.
  - right. destruct o; cbn; [by right|done].
Qed.

Lemma demo_collision_free : collision_free 3 ["A"; "B"; "C"].
Proof. apply (bool_decide_unpack _). vm_compute. exact I. Qed.

(** X1. An endpoint that was removed and not added again is returned for
    no key, whatever the hashes are. *)
Theorem removed_endpoint_serves_no_key
    (V : Z) (ops ops' : list op) (e key : string) :
  e ∉ added ops' →
  get_node (run (ops ++ Remove e :: ops') (empty_ring V)) key ≠ Return (Some e).
Proof.
  intros Hadd Hget.
  apply get_node_Some_member in Hget; [|apply reachable_owned].
  rewrite ring_run_app in Hget.
  change (run (Remove e :: ops') ?c) with (run ops' (remove_node c e)) in Hget.
  apply nodes_run_subseteq in Hget as [Hget|Hget]; [|done].
  unfold remove_node in Hget. case_decide; [|done].
  cbn in Hget. apply elem_of_difference in Hget as [_ Hne].
  apply Hne. by apply elem_of_singleton.
Qed.

Lemma removed_endpoint_serves_no_key_witness :
  get_node (run ([Add "A"; Add "B"] ++ Remove "A" :: [Add "C"]) (empty_ring 3)) "req_0"
  ≠ Return (Some "A").
Proof.
  apply (removed_endpoint_serves_no_key 3 [Add "A"; Add "B"] [Add "C"] "A" "req_0").
  cbn. rewrite elem_of_cons, elem_of_nil. intros [[=]|[]].
Defined.

Lemma remove_node_lookup (c : t) (e : string) (h : Z) :
  e ∈ nodes c →
  ring (remove_node c e) !! h
  = if decide (h ∈ vhashes (virtual_nodes c) e) then None else ring c !! h.
Proof.
  intros He. unfold remove_node. rewrite decide_True by done. cbn.
  apply lookup_foldl_delete.
Qed.

Lemma serves_shrink (r r' : gmap Z string) (h pos : Z) :
  (∀ y, is_Some (r' !! y) → is_Some (r !! y)) → is_Some (r' !! pos) →
  serves r h pos → serves r' h pos.
Proof.
  intros Hsub Hpos [_ [[Hlt Hmin]|[Hall Hmin]]]; (split; [done|]).
  - left. split; [done|]. intros y Hy. apply Hmin. by apply Hsub.
  - right. split; intros y Hy; [apply Hall|apply Hmin]; by apply Hsub.
Qed.

Lemma get_node_at (c : t) (key : string) (pos : Z) (n : string) :
  consistent c → ring c !! pos = Some n → serves (ring c) (_hash key) pos →
  get_node c key = Return (Some n).
Proof.
  intros Hc Hpos Hs.
  assert (Hne : ring c ≠ ∅).
  { intros Hempty. rewrite Hempty in Hpos. by rewrite lookup_empty in Hpos. }
  destruct (get_node_spec c key Hc Hne) as (pos' & n' & Hget & Hpos' & Hs').
  rewrite (serves_unique _ _ _ _ Hs' Hs) in Hpos'. congruence.
Qed.

(** X2. In a ring whose endpoints have no colliding virtual nodes,
    [remove_node] changes the result of [get_node] only for the keys that
    the removed endpoint served: every other key keeps its endpoint. *)
Theorem remove_node_relocates_only_from_removed
    (V : Z) (U : list string) (ops : list op) (e key : string) :
  collision_free V U → (∀ n, n ∈ added ops → n ∈ U) →
  let c := run ops (empty_ring V) in
  get_node (remove_node c e) key ≠ get_node c key →
  get_node c key = Return (Some e) ∧ e ∈ nodes c.
Proof.
  intros Hcf HU c Hchange.
  destruct (tidy_run U V ops Hcf HU) as (Hex & _ & _). fold c in Hex.
  assert (Hc : consistent c) by apply reachable_consistent.
  assert (Hc' : consistent (remove_node c e)).
  { change (consistent (apply_op c (Remove e))). by apply consistent_apply_op. }
  destruct (decide (e ∈ nodes c)) as [He|He]; cycle 1.
  { exfalso. apply Hchange. unfold remove_node. by rewrite decide_False. }
  split; [|done].
  destruct (decide (ring c = ∅)) as [Hempty|Hne].
  { exfalso. apply Hchange. rewrite (get_node_empty c) by done.
    apply get_node_empty. apply map_eq. intros h.
    rewrite remove_node_lookup by done. rewrite Hempty, lookup_empty.
    by case_decide. }
  destruct (get_node_spec c key Hc Hne) as (pos & n & Hget & Hpos & Hs).
  destruct (decide (n = e)) as [->|Hn]; [done|].
  exfalso. apply Hchange. rewrite Hget.
  assert (Hpos' : ring (remove_node c e) !! pos = Some n).
  { rewrite remove_node_lookup by done. rewrite decide_False; [done|].
    intros Hin. assert (ring c !! pos = Some e) by (by apply Hex). congruence. }
  apply (get_node_at _ _ pos); [done..|].
  apply (serves_shrink (ring c)); [|by rewrite Hpos'|done].
  intros y. rewrite remove_node_lookup by done. case_decide; [|done].
  by intros [? [=]].
Qed.

Lemma remove_node_relocates_only_from_removed_witness :
  let c := run [Add "A"; Add "B"; Add "C"] (empty_ring 3) in
  get_node c "req_0" = Return (Some "C") ∧ "C" ∈ nodes c.
Proof.
  apply (remove_node_relocates_only_from_removed 3 ["A"; "B"; "C"]
           [Add "A"; Add "B"; Add "C"] "C" "req_0").
  - apply demo_collision_free.
  - intros n. cbn. rewrite !elem_of_cons, !elem_of_nil. tauto.
  - vm_compute. discriminate.
Defined.

(** X3. With colliding virtual nodes [remove_node] deletes a position that
    another endpoint owns: there are two endpoints such that, when both
    were added with one virtual node each and the first is removed, the
    second is still a member and [get_node] returns [None] for every key. *)
Theorem remove_node_drops_colliding_position :
  ∃ n1 n2 : string,
    n1 ≠ n2 ∧
    let c := new [n1; n2] 1 in
    (∀ key, get_node c key = Return (Some n2))
    ∧ n2 ∈ nodes (remove_node c n1)
    ∧ ∀ key, get_node (remove_node c n1) key = Return None.
Proof.
  destruct vnode_collision_exists as (n1 & n2 & Hne & Hcol).
  exists n1, n2. split; [done|]. intros c.
  destruct (collided_pair n1 n2 Hne Hcol) as [Hring Hnodes].
  assert (Hc : c = run [Add n1; Add n2] (empty_ring 1)) by apply new_run.
  assert (Hlook : ∀ key, get_node c key = Return (Some n2)).
  { intros key. by apply collided_pair_lookup. }
  clearbody c. rewrite <- Hc in Hring, Hnodes.
  assert (HV : virtual_nodes c = 1).
  { rewrite Hc. apply virtual_nodes_run. }
  assert (Hin : n1 ∈ nodes c).
  { rewrite Hnodes. apply elem_of_union_r, elem_of_union_l. by apply elem_of_singleton. }
  split; [done|].
  split.
  - unfold remove_node. rewrite decide_True by done. cbn.
    apply elem_of_difference. split.
    + rewrite Hnodes. apply elem_of_union_l. by apply elem_of_singleton.
    + intros ->%elem_of_singleton. done.
  - intros key. apply get_node_empty. apply map_eq. intros h.
    rewrite remove_node_lookup by done. rewrite HV, vhashes_one, lookup_empty.
    case_decide as Hh; [done|].
    rewrite Hring. apply lookup_singleton_None. intros <-.
    apply Hh. rewrite Hcol. by apply list_elem_of_singleton.
Qed.

(** X4. Without colliding virtual nodes, adding an endpoint that is not a
    member and removing it again gives back the ring as it was: [ring],
    [sorted_keys] and [nodes]. *)
Theorem add_then_remove_restores
    (V : Z) (U : list string) (ops : list op) (e : string) :
  collision_free V U → (∀ n, n ∈ added ops → n ∈ U) → e ∈ U →
  let c := run ops (empty_ring V) in
  e ∉ nodes c → remove_node (add_node c e) e = c.
Proof.
  intros Hcf HU HeU c He.
  destruct (tidy_run U V ops Hcf HU) as (Hex & Hmem & _). fold c in Hex, Hmem.
  assert (HV : virtual_nodes c = V) by apply virtual_nodes_run.
  assert (Hc : consistent c) by apply reachable_consistent.
  assert (Hin : e ∈ nodes (add_node c e)).
  { unfold add_node. rewrite decide_False by done. cbn.
    apply elem_of_union_l. by apply elem_of_singleton. }
  assert (HV' : virtual_nodes (add_node c e) = virtual_nodes c).
  { apply (virtual_nodes_apply_op c (Add e)). }
  assert (Hring : ring (remove_node (add_node c e) e) = ring c).
  { apply map_eq. intros h. rewrite remove_node_lookup by done.
    rewrite HV', add_node_lookup by done.
    case_decide as Hh; [|done].
    destruct (ring c !! h) as [n|] eqn:Hn; [|done].
    apply Hex in Hn as [Hn Hhn]. exfalso. apply He.
    rewrite HV in *.
    by rewrite (collision_free_owner V U e n h Hcf HeU (Hmem n Hn) Hh Hhn). }
  apply ring_eq.
  - by rewrite (virtual_nodes_apply_op (add_node c e) (Remove e) : virtual_nodes (remove_node _ _) = _).
  - done.
  - transitivity (sorted_of (ring (remove_node (add_node c e) e))).
    + unfold remove_node. by rewrite decide_True by done.
    + by rewrite Hring.
  - unfold remove_node. rewrite decide_True by done. cbn.
    unfold add_node. rewrite decide_False by done. cbn.
    apply set_eq. intros n. rewrite elem_of_difference, elem_of_union, !elem_of_singleton.
    split; [intros [[->|Hn] Hne]; done|].
    intros Hn. split; [by right|]. by intros ->.
Qed.

Lemma add_then_remove_restores_witness :
  remove_node (add_node (run [Add "A"; Add "B"] (empty_ring 3)) "C") "C"
  = run [Add "A"; Add "B"] (empty_ring 3).
Proof.
  apply (add_then_remove_restores 3 ["A"; "B"; "C"] [Add "A"; Add "B"] "C").
  - apply demo_collision_free.
  - intros n. cbn. rewrite !elem_of_cons, !elem_of_nil. tauto.
  - rewrite !elem_of_cons. tauto.
  - apply (bool_decide_unpack _). vm_compute. exact I.
Defined.

(** *** [get_distribution] *)

Lemma filter_none {A} (P : A → Prop) `{∀ x, Decision (P x)} (l : list A) :
  (∀ x, x ∈ l → ¬ P x) → filter P l = [].
Proof.
  induction l as [|x l IH]; intros HP; [done|].
  rewrite filter_cons, decide_False by (apply HP; by left).
  apply IH. intros y Hy. apply HP. by right.
Qed.

Lemma get_distribution_snoc (c : t) (keys : list string) (key : string) :
  get_distribution c (keys ++ [key]) = count_key c (get_distribution c keys) key.
Proof. unfold get_distribution. by rewrite foldl_app. Qed.

Lemma sum_counts_Permutation (l k : list Z) : l ≡ₚ k → sum_counts l = sum_counts k.
Proof.
  unfold sum_counts. induction 1; cbn in *; lia.
Qed.

Lemma sum_counts_insert (d : gmap string Z) (k : string) (m m' : Z) :
  d !! k = Some m →
  sum_counts (map_to_list (<[k := m']> d)).*2 = sum_counts (map_to_list d).*2 - m + m'.
Proof.
  intros Hk.
  assert (H1 : sum_counts (map_to_list (<[k := m']> d)).*2
               = sum_counts ((k, m') :: map_to_list (delete k d)).*2).
  { apply sum_counts_Permutation, fmap_Permutation.
    rewrite <- insert_delete_eq. apply map_to_list_insert, lookup_delete_eq. }
  assert (H2 : sum_counts (map_to_list d).*2
               = sum_counts ((k, m) :: map_to_list (delete k d)).*2).
  { apply sum_counts_Permutation, fmap_Permutation.
    symmetry. by apply map_to_list_delete. }
  rewrite H1, H2. cbn. lia.
Qed.

Lemma filter_all {A} (P : A → Prop) `{∀ x, Decision (P x)} (l : list A) :
  (∀ x, x ∈ l → P x) → filter P l = l.
Proof.
  induction l as [|x l IH]; intros HP; [done|].
  rewrite filter_cons, decide_True by (apply HP; by left).
  f_equal. apply IH. intros y Hy. apply HP. by right.
Qed.

Lemma sum_counts_zero (d : gmap string Z) :
  (∀ k v, d !! k = Some v → v = 0) → sum_counts (map_to_list d).*2 = 0.
Proof.
  intros Hz.
  assert (Hall : Forall (λ p, p.2 = 0) (map_to_list d)).
  { apply Forall_forall. intros [k v] Hin. apply elem_of_map_to_list in Hin.
    by apply (Hz k). }
  induction Hall as [|[k v] l Hv _ IH]; [done|]. cbn in *. unfold sum_counts in IH. lia.
Qed.

Lemma routed_to_snoc (c : t) (n : string) (keys : list string) (key : string) :
  routed_to c n (keys ++ [key])
  = routed_to c n keys ++ (if decide (get_node c key = Return (Some n)) then [key] else []).
Proof. unfold routed_to. by rewrite filter_app. Qed.

Lemma counted_snoc (c : t) (keys : list string) (key : string) :
  counted c (keys ++ [key])
  = counted c keys ++ (if is_counted (get_node c key) then [key] else []).
Proof.
  unfold counted. rewrite filter_app. f_equal.
  rewrite filter_cons, filter_nil. cbv beta.
  destruct (is_counted _) eqn:E; by case_decide.
Qed.

(** On a ring whose index agrees with its dictionary and whose positions
    all belong to members, [get_distribution] returns a dictionary over the
    members with the number of keys sent to each. *)
Lemma get_distribution_spec (c : t) (keys : list string) :
  consistent c → owned c →
  ∃ d, get_distribution c keys = Return d
       ∧ dom d = nodes c
       ∧ (∀ n, n ∈ nodes c →
            d !! n = Some (if decide (n = "") then 0
                           else Z.of_nat (length (routed_to c n keys))))
       ∧ sum_counts (map_to_list d).*2 = Z.of_nat (length (counted c keys)).
Proof.
  intros Hc Ho. induction keys as [|key keys IH] using rev_ind.
  - exists (gset_to_gmap 0 (nodes c)). split; [done|]. split; [apply dom_gset_to_gmap|].
    split.
    + intros n Hn. apply lookup_gset_to_gmap_Some. split; [done|]. by case_decide.
    + apply sum_counts_zero. intros k v [_ <-]%lookup_gset_to_gmap_Some. done.
  - destruct IH as (d & Hd & Hdom & Hcount & Hsum).
    rewrite get_distribution_snoc, Hd. unfold count_key.
    destruct (get_node c key) as [[e|]|err] eqn:Hget.
    + pose proof (get_node_Some_member c key e Ho Hget) as He.
      destruct e as [|a e].
      * exists d. split; [done|]. split; [done|]. split.
        -- intros n Hn. rewrite (Hcount n Hn). case_decide; [done|].
           rewrite routed_to_snoc, Hget, decide_False, app_nil_r; [done|].
           intros [= <-]. done.
        -- by rewrite counted_snoc, Hget, app_nil_r.
      * pose proof (Hcount _ He) as Hde. rewrite decide_False in Hde by done.
        rewrite Hde. eexists. split; [done|]. split.
        { rewrite dom_insert_lookup_L; [done|]. by rewrite Hde. }
        split.
        -- intros n Hn. destruct (decide (n = String a e)) as [->|Hne].
           ++ rewrite lookup_insert_eq. rewrite decide_False by done.
              rewrite routed_to_snoc, Hget, decide_True by done.
              rewrite length_app. cbn. f_equal. lia.
           ++ rewrite lookup_insert_ne by done. rewrite (Hcount n Hn).
              case_decide; [done|].
              rewrite routed_to_snoc, Hget, decide_False, app_nil_r; [done|].
              intros [= <-]. done.
        -- rewrite (sum_counts_insert _ _ _ _ Hde), Hsum.
           rewrite counted_snoc, Hget. cbn. rewrite length_app. cbn. lia.
    + exists d. split; [done|]. split; [done|]. split.
      * intros n Hn. rewrite (Hcount n Hn). case_decide; [done|].
        by rewrite routed_to_snoc, Hget, decide_False, app_nil_r.
      * by rewrite counted_snoc, Hget, app_nil_r.
    + exfalso. destruct (decide (ring c = ∅)) as [Hempty|Hne].
      * by rewrite get_node_empty in Hget.
      * destruct (get_node_spec c key Hc Hne) as (? & ? & Hget' & _). congruence.
Qed.

(** X5. On a ring reached by any membership operations
    [get_distribution] raises nothing; its result has one entry for each
    member, and the entry counts the keys of the list that [get_node]
    sends to that member. The entry of a member named by the empty string
    stays 0, since [if node:] skips it. *)
Theorem get_distribution_counts (V : Z) (ops : list op) (keys : list string) :
  let c := run ops (empty_ring V) in
  ∃ d, get_distribution c keys = Return d
       ∧ dom d = nodes c
       ∧ (∀ n, n ∈ nodes c →
            d !! n = Some (if decide (n = "") then 0
                           else Z.of_nat (length (routed_to c n keys)))).
Proof.
  intros c.
  destruct (get_distribution_spec c keys) as (d & Hd & Hdom & Hcount & _).
  - apply reachable_consistent.
  - apply reachable_owned.
  - by exists d.
Qed.

(** X6. The counts of [get_distribution] add up to at most the number
    of keys; to exactly that number when the ring has a position and no
    member is the empty string; and every count is 0 when the ring has no
    position. *)
Theorem get_distribution_total (V : Z) (ops : list op) (keys : list string) :
  let c := run ops (empty_ring V) in
  ∃ d, get_distribution c keys = Return d
       ∧ 0 ≤ sum_counts (map_to_list d).*2 ≤ Z.of_nat (length keys)
       ∧ (ring c ≠ ∅ → "" ∉ nodes c →
          sum_counts (map_to_list d).*2 = Z.of_nat (length keys))
       ∧ (ring c = ∅ → ∀ n, n ∈ nodes c → d !! n = Some 0).
Proof.
  intros c.
  assert (Hc : consistent c) by apply reachable_consistent.
  assert (Ho : owned c) by apply reachable_owned.
  destruct (get_distribution_spec c keys Hc Ho) as (d & Hd & Hdom & Hcount & Hsum).
  exists d. split; [done|]. rewrite Hsum. split; [|split].
  - split; [lia|]. apply inj_le. unfold counted. apply length_filter.
  - intros Hne Hnil. f_equal. unfold counted. f_equal.
    apply filter_all. intros key _.
    destruct (get_node_spec c key Hc Hne) as (pos & e & Hget & Hpos & _).
    rewrite Hget. destruct e as [|a e]; [|done].
    exfalso. apply Hnil. by apply (Ho pos).
  - intros Hempty n Hn. rewrite (Hcount n Hn). case_decide; [done|].
    unfold routed_to. rewrite filter_none; [done|].
    intros key _. by rewrite get_node_empty.
Qed.

Lemma add_node_keeps_owner (c : t) (e n key : string) :
  consistent c → n ≠ e →
  get_node (add_node c e) key = Return (Some n) →
  get_node c key = Return (Some n).
Proof.
  intros Hc Hne Hget.
  destruct (decide (e ∈ nodes c)) as [He|He].
  { unfold add_node in Hget. by rewrite decide_True in Hget. }
  assert (Hc' : consistent (add_node c e)).
  { change (consistent (apply_op c (Add e))). by apply consistent_apply_op. }
  destruct (decide (ring (add_node c e) = ∅)) as [Hempty|Hring].
  { by rewrite get_node_empty in Hget. }
  destruct (get_node_spec _ key Hc' Hring) as (pos & n' & Hget' & Hpos & Hs).
  assert (n' = n) as -> by congruence.
  destruct (add_node_serves c e (_hash key) pos n He Hs Hpos Hne) as [Hs0 Hpos0].
  by apply (get_node_at c key pos).
Qed.

Lemma length_filter_impl {A} (P Q : A → Prop)
    `{∀ x, Decision (P x)} `{∀ x, Decision (Q x)} (l : list A) :
  (∀ x, P x → Q x) → (length (filter P l) ≤ length (filter Q l))%nat.
Proof.
  intros HPQ. induction l as [|x l IH]; [done|].
  rewrite !filter_cons. destruct (decide (P x)) as [HP|HP].
  - rewrite decide_True by auto. cbn. lia.
  - case_decide; cbn; lia.
Qed.

(** X7. [add_node] moves keys to the new endpoint only: for every list of
    keys, the count of any other member after the addition is at most
    its count before, with or without colliding virtual nodes. *)
Theorem add_node_takes_keys_only
    (V : Z) (ops : list op) (e : string) (keys : list string) :
  let c := run ops (empty_ring V) in
  ∃ d d', get_distribution c keys = Return d
          ∧ get_distribution (add_node c e) keys = Return d'
          ∧ ∀ n a, n ≠ e → d !! n = Some a → ∃ b, d' !! n = Some b ∧ b ≤ a.
Proof.
  intros c.
  assert (Hc : consistent c) by apply reachable_consistent.
  assert (Ho : owned c) by apply reachable_owned.
  assert (Hc' : consistent (add_node c e)).
  { change (consistent (apply_op c (Add e))). by apply consistent_apply_op. }
  assert (Ho' : owned (add_node c e)).
  { change (owned (apply_op c (Add e))). by apply owned_apply_op. }
  destruct (get_distribution_spec c keys Hc Ho) as (d & Hd & Hdom & Hcount & _).
  destruct (get_distribution_spec _ keys Hc' Ho') as (d' & Hd' & Hdom' & Hcount' & _).
  exists d, d'. split; [done|]. split; [done|].
  intros n a Hne Hn.
  assert (Hin : n ∈ nodes c).
  { rewrite <- Hdom. apply elem_of_dom. by exists a. }
  assert (Hin' : n ∈ nodes (add_node c e)).
  { unfold add_node. case_decide; [done|]. cbn. by apply elem_of_union_r. }
  rewrite (Hcount n Hin) in Hn. injection Hn as <-.
  eexists. split; [by apply Hcount'|].
  case_decide; [done|]. apply inj_le. unfold routed_to.
  apply length_filter_impl. intros key. by apply add_node_keeps_owner.
Qed.

(** *** [get_load_balance_variance] *)

Lemma truediv_nonzero (a b : Q) : ¬ (b == 0)%Q → truediv a b = Return (a / b)%Q.
Proof.
  intros Hb. unfold truediv. destruct (Qeq_bool b 0) eqn:E; [|done].
  by apply Qeq_bool_iff in E.
Qed.

Lemma Qsquare_nonneg (y : Q) : (0 <= y ^ 2)%Q.
Proof.
  change (0 <= y * y)%Q. unfold Qle, Qmult. cbn. nia.
Qed.

Lemma sum_squares_nonneg (mean : Q) (counts : list Z) :
  (0 <= foldr Qplus 0 ((λ x, (inject_Z x - mean) ^ 2) <$> counts))%Q.
Proof.
  induction counts as [|x counts IH]; cbn [fmap list_fmap foldr]; [apply Qle_refl|].
  change 0%Q with (0 + 0)%Q. apply Qplus_le_compat; [apply Qsquare_nonneg|done].
Qed.

(** X8. [get_load_balance_variance] raises nothing on a ring reached by
    any membership operations, for any [num_keys]: no division is by zero.
    It returns 0 when there is no member, no position or no key, and a
    number that is not negative when the square root is not. *)
Theorem load_balance_variance_total
    (sqrt : Q → Q) (V : Z) (ops : list op) (num_keys : Z) :
  let c := run ops (empty_ring V) in
  ∃ v, get_load_balance_variance sqrt c num_keys = Return v
       ∧ (nodes c = ∅ ∨ ring c = ∅ ∨ num_keys ≤ 0 → v = 0%Q)
       ∧ ((∀ x, (0 <= x)%Q → (0 <= sqrt x)%Q) → (0 <= v)%Q).
Proof.
  intros c.
  assert (Hc : consistent c) by apply reachable_consistent.
  assert (Ho : owned c) by apply reachable_owned.
  unfold get_load_balance_variance.
  destruct (decide (nodes c = ∅)) as [Hnodes|Hnodes].
  { eexists. split; [done|]. split; [done|]. intros _. apply Qle_refl. }
  destruct (get_distribution_spec c (probe_keys num_keys) Hc Ho)
    as (d & -> & Hdom & Hcount & Hsum).
  destruct ((map_to_list d).*2) as [|x counts] eqn:Hcounts.
  { eexists. split; [done|]. split; [done|]. intros _. apply Qle_refl. }
  set (len := inject_Z (Z.of_nat (length (x :: counts)))).
  assert (Hlen : (0 < len)%Q).
  { unfold len. rewrite <- (Zlt_Qlt 0). cbn [length]. lia. }
  rewrite truediv_nonzero by (intros E; rewrite E in Hlen; by apply Qlt_irrefl in Hlen).
  set (mean := (inject_Z (sum_counts (x :: counts)) / len)%Q).
  rewrite truediv_nonzero by (intros E; rewrite E in Hlen; by apply Qlt_irrefl in Hlen).
  destruct (Qlt_le_dec 0 mean) as [Hmean|Hmean].
  - rewrite truediv_nonzero by (intros E; rewrite E in Hmean; by apply Qlt_irrefl in Hmean).
    eexists. split; [done|]. split.
    + intros Hzero. exfalso.
      assert (Hs : sum_counts (x :: counts) = 0).
      { rewrite Hsum. destruct Hzero as [?|[Hempty|Hk]]; [done| |].
        - unfold counted. rewrite filter_none; [done|].
          intros key _. by rewrite get_node_empty.
        - unfold probe_keys. by rewrite Z2Nat.nonpos. }
      unfold mean in Hmean. rewrite Hs in Hmean.
      apply (Qlt_irrefl 0). eapply Qlt_le_trans; [apply Hmean|].
      unfold Qdiv. rewrite Qmult_0_l. apply Qle_refl.
    + intros Hsqrt. apply Qmult_le_0_compat; [|done].
      apply Qle_shift_div_l; [done|]. rewrite Qmult_0_l.
      apply Hsqrt. apply Qle_shift_div_l; [done|]. rewrite Qmult_0_l.
      apply sum_squares_nonneg.
  - eexists. split; [done|]. split; [done|]. intros _. apply Qle_refl.
Qed.

End RingMoreFacts.

(** ** The coalescer: what becomes of every request *)
Section CoalescerMoreFacts.
Import BatchProcessor.
Context {Any : Type}.
Variable max_batch_size : Z.
Variable timeout_ms : Q.
Variable process_fn : option (list Any → result (list Any)).

Local Abbreviation state := (state Any).
Local Abbreviation thread := (thread Any).
Local Abbreviation label := (label Any).
Local Abbreviation step := (step max_batch_size timeout_ms process_fn).
Local Abbreviation run := (run max_batch_size timeout_ms process_fn).
Local Abbreviation _process_batch := (_process_batch process_fn).
Local Abbreviation compute := (compute process_fn).
Local Abbreviation flush := (flush process_fn).
Local Abbreviation loop_test := (loop_test timeout_ms).
Local Abbreviation get_item := (get_item max_batch_size process_fn).
Local Abbreviation get_empty := (get_empty process_fn).

Lemma flush_more_fields (s : state) (tid : nat) (t : thread) (flag : bool) (now : Q) :
  batch t ≠ [] →
  let d := Dispatch (batch t) (result_queues t) flag (compute (batch t)) in
  request_queue (flush s tid t flag now) = request_queue s
  ∧ next_queue (flush s tid t flag now) = next_queue s
  ∧ puts (flush s tid t flag now) = puts s ++ puts_of d
  ∧ total_requests (metrics (flush s tid t flag now)) = total_requests (metrics s).
Proof.
  intros Hb d.
  destruct (process_batch_fields process_fn s (batch t) (result_queues t) flag Hb)
    as (_ & Hqueue & _ & Hnext & _ & Hputs).
  unfold flush. cbn [set_thread request_queue next_queue puts metrics].
  split_and!; [done|done|done|].
  destruct (batch t) as [|r b] eqn:Hbt; [done|].
  pose proof (process_batch_metrics process_fn s r b (result_queues t) flag) as Hm.
  cbv zeta in Hm. destruct (compute (r :: b)).
  - by destruct Hm as (_ & _ & _ & Hm).
  - by rewrite Hm.
Qed.

Lemma flush_pending (s : state) (tid : nat) (t : thread) (flag : bool) (now : Q) :
  threads s !! tid = Some t → batch t ≠ [] →
  pending (flush s tid t flag now)
  ≡ₚ (request_queue s).*2 ++ (delete tid (threads s) ≫= result_queues).
Proof.
  intros Ht Hb.
  destruct (process_batch_fields process_fn s (batch t) (result_queues t) flag Hb)
    as (_ & Hqueue & Hthreads & _).
  unfold flush.
  rewrite (pending_set_thread _ tid t) by (by rewrite Hthreads).
  by rewrite Hqueue, Hthreads.
Qed.

(** *** No request is lost or answered twice *)

Lemma accounted_step (s : state) (l : label) : accounted s → accounted (step s l).
Proof.
  destruct (is_thread_move l) eqn:Hl.
  - revert s l Hl. apply thread_move_preserves.
    + intros s tid t last' pc' Ht (Hq & Hp & Hm). split_and!; [|done|done].
      cbn [set_thread dispatched next_queue].
      rewrite (pending_set_thread _ tid t) by done. cbn [result_queues].
      by rewrite <- (pending_thread s tid t).
    + intros s tid t r q rest Ht Hrq (Hq & Hp & Hm). split_and!; [|done|done].
      unfold take_item. cbn [set_thread dispatched next_queue].
      rewrite <- Hq. apply Permutation_app_head.
      rewrite (pending_set_thread _ tid t) by done.
      rewrite (pending_thread s tid t), Hrq by done. cbn. solve_Permutation.
    + intros s tid t flag now Ht Hb _ (Hq & Hp & Hm).
      destruct (flush_fields process_fn s tid t flag now Hb) as (Hthreads & Hdisp & _).
      destruct (flush_more_fields s tid t flag now Hb) as (Hqueue & Hnext & Hputs & Hreq).
      pose proof (flush_pending s tid t flag now Ht Hb) as Hpend.
      split_and!.
      * rewrite Hdisp, Hnext, <- Hq. rewrite bind_app, <- app_assoc.
        apply Permutation_app_head.
        rewrite Hpend, (pending_thread s tid t) by done.
        cbn. by rewrite app_nil_r.
      * by rewrite Hputs, Hdisp, bind_app, Hp; cbn; rewrite app_nil_r.
      * by rewrite Hreq, Hnext.
  - intros (Hq & Hp & Hm). destruct l as [now| |request|tid now|tid now|tid now]; try done;
      cbn [BatchProcessor.step].
    + unfold start. destruct (running s); [done|]. split_and!; [|done|done].
      unfold pending. cbn [request_queue threads dispatched next_queue].
      rewrite bind_app. cbn. by rewrite app_nil_r.
    + unfold process. split_and!; [|done|cbn; lia].
      unfold pending. cbn [request_queue threads dispatched next_queue].
      rewrite seq_S, fmap_app. cbn. rewrite <- Hq. unfold pending. solve_Permutation.
Qed.

Lemma accounted_run (ls : list label) : accounted (run ls init).
Proof.
  induction ls as [|l ls IH] using rev_ind.
  - split_and!; done.
  - rewrite run_snoc. by apply accounted_step.
Qed.

Lemma length_submitted_run (ls : list label) :
  next_queue (run ls init) = length (submitted ls).
Proof. by destruct (slots_inv_run max_batch_size timeout_ms process_fn ls) as (H & _). Qed.


(** *** Where an answer comes from *)

Lemma puts_of_queues (d : dispatch Any) (p : nat * slot_value Any) :
  p ∈ puts_of d → p.1 ∈ d_queues d.
Proof.
  unfold puts_of. destruct (d_outcome d).
  - apply elem_of_zip_results.
  - apply elem_of_error_puts.
Qed.

Lemma puts_for_not_dispatched (ds : list (dispatch Any)) (q : nat) :
  q ∉ ds ≫= d_queues → puts_for q (ds ≫= puts_of) = [].
Proof.
  intros Hq. apply puts_for_none. intros p Hp Heq. apply Hq.
  apply list_elem_of_bind in Hp as (d & Hp & Hd).
  apply list_elem_of_bind. exists d. split; [|done].
  rewrite <- Heq. by apply puts_of_queues.
Qed.

Lemma puts_for_bind (ds : list (dispatch Any)) (d : dispatch Any) (q : nat) :
  NoDup (ds ≫= d_queues) → d ∈ ds → q ∈ d_queues d →
  puts_for q (ds ≫= puts_of) = puts_for q (puts_of d).
Proof.
  induction ds as [|d0 ds IH]; intros Hnd Hd Hq; [by apply elem_of_nil in Hd|].
  rewrite bind_cons in Hnd. apply NoDup_app in Hnd as (Hnd0 & Hdisj & Hnd1).
  rewrite bind_cons, puts_for_app.
  destruct (decide (q ∈ d_queues d0)) as [Hq0|Hq0].
  - rewrite (puts_for_not_dispatched ds) by (by apply Hdisj).
    rewrite app_nil_r. apply elem_of_cons in Hd as [->|Hd]; [done|].
    exfalso. apply (Hdisj q Hq0). apply list_elem_of_bind. by exists d.
  - rewrite (puts_for_none q (puts_of d0)); cycle 1.
    { intros p Hp Heq. apply Hq0. rewrite <- Heq. by apply puts_of_queues. }
    apply elem_of_cons in Hd as [->|Hd]; [done|]. by apply IH.
Qed.

Lemma puts_for_zip_at (R : list Any) (qs : list nat) (i q : nat) :
  NoDup qs → qs !! i = Some q →
  puts_for q (zip_with (λ r q, (q, Value r)) R qs)
  = match R !! i with Some x => [Value x] | None => [] end.
Proof.
  revert R i. induction qs as [|q0 qs IH]; intros R i Hnd Hi; [done|].
  apply NoDup_cons in Hnd as [Hq0 Hnd].
  destruct R as [|x R].
  { cbn. by destruct i. }
  cbn [zip_with]. change (?a :: ?l) with ([a] ++ l) at 1. rewrite puts_for_app.
  destruct i as [|i]; cbn in Hi.
  - injection Hi as ->. cbn [lookup list_lookup].
    rewrite (puts_for_none q (zip_with _ R qs)).
    + unfold puts_for. rewrite filter_cons, decide_True by done. done.
    + intros p Hp Heq. apply Hq0. rewrite <- Heq. by apply elem_of_zip_results in Hp.
  - rewrite (puts_for_none q [_]).
    + cbn. by apply IH.
    + intros p ->%list_elem_of_singleton Heq. cbn in Heq. subst q0.
      apply Hq0. by eapply list_elem_of_lookup_2.
Qed.

Lemma puts_for_error_at (msg : string) (qs : list nat) (q : nat) :
  NoDup qs → q ∈ qs →
  puts_for q ((λ q, (q, ErrorDict msg)) <$> qs) = [ErrorDict (Any:=Any) msg].
Proof.
  intros Hnd Hq. pose proof (puts_for_error_puts (Any:=Any) msg qs Hnd) as Hall.
  by apply (proj1 (Forall_forall _ _) Hall).
Qed.

Lemma NoDup_bind_unique {A B} (f : A → list B) (l : list A) (x y : A) (b : B) :
  NoDup (l ≫= f) → x ∈ l → y ∈ l → b ∈ f x → b ∈ f y → x = y.
Proof.
  induction l as [|a l IH]; intros Hnd Hx Hy Hbx Hby; [by apply elem_of_nil in Hx|].
  rewrite bind_cons in Hnd. apply NoDup_app in Hnd as (_ & Hdisj & Hnd).
  apply elem_of_cons in Hx as [->|Hx]; apply elem_of_cons in Hy as [->|Hy]; [done| | |auto].
  - exfalso. apply (Hdisj b Hbx). apply list_elem_of_bind. by exists y.
  - exfalso. apply (Hdisj b Hby). apply list_elem_of_bind. by exists x.
Qed.

Lemma dispatched_queues_NoDup (ls : list label) :
  NoDup (dispatched (run ls init) ≫= d_queues).
Proof.
  destruct (accounted_run ls) as (Hq & _).
  assert (Hnd : NoDup ((dispatched (run ls init) ≫= d_queues) ++ pending (run ls init))).
  { rewrite Hq. apply NoDup_seq. }
  by apply NoDup_app in Hnd as (? & _).
Qed.

(** What was put on result queue [q] in a run: nothing when no processed
    batch holds [q]; otherwise [q] is the queue of the [i]-th request of a
    processed batch, and the only put is the [i]-th result, if there is
    one, or the error dictionary. *)
Lemma answer_spec (ls : list label) (q : nat) :
  let s := run ls init in
  ((q ∉ dispatched s ≫= d_queues) ∧ writes s q = [])
  ∨ ∃ d i r,
      d ∈ dispatched s ∧ d_queues d !! i = Some q ∧ d_batch d !! i = Some r
      ∧ submitted ls !! q = Some r ∧ d_outcome d = compute (d_batch d)
      ∧ writes s q = match d_outcome d with
                     | Return R => match R !! i with Some x => [Value x] | None => [] end
                     | Raise e => [ErrorDict (str_of_exn e)]
                     end.
Proof.
  intros s.
  destruct (accounted_run ls) as (_ & Hputs & _). fold s in Hputs.
  pose proof (dispatched_queues_NoDup ls) as Hnd. fold s in Hnd.
  destruct (slots_inv_run max_batch_size timeout_ms process_fn ls)
    as (_ & _ & _ & _ & _ & _ & Hdel). fold s in Hdel.
  rewrite writes_puts_for, Hputs.
  destruct (decide (q ∈ dispatched s ≫= d_queues)) as [Hq|Hq]; cycle 1.
  { left. split; [done|]. by apply puts_for_not_dispatched. }
  right. apply list_elem_of_bind in Hq as (d & Hq & Hd).
  apply list_elem_of_lookup in Hq as [i Hi].
  destruct (proj1 (Forall_forall _ _) Hdel d Hd) as (_ & Hout & Hpair & Hndq & _).
  destruct (Forall2_lookup_r _ _ _ _ _ Hpair Hi) as (r & Hr & Hsub).
  exists d, i, r. split_and!; try done.
  rewrite (puts_for_bind _ d) by (done || by eapply list_elem_of_lookup_2).
  unfold puts_of. destruct (d_outcome d) as [R|e].
  - by apply puts_for_zip_at.
  - apply puts_for_error_at; [done|]. by eapply list_elem_of_lookup_2.
Qed.

(** X10. When [process] returns a value to the caller with result queue
    [q], that value is the only one ever put on [q], and it comes from the
    batch that holds the caller's own request, at the request's position:
    the result of [process_fn] at that position, or the error dictionary
    of that batch. *)
Theorem process_answer_origin (ls : list label) (q : nat) (v : slot_value Any) :
  let s := run ls init in
  process_result s q = Return v →
  writes s q = [v]
  ∧ ∃ d i r,
      d ∈ dispatched s ∧ d_queues d !! i = Some q ∧ d_batch d !! i = Some r
      ∧ submitted ls !! q = Some r
      ∧ match compute (d_batch d) with
        | Return R => ∃ x, R !! i = Some x ∧ v = Value x
        | Raise e => v = ErrorDict (str_of_exn e)
        end.
Proof.
  intros s Hres. unfold process_result in Hres.
  destruct (answer_spec ls q) as [[_ Hw]|(d & i & r & Hd & Hi & Hr & Hsub & Hout & Hw)];
    fold s in Hw; rewrite Hw in Hres; [done|].
  rewrite Hw.
  destruct (d_outcome d) as [R|e] eqn:Hdo.
  - destruct (R !! i) as [x|] eqn:Hx; [|done]. injection Hres as <-.
    split; [done|]. exists d, i, r. rewrite <- Hout. split_and!; try done. by exists x.
  - injection Hres as <-. split; [done|]. exists d, i, r. by rewrite <- Hout.
Qed.

(** X11. When [process_fn] returns fewer results than the batch has
    requests, [zip] stops at the shorter list: a caller whose position is
    beyond the results is never answered, and its [process] raises
    [TimeoutError], whatever happens later. *)
Theorem short_results_starve_callers
    (ls ls' : list label) (d : dispatch Any) (R : list Any) (i q : nat) :
  d ∈ dispatched (run ls init) → d_outcome d = Return R →
  d_queues d !! i = Some q → (length R ≤ i)%nat →
  process_result (run (ls ++ ls') init) q
  = Raise (TimeoutError "Request processing timeout").
Proof.
  intros Hd HR Hi Hlen.
  assert (Hd' : d ∈ dispatched (run (ls ++ ls') init)).
  { rewrite run_app. destruct (dispatched_run_prefix max_batch_size timeout_ms process_fn (run ls init) ls') as [k ->].
    by apply elem_of_app; left. }
  unfold process_result.
  destruct (answer_spec (ls ++ ls') q)
    as [[Hq _]|(d' & i' & r & Hd2 & Hi' & _ & _ & _ & Hw)].
  { exfalso. apply Hq. apply list_elem_of_bind. exists d. split; [|done].
    by eapply list_elem_of_lookup_2. }
  pose proof (dispatched_queues_NoDup (ls ++ ls')) as Hnd.
  assert (d' = d) as ->.
  { apply (NoDup_bind_unique d_queues _ d' d q Hnd); try done;
      by eapply list_elem_of_lookup_2. }
  destruct (slots_inv_run max_batch_size timeout_ms process_fn (ls ++ ls'))
    as (_ & _ & _ & _ & _ & _ & Hdel).
  destruct (proj1 (Forall_forall _ _) Hdel d Hd') as (_ & _ & _ & Hndq & _).
  assert (i' = i) as -> by (by eapply NoDup_lookup).
  rewrite Hw, HR. by rewrite lookup_ge_None_2.
Qed.

(** *** One dispatch thread serves the requests in the order of arrival *)

Lemma single_thread_lookup (l : list thread) (tid : nat) (t : thread) :
  (length l ≤ 1)%nat → l !! tid = Some t → l = [t] ∧ tid = 0%nat.
Proof.
  destruct l as [|t0 [|t1 l]]; cbn; intros Hlen Ht; [done| |lia].
  destruct tid as [|tid]; cbn in Ht; [|done]. by injection Ht as ->.
Qed.

Lemma arrival_order_step (s : state) (l : label) :
  is_stop l = false → arrival_order s → arrival_order (step s l).
Proof.
  intros Hstop. destruct (is_thread_move l) eqn:Hl.
  - clear Hstop. revert s l Hl. apply thread_move_preserves.
    + intros s tid t last' pc' Ht (Hrun & Hlen & Hq).
      destruct (single_thread_lookup _ _ _ Hlen Ht) as [Hts ->].
      unfold arrival_order. cbn [set_thread running threads dispatched request_queue next_queue].
      rewrite Hts in Hq |- *. cbn. split_and!; [|lia|done].
      intros Hr. by rewrite (Hrun Hr) in Hts.
    + intros s tid t r q rest Ht Hrq (Hrun & Hlen & Hq).
      destruct (single_thread_lookup _ _ _ Hlen Ht) as [Hts ->].
      unfold arrival_order, take_item.
      cbn [set_thread running threads dispatched request_queue next_queue].
      rewrite Hts, Hrq in Hq. rewrite Hts. cbn. split_and!; [|lia|].
      * intros Hr. by rewrite (Hrun Hr) in Hts.
      * rewrite <- Hq. cbn. by rewrite !app_nil_r, <- !app_assoc.
    + intros s tid t flag now Ht Hb _ (Hrun & Hlen & Hq).
      destruct (single_thread_lookup _ _ _ Hlen Ht) as [Hts ->].
      destruct (flush_fields process_fn s 0 t flag now Hb) as (Hthreads & Hdisp & Hrunning).
      destruct (flush_more_fields s 0 t flag now Hb) as (Hqueue & Hnext & _ & _).
      unfold arrival_order. rewrite Hthreads, Hdisp, Hrunning, Hqueue, Hnext.
      rewrite Hts in Hq |- *. split_and!; [|cbn; lia|].
      * intros Hr. by rewrite (Hrun Hr) in Hts.
      * rewrite <- Hq, bind_app. cbn. by rewrite !app_nil_r, <- !app_assoc.
  - intros Hs. pose proof Hs as (Hrun & Hlen & Hq).
    destruct l as [now| |request|tid now|tid now|tid now]; try done; cbn [BatchProcessor.step].
    + unfold start. destruct (running s) eqn:Hr; [done|].
      unfold arrival_order. cbn [running threads dispatched request_queue next_queue].
      rewrite (Hrun eq_refl) in Hq |- *. by split_and!.
    + unfold arrival_order, process.
      cbn [running threads dispatched request_queue next_queue].
      split_and!; [done|done|].
      rewrite seq_S, fmap_app, <- Hq. cbn. by rewrite <- !app_assoc.
Qed.

(** X12. As long as [stop()] is not called there is at most one dispatch
    thread, and requests are batched in the order of their arrival: the
    result queues of the processed batches, in the order of processing,
    then those of the batch being filled, then those of the request queue
    are the queues in the order of their creation. *)
Theorem batches_follow_arrival_order (ls : list label) :
  forallb (λ l, negb (is_stop l)) ls = true →
  let s := run ls init in
  (length (threads s) ≤ 1)%nat
  ∧ (dispatched s ≫= d_queues) ++ (threads s ≫= result_queues) ++ (request_queue s).*2
    = seq 0 (length (submitted ls)).
Proof.
  intros Hstop s. rewrite <- length_submitted_run. fold s.
  assert (Hinv : arrival_order s).
  { subst s. induction ls as [|l ls IH] using rev_ind; [split_and!; cbn; done || lia|].
    rewrite forallb_app in Hstop. apply andb_prop in Hstop as [Hls Hl].
    cbn in Hl. rewrite andb_true_r in Hl. apply negb_true_iff in Hl.
    rewrite run_snoc. apply arrival_order_step; [done|]. by apply IH. }
  by destruct Hinv as (_ & ? & ?).
Qed.

(** *** Callers that come one at a time *)

Lemma one_at_a_time_step (s : state) (l : label) :
  (∀ request, l = Process request → pending s = []) →
  one_at_a_time max_batch_size s → one_at_a_time max_batch_size (step s l).
Proof.
  intros Hseq. destruct (is_thread_move l) eqn:Hl.
  - clear Hseq. revert s l Hl. apply thread_move_preserves.
    + intros s tid t last' pc' Ht (Hp & Hth & Hd). split_and!; [| |done].
      * rewrite (pending_set_thread _ tid t) by done. cbn [result_queues].
        by rewrite <- (pending_thread s tid t).
      * cbn [set_thread threads]. apply Forall_insert; [done|]. cbn.
        by apply (Forall_lookup_1 _ _ _ _ Hth Ht).
    + intros s tid t r q rest Ht Hrq (Hp & Hth & Hd). split_and!; [| |done].
      * unfold take_item. rewrite (pending_set_thread _ tid t) by done.
        rewrite (pending_thread s tid t), Hrq in Hp by done.
        cbn in Hp |- *. rewrite !length_app in *. cbn in *. rewrite length_app in Hp. lia.
      * unfold take_item. cbn [set_thread threads]. apply Forall_insert; [done|]. cbn.
        rewrite !length_app. cbn. f_equal. by apply (Forall_lookup_1 _ _ _ _ Hth Ht).
    + intros s tid t flag now Ht Hb Hflag (Hp & Hth & Hd).
      destruct (flush_fields process_fn s tid t flag now Hb) as (Hthreads & Hdisp & _).
      pose proof (flush_pending s tid t flag now Ht Hb) as Hpend.
      pose proof (Forall_lookup_1 _ _ _ _ Hth Ht) as Hlen. cbn in Hlen.
      rewrite (pending_thread s tid t) in Hp by done. rewrite length_app in Hp.
      assert (length (batch t) = 1%nat) as Hone.
      { destruct (batch t); [done|]. cbn in *. lia. }
      split_and!.
      * rewrite Hpend. lia.
      * rewrite Hthreads. apply Forall_insert; [done|]. done.
      * rewrite Hdisp. apply Forall_app. split; [done|].
        constructor; [|constructor]. cbn. split; [done|].
        intros Hmax. destruct flag; [done|]. specialize (Hflag eq_refl). lia.
  - intros (Hp & Hth & Hd).
    destruct l as [now| |request|tid now|tid now|tid now]; try done; cbn [BatchProcessor.step].
    + unfold start. destruct (running s); [done|]. split_and!; [| |done].
      * unfold pending in *. cbn [request_queue threads]. rewrite bind_app. cbn.
        by rewrite app_nil_r.
      * cbn [threads]. apply Forall_app. split; [done|]. by repeat constructor.
    + split_and!; [|done|done].
      unfold process, pending. cbn [request_queue threads].
      specialize (Hseq request eq_refl). unfold pending in Hseq.
      apply app_eq_nil in Hseq as [Hrq Hth']. apply fmap_nil_inv in Hrq.
      rewrite Hrq, Hth'. cbn. lia.
Qed.

Lemma one_at_a_time_run (ls : list label) (s : state) :
  sequential_from max_batch_size timeout_ms process_fn s ls = true →
  one_at_a_time max_batch_size s → one_at_a_time max_batch_size (run ls s).
Proof.
  revert s. induction ls as [|l ls IH]; intros s Hseq Hs; [done|].
  cbn [sequential_from] in Hseq. apply andb_prop in Hseq as [Hl Hseq].
  change (run (l :: ls) s) with (run ls (step s l)).
  apply IH; [done|]. apply one_at_a_time_step; [|done].
  intros request ->. by apply bool_decide_eq_true in Hl.
Qed.

(** X13. When callers come one at a time, each [process] called when no
    earlier request awaits its answer, every processed batch holds one
    request; with [max_batch_size ≥ 2] each of them is processed with
    [timeout=True] and [full_batches] stays 0. *)
Theorem sequential_callers_get_batches_of_one (ls : list label) :
  sequential_from max_batch_size timeout_ms process_fn init ls = true →
  let s := run ls init in
  (∀ d, d ∈ dispatched s →
        length (d_batch d) = 1%nat ∧ (2 ≤ max_batch_size → d_timeout d = true))
  ∧ (2 ≤ max_batch_size → full_batches (get_metrics s) = 0).
Proof.
  intros Hseq s.
  assert (Hinv : one_at_a_time max_batch_size s).
  { apply one_at_a_time_run; [done|]. split_and!; cbn; [lia|constructor|constructor]. }
  destruct Hinv as (_ & _ & Hd).
  split; [intros d; by apply (proj1 (Forall_forall _ _) Hd)|].
  intros Hmax. unfold get_metrics. cbn [full_batches]. subst s.
  destruct (metrics_inv_run max_batch_size timeout_ms process_fn ls) as (_ & _ & ->).
  unfold count_batches. rewrite filter_none; [done|].
  intros d Hin. destruct (proj1 (Forall_forall _ _) Hd d Hin) as [_ Ht].
  rewrite (Ht Hmax). by rewrite andb_false_r.
Qed.

(** *** The running mean *)





End CoalescerMoreFacts.

(** X15. Without a [process_fn] the processor echoes: a value returned by
    [process] is the caller's own request. *)
Theorem default_process_fn_echoes {Any : Type} (max_batch_size : Z) (timeout_ms : Q)
    (ls : list (BatchProcessor.label Any)) (q : nat) (v : BatchProcessor.slot_value Any) :
  BatchProcessor.process_result
    (BatchProcessor.run max_batch_size timeout_ms None ls BatchProcessor.init) q
  = Return v →
  ∃ request, submitted ls !! q = Some request ∧ v = BatchProcessor.Value request.
Proof.
  intros Hres. unfold BatchProcessor.process_result in Hres.
  destruct (answer_spec max_batch_size timeout_ms None ls q)
    as [[_ Hw]|(d & i & r & Hd & Hi & Hr & Hsub & Hout & Hw)];
    rewrite Hw in Hres; [done|].
  rewrite Hout in Hres. cbn in Hres. rewrite Hr in Hres.
  injection Hres as <-. by exists r.
Qed.

(** *** Concrete runs *)

(** One request, answered by the default after a wait that expired. *)
Lemma default_process_fn_echoes_witness :
  ∃ request,
    submitted [BatchProcessor.Start 0; BatchProcessor.Process "req_0";
               BatchProcessor.LoopTest 0 0; BatchProcessor.GetItem 0 0;
               BatchProcessor.LoopTest 0 0; BatchProcessor.GetEmpty 0 (1 # 10)]
      !! 0%nat = Some request
    ∧ BatchProcessor.Value "req_0" = BatchProcessor.Value request.
Proof.
  apply (default_process_fn_echoes 10 (BatchProcessor.new_timeout 50)
           [BatchProcessor.Start 0; BatchProcessor.Process "req_0";
            BatchProcessor.LoopTest 0 0; BatchProcessor.GetItem 0 0;
            BatchProcessor.LoopTest 0 0; BatchProcessor.GetEmpty 0 (1 # 10)]
           0%nat (BatchProcessor.Value "req_0")).
  reflexivity.
Defined.

(** Two requests fill a batch of two; the second caller receives the second
    result. *)
Lemma process_answer_origin_witness :
  let ls := [BatchProcessor.Start 0; BatchProcessor.Process "req_0";
             BatchProcessor.Process "req_1";
             BatchProcessor.LoopTest 0 0; BatchProcessor.GetItem 0 0;
             BatchProcessor.LoopTest 0 0; BatchProcessor.GetItem 0 0] in
  let s := BatchProcessor.run 2 (BatchProcessor.new_timeout 50) (Some demo_process_fn)
             ls BatchProcessor.init in
  BatchProcessor.writes s 1 = [BatchProcessor.Value "result_req_1"]
  ∧ ∃ d i r,
      d ∈ BatchProcessor.dispatched s ∧ BatchProcessor.d_queues d !! i = Some 1%nat
      ∧ BatchProcessor.d_batch d !! i = Some r
      ∧ submitted ls !! 1%nat = Some r
      ∧ match compute (Some demo_process_fn) (BatchProcessor.d_batch d) with
        | Return R => ∃ x, R !! i = Some x
                           ∧ BatchProcessor.Value "result_req_1" = BatchProcessor.Value x
        | Raise e => BatchProcessor.Value "result_req_1"
                     = BatchProcessor.ErrorDict (str_of_exn e)
        end.
Proof.
  apply (process_answer_origin 2 (BatchProcessor.new_timeout 50) (Some demo_process_fn)
           [BatchProcessor.Start 0; BatchProcessor.Process "req_0";
            BatchProcessor.Process "req_1";
            BatchProcessor.LoopTest 0 0; BatchProcessor.GetItem 0 0;
            BatchProcessor.LoopTest 0 0; BatchProcessor.GetItem 0 0]
           1%nat (BatchProcessor.Value "result_req_1")).
  reflexivity.
Defined.

(** A computation that returns one result for a batch of two: the second
    caller is never answered. *)
Lemma short_results_starve_callers_witness :
  BatchProcessor.process_result
    (BatchProcessor.run 2 (BatchProcessor.new_timeout 50) (Some demo_short_fn)
       ([BatchProcessor.Start 0; BatchProcessor.Process "req_0";
         BatchProcessor.Process "req_1";
         BatchProcessor.LoopTest 0 0; BatchProcessor.GetItem 0 0;
         BatchProcessor.LoopTest 0 0; BatchProcessor.GetItem 0 0]
        ++ [BatchProcessor.LoopTest 0 1; BatchProcessor.GetEmpty 0 2])
       BatchProcessor.init) 1
  = Raise (TimeoutError "Request processing timeout").
Proof.
  apply (short_results_starve_callers 2 (BatchProcessor.new_timeout 50) (Some demo_short_fn)
           [BatchProcessor.Start 0; BatchProcessor.Process "req_0";
            BatchProcessor.Process "req_1";
            BatchProcessor.LoopTest 0 0; BatchProcessor.GetItem 0 0;
            BatchProcessor.LoopTest 0 0; BatchProcessor.GetItem 0 0]
           [BatchProcessor.LoopTest 0 1; BatchProcessor.GetEmpty 0 2]
           (BatchProcessor.Dispatch ["req_0"; "req_1"] [0; 1]%nat false (Return ["req_0"]))
           ["req_0"] 1%nat 1%nat).
  - apply list_elem_of_singleton. reflexivity.
  - reflexivity.
  - reflexivity.
  - cbn. lia.
Defined.

(** Three requests and one dispatch thread: a full batch of two, then a
    batch of one. *)
Lemma batches_follow_arrival_order_witness :
  let ls := [BatchProcessor.Start 0; BatchProcessor.Process "req_0";
             BatchProcessor.Process "req_1"; BatchProcessor.Process "req_2";
             BatchProcessor.LoopTest 0 0; BatchProcessor.GetItem 0 0;
             BatchProcessor.LoopTest 0 0; BatchProcessor.GetItem 0 0;
             BatchProcessor.LoopTest 0 0; BatchProcessor.GetItem 0 0] in
  let s := BatchProcessor.run 2 (BatchProcessor.new_timeout 50) (Some demo_process_fn)
             ls BatchProcessor.init in
  (length (BatchProcessor.threads s) ≤ 1)%nat
  ∧ (BatchProcessor.dispatched s ≫= BatchProcessor.d_queues)
    ++ (BatchProcessor.threads s ≫= BatchProcessor.result_queues)
    ++ (BatchProcessor.request_queue s).*2
    = seq 0 (length (submitted ls)).
Proof.
  apply (batches_follow_arrival_order 2 (BatchProcessor.new_timeout 50)
           (Some demo_process_fn)
           [BatchProcessor.Start 0; BatchProcessor.Process "req_0";
            BatchProcessor.Process "req_1"; BatchProcessor.Process "req_2";
            BatchProcessor.LoopTest 0 0; BatchProcessor.GetItem 0 0;
            BatchProcessor.LoopTest 0 0; BatchProcessor.GetItem 0 0;
            BatchProcessor.LoopTest 0 0; BatchProcessor.GetItem 0 0]).
  reflexivity.
Defined.

(** The worker's setting, 32 requests to a batch, with two callers of which
    the second comes after the first was answered. *)
Lemma sequential_callers_get_batches_of_one_witness :
  let s := BatchProcessor.run 32 (BatchProcessor.new_timeout 20) (Some demo_process_fn)
             [BatchProcessor.Start 0; BatchProcessor.Process "req_0";
              BatchProcessor.LoopTest 0 0; BatchProcessor.GetItem 0 0;
              BatchProcessor.LoopTest 0 0; BatchProcessor.GetEmpty 0 (2 # 100);
              BatchProcessor.Process "req_1";
              BatchProcessor.LoopTest 0 (2 # 100); BatchProcessor.GetItem 0 (3 # 100);
              BatchProcessor.LoopTest 0 (3 # 100); BatchProcessor.GetEmpty 0 (4 # 100)]
             BatchProcessor.init in
  (∀ d, d ∈ BatchProcessor.dispatched s →
        length (BatchProcessor.d_batch d) = 1%nat
        ∧ (2 ≤ 32 → BatchProcessor.d_timeout d = true))
  ∧ (2 ≤ 32 → BatchProcessor.full_batches (BatchProcessor.get_metrics s) = 0).
Proof.
  apply (sequential_callers_get_batches_of_one 32 (BatchProcessor.new_timeout 20)
           (Some demo_process_fn)
           [BatchProcessor.Start 0; BatchProcessor.Process "req_0";
            BatchProcessor.LoopTest 0 0; BatchProcessor.GetItem 0 0;
            BatchProcessor.LoopTest 0 0; BatchProcessor.GetEmpty 0 (2 # 100);
            BatchProcessor.Process "req_1";
            BatchProcessor.LoopTest 0 (2 # 100); BatchProcessor.GetItem 0 (3 # 100);
            BatchProcessor.LoopTest 0 (3 # 100); BatchProcessor.GetEmpty 0 (4 # 100)]).
  reflexivity.
Defined.
